(** * ldapts: filters, RDN equality and the client's request bookkeeping

    A shallow embedding of the parts of the LDAP client that the
    specification makes testable statements about:

    - [Ber]      the definite-length TLV reader and writer the filters are
                 encoded with (the external [asn1] package);
    - [Filters]  [EqualityFilter], [AndFilter], [OrFilter] and
                 [FilterParser.parse]; in [Filters.Full] the same with the
                 filter classes that are not among the sources as
                 parameters;
    - [JsString] the methods of strings that the code calls;
    - [FilterParser]  [FilterParser.parseString], the parser of filters
                 written as text;
    - [RDN]      [RDN.set], [RDN.get], [RDN.equals], [RDN.toString] and
                 the constructor;
    - [Client]   message-id allocation, [_send] with its timer and write
                 callbacks, [_handleSendResponse], the socket [close] and
                 [error] handlers, [unbind], [search], the paging loop
                 [_sendSearch] and the names of [modifyDN].

    JavaScript numbers that the code only uses as integers are [Z]; strings
    are [string]; a [Buffer] is a list of bytes together with the identity of
    the object, because [===] on two Buffers compares identities. *)

From Stdlib Require Import ZArith Lia Strings.Byte Strings.Ascii Strings.String.
From stdpp Require Import base option list strings gmap sorting.

Local Open Scope Z_scope.

(** ** Exceptions and results *)

(** What the embedded code can throw.  Messages that the source formats from
    run-time values are kept as the values they are formatted from. *)
Inductive Exn : Type :=
  | Asn1Expected (tag got : Z)          (* 'Expected 0x..: got 0x..' *)
  | Asn1IndefiniteLength                (* 'Indefinite length not supported' *)
  | Asn1EncodingTooLong                 (* 'encoding too long' *)
  | Asn1LengthTooLong                   (* 'Length too long (> 4 bytes)' *)
  | Asn1SequenceTooLong                 (* 'Sequence too long' *)
  | TypeError (what : string)           (* a JavaScript TypeError *)
  | AssertionError                      (* assert.ok(len) of Writer._ensure *)
  | InvalidSearchFilterType (type : option Z)
  | OutsideSources (what : string)      (* control enters a class that is not among the sources *)
  | Error (message : string)            (* new Error(message) *)
  | StatusError (status : Z) (errorMessage : string).
                                        (* StatusCodeParser.parse(status, errorMessage) *)

Inductive Result (A : Type) : Type :=
  | Ok (a : A)
  | Throw (e : Exn).
Arguments Ok {A} a.
Arguments Throw {A} e.

#[export] Instance Result_ret : MRet Result := fun _ a => Ok a.
#[export] Instance Result_bind : MBind Result :=
  fun _ _ k m => match m with Ok a => k a | Throw e => Throw e end.

(** ** The JavaScript run time

    The string and Buffer primitives the code calls.  They are kept abstract:
    every theorem holds for any lower-casing function and any UTF-8 codec. *)
Class Runtime : Type := {
  toLowerCase : string -> string;        (* String.prototype.toLowerCase *)
  utf8_encode : string -> list byte;     (* Buffer.from(s, 'utf8') *)
  utf8_decode : list byte -> string      (* buf.toString('utf8') *)
}.

(** The run time on 7-bit text, for examples: on strings of ASCII characters
    lower-casing folds [A]-[Z] and the UTF-8 encoding of a character is its
    code. *)
Definition ascii_lower (c : ascii) : ascii :=
  let n := N_of_ascii c in
  if ((65 <=? n) && (n <=? 90))%N then ascii_of_N (n + 32) else c.

Fixpoint ascii_toLowerCase (s : string) : string :=
  match s with
  | EmptyString => EmptyString
  | String c s => String (ascii_lower c) (ascii_toLowerCase s)
  end.

Definition ascii_runtime : Runtime :=
  {| toLowerCase := ascii_toLowerCase;
     utf8_encode := list_byte_of_string;
     utf8_decode := string_of_list_byte |}.

(** A [Buffer] object: [===] compares [buf_ref], the bytes are [buf_data]. *)
Record Buffer : Type := { buf_ref : nat; buf_data : list byte }.

(** ** BER primitives

    [Ber.Reader] and [Ber.Writer] of the package [asn1], which the
    repository depends on and does not contain: the methods the filters
    call, after lib/ber/reader.js and lib/ber/writer.js of asn1 0.2. *)
Module Ber.

Definition OctetString : Z := 4.

Definition byte_val (b : byte) : Z := Z.of_N (Byte.to_N b).

(** Storing a number into a Buffer keeps its low eight bits. *)
Definition u8 (z : Z) : byte :=
  default "000"%byte (Byte.of_N (Z.to_N (Z.land z 255))).

(** [x << 8] on a JavaScript number: the result is a signed 32-bit integer. *)
Definition to_int32 (z : Z) : Z :=
  let m := z mod 2 ^ 32 in if m <? 2 ^ 31 then m else m - 2 ^ 32.
Definition shl8 (z : Z) : Z := to_int32 (Z.shiftl z 8).

(** *** Writer.  [_offset] is the length of [w_buf]; [w_seq] is [_seq]. *)
Record BerWriter : Type := { w_buf : list byte; w_seq : list nat }.

Definition newWriter : BerWriter := {| w_buf := []; w_seq := [] |}.

Definition put (bs : list byte) (w : BerWriter) : BerWriter :=
  {| w_buf := w_buf w ++ bs; w_seq := w_seq w |}.

Definition writeByte (b : Z) (w : BerWriter) : BerWriter := put [u8 b] w.

(** The bytes [writeLength] and [endSequence] store for a length. *)
Definition length_octets (len : Z) : Result (list byte) :=
  if len <=? 127 then Ok [u8 len]
  else if len <=? 255 then Ok [u8 129; u8 len]
  else if len <=? 65535 then Ok [u8 130; u8 (Z.shiftr len 8); u8 len]
  else if len <=? 16777215 then
    Ok [u8 131; u8 (Z.shiftr len 16); u8 (Z.shiftr len 8); u8 len]
  else Throw Asn1LengthTooLong.

Definition writeLength (len : Z) (w : BerWriter) : Result BerWriter :=
  bs ← length_octets len; mret (put bs w).

Definition writeString `{Runtime} (s : string) (tag : Z) (w : BerWriter)
  : Result BerWriter :=
  let bytes := utf8_encode s in
  w ← writeLength (Z.of_nat (length bytes)) (writeByte tag w);
  mret (put bytes w).

(** After the tag and the length [writeBuffer] calls [_ensure(buf.length)],
    which asserts that the length is not zero: an empty Buffer is refused. *)
Definition writeBuffer (buf : Buffer) (tag : Z) (w : BerWriter)
  : Result BerWriter :=
  w ← writeLength (Z.of_nat (length (buf_data buf))) (writeByte tag w);
  if bool_decide (buf_data buf = []) then Throw AssertionError
  else mret (put (buf_data buf) w).

(** [startSequence] writes the tag, remembers the offset after it and
    reserves three bytes for the length. *)
Definition startSequence (tag : Z) (w : BerWriter) : BerWriter :=
  let w1 := writeByte tag w in
  {| w_buf := w_buf w1 ++ [u8 0; u8 0; u8 0];
     w_seq := length (w_buf w1) :: w_seq w |}.

(** [endSequence] pops that offset, stores the length of what was written
    since in one to four bytes and moves the content next to it. *)
Definition endSequence (w : BerWriter) : Result BerWriter :=
  match w_seq w with
  | [] => Throw Asn1SequenceTooLong
  | seq :: rest =>
      let start := (seq + 3)%nat in
      let len := Z.of_nat (length (w_buf w)) - Z.of_nat start in
      match length_octets len with
      | Ok bs => Ok {| w_buf := take seq (w_buf w) ++ bs ++ drop start (w_buf w);
                       w_seq := rest |}
      | Throw _ => Throw Asn1SequenceTooLong
      end
  end.

(** *** Reader.  [r_offset] and [r_len] are [_offset] and [_len]; [_size]
    is the length of [r_buf]. *)
Record BerReader : Type := { r_buf : list byte; r_offset : Z; r_len : Z }.

Definition newReader (data : list byte) : BerReader :=
  {| r_buf := data; r_offset := 0; r_len := 0 |}.

Definition r_size (r : BerReader) : Z := Z.of_nat (length (r_buf r)).

(** [this._buf[i] & 0xff]; an index outside the buffer reads [undefined],
    and [undefined & 0xff] is 0. *)
Definition byte_at (r : BerReader) (i : Z) : Z :=
  if (0 <=? i) && (i <? r_size r)
  then byte_val (nth (Z.to_nat i) (r_buf r) "000"%byte)
  else 0.

Definition peek (r : BerReader) : option Z :=
  if r_size r - r_offset r <? 1 then None else Some (byte_at r (r_offset r)).

(** The loop of [readLength] over the [n] length bytes from [offset]. *)
Fixpoint read_len_bytes (r : BerReader) (n : nat) (offset len : Z) : Z :=
  match n with
  | O => len
  | S n => read_len_bytes r n (offset + 1) (shl8 len + byte_at r offset)
  end.

(** [readLength(offset)]: [None] is [null] (more data needed); otherwise the
    offset after the length bytes, with [_len] set. *)
Definition readLength (offset : Z) (r : BerReader)
  : Result (option (Z * BerReader)) :=
  if r_size r <=? offset then Ok None
  else
    let lenB := byte_at r offset in
    let offset := offset + 1 in
    if Z.land lenB 128 =? 128 then
      let lenB := Z.land lenB 127 in
      if lenB =? 0 then Throw Asn1IndefiniteLength
      else if 4 <? lenB then Throw Asn1EncodingTooLong
      else if r_size r - offset <? lenB then Ok None
      else Ok (Some (offset + lenB,
                     {| r_buf := r_buf r; r_offset := r_offset r;
                        r_len := read_len_bytes r (Z.to_nat lenB) offset 0 |}))
    else Ok (Some (offset, {| r_buf := r_buf r; r_offset := r_offset r;
                              r_len := lenB |})).

Definition set_offset (o : Z) (r : BerReader) : BerReader :=
  {| r_buf := r_buf r; r_offset := o; r_len := r_len r |}.

(** [readSequence()] with no expected tag: the tag read, or [null]. *)
Definition readSequence (r : BerReader) : Result (option Z * BerReader) :=
  match peek r with
  | None => Ok (None, r)
  | Some seq =>
      o ← readLength (r_offset r + 1) r;
      match o with
      | None => Ok (None, r)
      | Some (o, r) => Ok (Some seq, set_offset o r)
      end
  end.

(** [Buffer.prototype.slice(start, end)]: a negative index counts from the
    end, and both are clamped to the buffer. *)
Definition slice (buf : list byte) (s e : Z) : list byte :=
  let size := Z.of_nat (length buf) in
  let adj i := if i <? 0 then Z.max 0 (size + i) else Z.min i size in
  take (Z.to_nat (adj e - adj s)) (drop (Z.to_nat (adj s)) buf).

(** [readString()] with the default tag, returning a string. *)
Definition readString `{Runtime} (r : BerReader)
  : Result (option string * BerReader) :=
  match peek r with
  | None => Ok (None, r)
  | Some b =>
      if negb (b =? OctetString) then Throw (Asn1Expected OctetString b)
      else
        o ← readLength (r_offset r + 1) r;
        match o with
        | None => Ok (None, r)
        | Some (o, r) =>
            if r_size r - o <? r_len r then Ok (None, r)
            else
              let r := set_offset o r in
              if r_len r =? 0 then Ok (Some ""%string, r)
              else
                let str := slice (r_buf r) (r_offset r) (r_offset r + r_len r) in
                Ok (Some (utf8_decode str), set_offset (r_offset r + r_len r) r)
        end
  end.

(** *** The elements on the wire *)

(** The bytes of an element: tag, length, content; [None] when the content
    is too long for the writer. *)
Definition tlv (tag : Z) (content : list byte) : option (list byte) :=
  match length_octets (Z.of_nat (length content)) with
  | Ok lb => Some (u8 tag :: lb ++ content)
  | Throw _ => None
  end.

(** The buffer of [r] holds [bs] at offset [o]. *)
Definition holds (r : BerReader) (o : Z) (bs : list byte) : Prop :=
  0 <= o <= r_size r /\ exists rest, drop (Z.to_nat o) (r_buf r) = bs ++ rest.

End Ber.

(** ** Filter tags *)

(** Modelled from the spec: the enum [SearchFilter] (src/SearchFilter.ts is
    not among the sources).  Each variant has a context-class BER tag whose
    number is its position in the CHOICE that [FilterParser.parse] documents;
    all are constructed except [present]. *)
Module SearchFilter.
Definition and : Z := 160.             (* 0xa0 *)
Definition or : Z := 161.              (* 0xa1 *)
Definition not : Z := 162.             (* 0xa2 *)
Definition equalityMatch : Z := 163.   (* 0xa3 *)
Definition substrings : Z := 164.      (* 0xa4 *)
Definition greaterOrEqual : Z := 165.  (* 0xa5 *)
Definition lessOrEqual : Z := 166.     (* 0xa6 *)
Definition present : Z := 135.         (* 0x87 *)
Definition approxMatch : Z := 168.     (* 0xa8 *)
Definition extensibleMatch : Z := 169. (* 0xa9 *)
End SearchFilter.

(** ** Filters *)
Module Filters.
Import Ber.

(** The [value] of an [EqualityFilter] is declared [Buffer | string];
    [parseFilter] can also leave [null] there. *)
Inductive Value : Type :=
  | StringValue (s : string)
  | BufferValue (b : Buffer)
  | NullValue.

#[local] Set Warnings "-register-all".

(** The filter classes that the sources define ([EqualityFilter],
    [AndFilter], [OrFilter]) or construct ([NotFilter] in
    [FilterParser.parse], [PresenceFilter] in [Client.search]).  Where
    control would enter a method of a class that is not among the sources the
    embedding stops with [OutsideSources]. *)
Inductive Filter : Type :=
  | AndFilter (filters : list Filter)
  | OrFilter (filters : list Filter)
  | NotFilter (filter : Filter)
  | EqualityFilter (attribute : string) (value : Value)
  | PresenceFilter (attribute : string).

Definition type (f : Filter) : Z :=
  match f with
  | AndFilter _ => SearchFilter.and
  | OrFilter _ => SearchFilter.or
  | NotFilter _ => SearchFilter.not
  | EqualityFilter _ _ => SearchFilter.equalityMatch
  | PresenceFilter _ => SearchFilter.present
  end.

Definition isBuffer (v : Value) : bool :=
  match v with BufferValue _ => true | _ => false end.

(** [a === b] on values: strings by content, Buffers by identity. *)
Definition strict_equal (a b : Value) : bool :=
  match a, b with
  | StringValue s, StringValue t => bool_decide (s = t)
  | BufferValue x, BufferValue y => bool_decide (buf_ref x = buf_ref y)
  | NullValue, NullValue => true
  | _, _ => false
  end.

(** [for (const filter of filters) step(filter)] threading a state. *)
Definition for_of {A S : Type} (step : A -> S -> Result S)
  : list A -> S -> Result S :=
  fix go (l : list A) (s : S) : Result S :=
    match l with
    | [] => Ok s
    | a :: l => s ← step a s; go l s
    end.

Section WithRuntime.
Context `{Runtime}.

(** [EqualityFilter.writeFilter] *)
Definition EqualityFilter_writeFilter (attribute : string) (value : Value)
    (writer : BerWriter) : Result BerWriter :=
  writer ← writeString attribute OctetString writer;
  match value with
  | BufferValue b => writeBuffer b OctetString writer
  | StringValue s => writeString s OctetString writer
  | NullValue => Throw (TypeError "argument must be a string (was: object)")
  end.

(** Modelled from the spec: [Filter.write] of the base class and
    [NotFilter.writeFilter] (src/filters/Filter.ts and NotFilter.ts are not
    among the sources).  A filter is written as a constructed element
    carrying its variant's tag around what [writeFilter] writes, which is
    what [FilterParser.parse] reads back with [readSequence]; a [NotFilter]
    writes its one child.  The other cases are [AndFilter.writeFilter],
    [OrFilter.writeFilter] and [EqualityFilter.writeFilter] as the sources
    have them. *)
Fixpoint write (f : Filter) (writer : BerWriter) : Result BerWriter :=
  let writer := startSequence (type f) writer in
  writer ← match f with
           | AndFilter filters => for_of write filters writer
           | OrFilter filters => for_of write filters writer
           | NotFilter filter => write filter writer
           | EqualityFilter attribute value =>
               EqualityFilter_writeFilter attribute value writer
           | PresenceFilter _ => Throw (OutsideSources "PresenceFilter")
           end;
  endSequence writer.

(** [EqualityFilter.parseFilter] *)
Definition EqualityFilter_parseFilter (reader : BerReader)
  : Result (Filter * BerReader) :=
  '(a, reader) ← readString reader;
  let attribute := toLowerCase (default ""%string a) in
  '(v, reader) ← readString reader;
  if bool_decide (attribute = "objectclass"%string) then
    match v with
    | Some s => Ok (EqualityFilter attribute (StringValue (toLowerCase s)), reader)
    | None => Throw (TypeError "Cannot read properties of null (reading 'toLowerCase')")
    end
  else
    Ok (EqualityFilter attribute
          (match v with Some s => StringValue s | None => NullValue end), reader).

(** [FilterParser.parse] and the loop of [FilterParser._parseSet].  The
    recursion follows the reader, not the data, so it is given fuel; [None]
    means the fuel ran out. *)
Fixpoint parse (fuel : nat) (reader : BerReader)
  : option (Result (Filter * BerReader)) :=
  match fuel with
  | O => None
  | S fuel =>
      match readSequence reader with
      | Throw e => Some (Throw e)
      | Ok (None, _) => Some (Throw (InvalidSearchFilterType None))
      | Ok (Some type, reader) =>
          if type =? SearchFilter.and then
            match _parseSet_loop fuel (r_offset reader + r_len reader) reader [] with
            | Some (Ok (andFilters, reader)) => Some (Ok (AndFilter andFilters, reader))
            | Some (Throw e) => Some (Throw e)
            | None => None
            end
          else if type =? SearchFilter.approxMatch then
            Some (Throw (OutsideSources "ApproximateFilter"))
          else if type =? SearchFilter.equalityMatch then
            Some (EqualityFilter_parseFilter reader)
          else if type =? SearchFilter.extensibleMatch then
            Some (Throw (OutsideSources "ExtensibleFilter"))
          else if type =? SearchFilter.greaterOrEqual then
            Some (Throw (OutsideSources "GreaterThanEqualsFilter"))
          else if type =? SearchFilter.lessOrEqual then
            Some (Throw (OutsideSources "LessThanEqualsFilter"))
          else if type =? SearchFilter.not then
            match parse fuel reader with
            | Some (Ok (innerFilter, reader)) => Some (Ok (NotFilter innerFilter, reader))
            | other => other
            end
          else if type =? SearchFilter.or then
            match _parseSet_loop fuel (r_offset reader + r_len reader) reader [] with
            | Some (Ok (orFilters, reader)) => Some (Ok (OrFilter orFilters, reader))
            | Some (Throw e) => Some (Throw e)
            | None => None
            end
          else if type =? SearchFilter.present then
            Some (Throw (OutsideSources "PresenceFilter"))
          else if type =? SearchFilter.substrings then
            Some (Throw (OutsideSources "SubstringFilter"))
          else Some (Throw (InvalidSearchFilterType (Some type)))
      end
  end
with _parseSet_loop (fuel : nat) (end_ : Z) (reader : BerReader)
    (filters : list Filter) : option (Result (list Filter * BerReader)) :=
  match fuel with
  | O => None
  | S fuel =>
      if r_offset reader <? end_ then
        match parse fuel reader with
        | Some (Ok (f, reader)) => _parseSet_loop fuel end_ reader (filters ++ [f])
        | Some (Throw e) => Some (Throw e)
        | None => None
        end
      else Some (Ok (filters, reader))
  end.

(** [encodeBinary]: a filter written with a fresh writer. *)
Definition encodeBinary (f : Filter) : Result (list byte) :=
  writer ← write f newWriter; mret (w_buf writer).

(** [parseBinary]: [FilterParser.parse] on a reader over the bytes. *)
Definition parseBinary (fuel : nat) (data : list byte) : option (Result Filter) :=
  match parse fuel (newReader data) with
  | Some (Ok (f, _)) => Some (Ok f)
  | Some (Throw e) => Some (Throw e)
  | None => None
  end.

(** *** The encoding as a function

    What [write] appends to the writer's buffer, when it succeeds. *)
Definition enc_all (enc : Filter -> option (list byte))
  : list Filter -> option (list byte) :=
  fix go (fs : list Filter) : option (list byte) :=
    match fs with
    | [] => Some []
    | f :: fs =>
        match enc f, go fs with
        | Some b, Some bs => Some (b ++ bs)
        | _, _ => None
        end
    end.

Fixpoint enc (f : Filter) : option (list byte) :=
  match
    match f with
    | AndFilter fs => enc_all enc fs
    | OrFilter fs => enc_all enc fs
    | NotFilter f => enc f
    | EqualityFilter a v =>
        match tlv OctetString (utf8_encode a),
              match v with
              | StringValue s => tlv OctetString (utf8_encode s)
              | BufferValue b =>
                  if bool_decide (buf_data b = []) then None
                  else tlv OctetString (buf_data b)
              | NullValue => None
              end with
        | Some x, Some y => Some (x ++ y)
        | _, _ => None
        end
    | PresenceFilter _ => None
    end
  with
  | Some body => tlv (type f) body
  | None => None
  end.

(** A string that [readString] gives back from the bytes [writeString]
    wrote for it. *)
Definition utf8_stable (s : string) : Prop :=
  match utf8_encode s with
  | [] => s = ""%string
  | bytes => utf8_decode bytes = s
  end.

(** *** Evaluation against an entry

    [Filter.getObjectValue] belongs to the base class (src/filters/Filter.ts
    is not among the sources); it is taken as given, together with the type
    of the objects a filter is checked against.  It returns the entry's value
    for the attribute, or [undefined] ([None]). *)
Section Matching.
Variable Entry : Type.
Variable getObjectValue : Entry -> string -> bool -> option Value.

(** [v.toLowerCase()]: only strings have the method. *)
Definition call_toLowerCase (v : Value) : Result Value :=
  match v with
  | StringValue s => Ok (StringValue (toLowerCase s))
  | _ => Throw (TypeError "toLowerCase is not a function")
  end.

(** [EqualityFilter.matches] after the call of [getObjectValue]. *)
Definition EqualityFilter_compare (value : Value)
    (objectToCheckValue : option Value) (strictAttributeCase : bool)
  : Result bool :=
  match objectToCheckValue with
  | Some objectToCheckValue =>
      if isBuffer value && isBuffer objectToCheckValue then
        Ok (strict_equal value objectToCheckValue)
      else
        let stringValue :=
          match value with
          | BufferValue b => StringValue (utf8_decode (buf_data b))
          | _ => value
          end in
        if strictAttributeCase then Ok (strict_equal stringValue objectToCheckValue)
        else
          l ← call_toLowerCase stringValue;
          r ← call_toLowerCase objectToCheckValue;
          Ok (strict_equal l r)
  | None => Ok false
  end.

(** [EqualityFilter.matches] *)
Definition EqualityFilter_matches (attribute : string) (value : Value)
    (objectToCheck : Entry) (strictAttributeCase : bool) : Result bool :=
  EqualityFilter_compare value
    (getObjectValue objectToCheck attribute strictAttributeCase)
    strictAttributeCase.

(** The loop of [AndFilter.matches]: the first child that does not match
    decides. *)
Definition and_loop (matches : Filter -> Result bool)
  : list Filter -> Result bool :=
  fix go (filters : list Filter) : Result bool :=
    match filters with
    | [] => Ok true
    | filter :: filters =>
        m ← matches filter; if negb m then Ok false else go filters
    end.

(** The loop of [OrFilter.matches]: the first child that matches decides. *)
Definition or_loop (matches : Filter -> Result bool)
  : list Filter -> Result bool :=
  fix go (filters : list Filter) : Result bool :=
    match filters with
    | [] => Ok false
    | filter :: filters =>
        m ← matches filter; if (m : bool) then Ok true else go filters
    end.

(** [filter.matches(objectToCheck, strictAttributeCase)] *)
Fixpoint matches (f : Filter) (objectToCheck : Entry)
    (strictAttributeCase : bool) : Result bool :=
  match f with
  | AndFilter filters =>
      if bool_decide (length filters = 0%nat) then Ok true (* per RFC4526 *)
      else and_loop (fun f => matches f objectToCheck strictAttributeCase) filters
  | OrFilter filters =>
      if bool_decide (length filters = 0%nat) then Ok true (* per RFC4526 *)
      else or_loop (fun f => matches f objectToCheck strictAttributeCase) filters
  | EqualityFilter attribute value =>
      EqualityFilter_matches attribute value objectToCheck strictAttributeCase
  | NotFilter _ => Throw (OutsideSources "NotFilter")
  | PresenceFilter _ => Throw (OutsideSources "PresenceFilter")
  end.

End Matching.

End WithRuntime.

(** *** What the parser makes of an encoding *)
Section Parsed.
Context `{Runtime}.

(** What [readString] returns for an octet string with this content. *)
Definition read_back (content : list byte) : string :=
  match content with
  | [] => ""%string
  | _ => utf8_decode content
  end.

(** The filter that [FilterParser.parse] builds from the encoding of [f]:
    the attribute of an [EqualityFilter] is read back and put in lower case;
    its value is read back as a string, whether it was written from a string
    or from a Buffer, and put in lower case when the attribute is
    [objectclass]. *)
Fixpoint as_parsed (f : Filter) : Filter :=
  match f with
  | AndFilter filters => AndFilter (map as_parsed filters)
  | OrFilter filters => OrFilter (map as_parsed filters)
  | NotFilter filter => NotFilter (as_parsed filter)
  | EqualityFilter attribute value =>
      let attribute := toLowerCase (read_back (utf8_encode attribute)) in
      let value :=
        read_back match value with
                  | StringValue s => utf8_encode s
                  | BufferValue b => buf_data b
                  | NullValue => []
                  end in
      EqualityFilter attribute
        (StringValue (if bool_decide (attribute = "objectclass"%string)
                      then toLowerCase value else value))
  | PresenceFilter attribute => PresenceFilter attribute
  end.

End Parsed.

(** *** All ten variants

    [Filter.write], [EqualityFilter.parseFilter], [FilterParser.parse] and
    [FilterParser._parseSet] once more, over filters of all ten variants:
    where the definitions above stop at a class that is not among the
    sources, these call the class, which is a parameter. *)
Module Full.

(** Modelled from the spec: the filter classes [ApproximateFilter],
    [ExtensibleFilter], [GreaterThanEqualsFilter], [LessThanEqualsFilter],
    [PresenceFilter] and [SubstringFilter] (none of them is among the
    sources).  The spec gives every variant a BER tag, a BER encoder and a
    BER decoder: an object of one of these six classes is an [Outside],
    [outside_type] is its [type], [outside_writeFilter] its [writeFilter],
    and [outside_parseFilter] is [parseFilter] on a new object of the class
    that [FilterParser.parse] chose for the tag. *)
Class Classes : Type := {
  Outside : Type;
  outside_type : Outside -> Z;
  outside_writeFilter : Outside -> BerWriter -> Result BerWriter;
  outside_parseFilter : Z -> BerReader -> Result (Outside * BerReader)
}.

Section WithClasses.
Context `{Runtime} `{Classes}.

#[local] Set Warnings "-register-all".

Inductive Filter : Type :=
  | AndFilter (filters : list Filter)
  | OrFilter (filters : list Filter)
  | NotFilter (filter : Filter)
  | EqualityFilter (attribute : string) (value : Value)
  | OutsideFilter (filter : Outside).

Definition type (f : Filter) : Z :=
  match f with
  | AndFilter _ => SearchFilter.and
  | OrFilter _ => SearchFilter.or
  | NotFilter _ => SearchFilter.not
  | EqualityFilter _ _ => SearchFilter.equalityMatch
  | OutsideFilter filter => outside_type filter
  end.

(** Modelled from the spec: [Filter.write] of the base class and
    [NotFilter.writeFilter], as in [Filters.write]; the cases of
    [AndFilter], [OrFilter] and [EqualityFilter] are their [writeFilter]
    of the sources. *)
Fixpoint write (f : Filter) (writer : BerWriter) : Result BerWriter :=
  let writer := startSequence (type f) writer in
  writer ← match f with
           | AndFilter filters => for_of write filters writer
           | OrFilter filters => for_of write filters writer
           | NotFilter filter => write filter writer
           | EqualityFilter attribute value =>
               EqualityFilter_writeFilter attribute value writer
           | OutsideFilter filter => outside_writeFilter filter writer
           end;
  endSequence writer.

(** [EqualityFilter.parseFilter] *)
Definition EqualityFilter_parseFilter (reader : BerReader)
  : Result (Filter * BerReader) :=
  '(a, reader) ← readString reader;
  let attribute := toLowerCase (default ""%string a) in
  '(v, reader) ← readString reader;
  if bool_decide (attribute = "objectclass"%string) then
    match v with
    | Some s => Ok (EqualityFilter attribute (StringValue (toLowerCase s)), reader)
    | None => Throw (TypeError "Cannot read properties of null (reading 'toLowerCase')")
    end
  else
    Ok (EqualityFilter attribute
          (match v with Some s => StringValue s | None => NullValue end), reader).

(** [filter = new X(); filter.parse(reader)] for a class [X] that is not
    among the sources. *)
Definition outside_parse (type : Z) (reader : BerReader)
  : Result (Filter * BerReader) :=
  '(filter, reader) ← outside_parseFilter type reader;
  Ok (OutsideFilter filter, reader).

(** [FilterParser.parse] and the loop of [FilterParser._parseSet], with
    fuel as in [Filters.parse]. *)
Fixpoint parse (fuel : nat) (reader : BerReader)
  : option (Result (Filter * BerReader)) :=
  match fuel with
  | O => None
  | S fuel =>
      match readSequence reader with
      | Throw e => Some (Throw e)
      | Ok (None, _) => Some (Throw (InvalidSearchFilterType None))
      | Ok (Some type, reader) =>
          if type =? SearchFilter.and then
            match _parseSet_loop fuel (r_offset reader + r_len reader) reader [] with
            | Some (Ok (andFilters, reader)) => Some (Ok (AndFilter andFilters, reader))
            | Some (Throw e) => Some (Throw e)
            | None => None
            end
          else if type =? SearchFilter.approxMatch then
            Some (outside_parse type reader)
          else if type =? SearchFilter.equalityMatch then
            Some (EqualityFilter_parseFilter reader)
          else if type =? SearchFilter.extensibleMatch then
            Some (outside_parse type reader)
          else if type =? SearchFilter.greaterOrEqual then
            Some (outside_parse type reader)
          else if type =? SearchFilter.lessOrEqual then
            Some (outside_parse type reader)
          else if type =? SearchFilter.not then
            match parse fuel reader with
            | Some (Ok (innerFilter, reader)) => Some (Ok (NotFilter innerFilter, reader))
            | other => other
            end
          else if type =? SearchFilter.or then
            match _parseSet_loop fuel (r_offset reader + r_len reader) reader [] with
            | Some (Ok (orFilters, reader)) => Some (Ok (OrFilter orFilters, reader))
            | Some (Throw e) => Some (Throw e)
            | None => None
            end
          else if type =? SearchFilter.present then
            Some (outside_parse type reader)
          else if type =? SearchFilter.substrings then
            Some (outside_parse type reader)
          else Some (Throw (InvalidSearchFilterType (Some type)))
      end
  end
with _parseSet_loop (fuel : nat) (end_ : Z) (reader : BerReader)
    (filters : list Filter) : option (Result (list Filter * BerReader)) :=
  match fuel with
  | O => None
  | S fuel =>
      if r_offset reader <? end_ then
        match parse fuel reader with
        | Some (Ok (f, reader)) => _parseSet_loop fuel end_ reader (filters ++ [f])
        | Some (Throw e) => Some (Throw e)
        | None => None
        end
      else Some (Ok (filters, reader))
  end.

(** [encodeBinary]: a filter written with a fresh writer. *)
Definition encodeBinary (f : Filter) : Result (list byte) :=
  writer ← write f newWriter; mret (w_buf writer).

(** [parseBinary]: [FilterParser.parse] on a reader over the bytes. *)
Definition parseBinary (fuel : nat) (data : list byte) : option (Result Filter) :=
  match parse fuel (newReader data) with
  | Some (Ok (f, _)) => Some (Ok f)
  | Some (Throw e) => Some (Throw e)
  | None => None
  end.

(** *** What the round trip is stated with *)

(** The filter that [FilterParser.parse] builds from the encoding of [f]:
    the attribute of an [EqualityFilter] is read back and put in lower case;
    its value is read back as a string, whether it was written from a string
    or from a Buffer, and put in lower case when the attribute is
    [objectclass].  Nothing else changes. *)
Fixpoint as_parsed (f : Filter) : Filter :=
  match f with
  | AndFilter filters => AndFilter (map as_parsed filters)
  | OrFilter filters => OrFilter (map as_parsed filters)
  | NotFilter filter => NotFilter (as_parsed filter)
  | EqualityFilter attribute value =>
      let attribute := toLowerCase (read_back (utf8_encode attribute)) in
      let value :=
        read_back match value with
                  | StringValue s => utf8_encode s
                  | BufferValue b => buf_data b
                  | NullValue => []
                  end in
      EqualityFilter attribute
        (StringValue (if bool_decide (attribute = "objectclass"%string)
                      then toLowerCase value else value))
  | OutsideFilter filter => OutsideFilter filter
  end.

(** The form [FilterParser.parse] leaves a filter in: the attribute of
    every [EqualityFilter] is in lower case and its value is a string, in
    lower case too when the attribute is [objectclass], and both are strings
    that [readString] gives back from the bytes [writeString] wrote. *)
Fixpoint parsed_form (f : Filter) : Prop :=
  let all := fix all (fs : list Filter) : Prop :=
               match fs with
               | [] => True
               | f :: fs => parsed_form f /\ all fs
               end in
  match f with
  | AndFilter filters => all filters
  | OrFilter filters => all filters
  | NotFilter filter => parsed_form filter
  | EqualityFilter attribute value =>
      match value with
      | StringValue s =>
          toLowerCase attribute = attribute
          /\ utf8_stable attribute /\ utf8_stable s
          /\ (attribute = "objectclass"%string -> toLowerCase s = s)
      | _ => False
      end
  | OutsideFilter _ => True
  end.

(** Modelled from the spec: what the spec says of the six classes that are
    not among the sources.  The tag of an object is one of the six tags of
    these variants, and the decoder of its class reads back what its
    encoder wrote: [writeFilter] appends bytes to the writer, and
    [parseFilter], with the reader on these bytes as [readSequence] leaves
    it, returns the object and leaves the reader behind them. *)
Definition outside_tags : Prop :=
  forall filter : Outside,
    outside_type filter
    ∈ [SearchFilter.approxMatch; SearchFilter.extensibleMatch;
       SearchFilter.greaterOrEqual; SearchFilter.lessOrEqual;
       SearchFilter.present; SearchFilter.substrings].

Definition outside_round_trip : Prop :=
  forall (filter : Outside) (writer writer' : BerWriter),
    outside_writeFilter filter writer = Ok writer' ->
    exists content,
      writer' = put content writer
      /\ forall reader,
           holds reader (r_offset reader) content ->
           r_len reader = Z.of_nat (length content) ->
           exists len,
             outside_parseFilter (outside_type filter) reader
             = Ok (filter,
                   {| r_buf := r_buf reader;
                      r_offset := r_offset reader + Z.of_nat (length content);
                      r_len := len |}).

End WithClasses.

Arguments Filter {_}.

(** A class for examples, under the tag [present]: the object is a
    sequence of bytes; [writeFilter] appends them to the writer and
    [parseFilter] takes the [length] bytes at the reader's offset. *)
Definition example_classes : Classes :=
  {| Outside := list byte;
     outside_type := fun _ => SearchFilter.present;
     outside_writeFilter := fun filter writer => Ok (put filter writer);
     outside_parseFilter :=
       fun _ reader =>
         Ok (slice (r_buf reader) (r_offset reader) (r_offset reader + r_len reader),
             set_offset (r_offset reader + r_len reader) reader) |}.

End Full.

End Filters.

(** ** JavaScript strings

    The methods of [String.prototype] that the code calls.  A string is its
    sequence of code units; [string] holds the strings whose code units are
    below 256, and every function here keeps within them.  An index is a
    [nat]: the code forms no negative one. *)
Module JsString.

Definition units (s : string) : list ascii := list_ascii_of_string s.

Definition of_units (l : list ascii) : string := string_of_list_ascii l.

(** [s[i]]; [None] is [undefined]. *)
Definition charAt (s : string) (i : nat) : option ascii := units s !! i.

(** [s.startsWith(c)] for a string [c] of one character. *)
Definition startsWith (c : ascii) (s : string) : bool :=
  bool_decide (charAt s 0 = Some c).

(** [s.substr(start, length)] *)
Definition substr (s : string) (start length : nat) : string :=
  of_units (take length (drop start (units s))).

(** [s.substr(start)] and [s.slice(start)] for a start that is not negative. *)
Definition substr_from (s : string) (start : nat) : string :=
  of_units (drop start (units s)).

(** The first position of [c] in [l]. *)
Fixpoint index_in (c : ascii) (l : list ascii) : option nat :=
  match l with
  | [] => None
  | x :: l => if decide (x = c) then Some 0%nat else S <$> index_in c l
  end.

(** [s.indexOf(c, from)] for a string [c] of one character; [None] is -1. *)
Definition indexOf (c : ascii) (s : string) (from : nat) : option nat :=
  (fun i => (from + i)%nat) <$> index_in c (drop from (units s)).

(** [s.includes(c)] for a string [c] of one character. *)
Definition includes (c : ascii) (s : string) : bool :=
  bool_decide (c ∈ units s).

(** [s.split(c)] for a string [c] of one character: [field] is the field
    being read. *)
Fixpoint split_units (c : ascii) (l field : list ascii) : list (list ascii) :=
  match l with
  | [] => [field]
  | x :: l =>
      if decide (x = c) then field :: split_units c l []
      else split_units c l (field ++ [x])
  end.

Definition split (c : ascii) (s : string) : list string :=
  map of_units (split_units c (units s) []).

(** [fields.join(sep)] *)
Definition join (sep : string) (fields : list string) : string :=
  String.concat sep fields.

End JsString.

(** ** The filter parser on text (dist/FilterParser.js) *)
Module FilterParser.
Import JsString.

#[local] Set Warnings "-register-all".

(** The filter objects the parser builds.  A constructor stands for the
    call [new X(options)] with the options the parser gives it; the
    classes other than [AndFilter], [OrFilter] and [EqualityFilter] are not
    among the sources. *)
Inductive TextFilter : Type :=
  | new_AndFilter (filters : list TextFilter)
  | new_OrFilter (filters : list TextFilter)
  | new_NotFilter (filter : TextFilter)
  | new_PresenceFilter (attribute : string)
  | new_SubstringFilter (attribute initial : string) (any : list string)
      (final : string)
  | new_EqualityFilter (attribute value : string)
  | new_GreaterThanEqualsFilter (attribute value : string)
  | new_LessThanEqualsFilter (attribute value : string)
  | new_ApproximateFilter (attribute value : string)
  | new_ExtensibleFilter (matchType : string) (dnAttributes : bool)
      (rule : option string) (value : string).

(** [f(x)] for each [x] of an array, up to the first call that throws. *)
Fixpoint map_result {A B : Type} (f : A -> Result B) (l : list A)
  : Result (list B) :=
  match l with
  | [] => Ok []
  | x :: l => y ← f x; ys ← map_result f l; Ok (y :: ys)
  end.

(** A character of [[a-fA-F0-9]], and its value. *)
Definition is_hex (c : ascii) : bool :=
  let n := N_of_ascii c in
  ((48 <=? n) && (n <=? 57) || (97 <=? n) && (n <=? 102)
   || (65 <=? n) && (n <=? 70))%N.

Definition hex_value (c : ascii) : N :=
  let n := N_of_ascii c in
  (if n <=? 57 then n - 48 else if n <=? 70 then n - 55 else n - 87)%N.

(** [String.fromCharCode(Number.parseInt(value, 16))] for a [value] of two
    hexadecimal digits. *)
Definition fromCharCode_hex (h1 h2 : ascii) : ascii :=
  ascii_of_N (16 * hex_value h1 + hex_value h2).

(** The loop of [_unescapeHexValues] over [index], with [rest] the input
    from [index] on. *)
Fixpoint _unescapeHexValues_loop (input : string) (rest : list ascii)
    (result : string) : Result string :=
  match rest with
  | [] => Ok result
  | char :: rest =>
      if bool_decide (char = "("%char) then
        Throw (Error ("Illegal unescaped character: ( in value: " +:+ input))
      else if bool_decide (char = "\"%char) then
        let value := of_units (take 2 rest) in
        match rest with
        | h1 :: h2 :: rest =>
            if is_hex h1 && is_hex h2 then
              _unescapeHexValues_loop input rest
                (result +:+ String (fromCharCode_hex h1 h2) EmptyString)
            else
              Throw (Error ("Invalid escaped hex character: " +:+ value
                            +:+ " in value: " +:+ input))
        | _ =>
            Throw (Error ("Invalid escaped hex character: " +:+ value
                          +:+ " in value: " +:+ input))
        end
      else
        _unescapeHexValues_loop input rest (result +:+ String char EmptyString)
  end.

(** [_unescapeHexValues] *)
Definition _unescapeHexValues (input : string) : Result string :=
  _unescapeHexValues_loop input (units input) "".

(** [_unescapeSubstring]: the fields [initial], [any] and [final]. *)
Definition _unescapeSubstring (input : string)
  : Result (string * list string * string) :=
  let fields := split "*" input in
  if bool_decide (length fields < 2)%nat then
    Throw (Error ("Wildcard missing: " +:+ input))
  else
    let first := default ""%string (head fields) in   (* fields.shift() || '' *)
    let fields := tail fields in
    let last := default ""%string (last fields) in    (* fields.pop() || '' *)
    let fields := removelast fields in
    initial ← _unescapeHexValues first;
    final ← _unescapeHexValues last;
    any ← map_result _unescapeHexValues fields;
    Ok (initial, any, final).

(** A character of [[-\w]]. *)
Definition is_word (c : ascii) : bool :=
  let n := N_of_ascii c in
  ((48 <=? n) && (n <=? 57) || (97 <=? n) && (n <=? 122)
   || (65 <=? n) && (n <=? 90) || (n =? 95) || (n =? 45))%N.

(** What [/^[-\w]+/] matches at the start of [l], when it is not empty. *)
Fixpoint word_prefix (l : list ascii) : list ascii :=
  match l with
  | c :: l => if is_word c then c :: word_prefix l else []
  | [] => []
  end.

Section WithRuntime.
Context `{Runtime}.

(** [_parseExtensibleFilterFromString] *)
Definition _parseExtensibleFilterFromString (attribute filterString : string)
  : Result TextFilter :=
  let fields := split ":" filterString in
  if bool_decide (length fields <= 1)%nat then
    Throw (Error ("Invalid extensible filter: " +:+ filterString))
  else
    (* Remove first entry, since it should be empty *)
    let fields := tail fields in
    let '(dnAttributes, fields) :=
      if bool_decide (toLowerCase (default ""%string (head fields)) = "dn"%string)
      then (true, tail fields) else (false, fields) in
    let '(rule, fields) :=
      match fields with
      | field :: rest =>
          if negb (startsWith "=" field) then (Some field, rest)
          else (None, fields)
      | [] => (None, fields)
      end in
    if match fields with
       | field :: _ => negb (startsWith "=" field)
       | [] => false
       end
    then Throw (Error ("Missing := in extensible filter: " +:+ filterString))
    else
      (* Trim the leading = (from the :=) and reinsert any extra ':' characters *)
      let remainingExpression := substr_from (join ":" fields) 1 in
      value ← _unescapeHexValues remainingExpression;
      Ok (new_ExtensibleFilter attribute dnAttributes rule value).

(** [_parseExpressionFilterFromString] *)
Definition _parseExpressionFilterFromString (filterString : string)
  : Result TextFilter :=
  '(attribute, remainingExpression) ←
    (if startsWith ":" filterString then Ok (""%string, filterString)
     else
       let attribute := of_units (word_prefix (units filterString)) in
       if bool_decide (attribute = ""%string) then
         Throw (Error ("Invalid attribute name: " +:+ filterString))
       else Ok (attribute, substr_from filterString (String.length attribute)));
  if bool_decide (remainingExpression = "=*"%string) then
    Ok (new_PresenceFilter attribute)
  else if startsWith "=" remainingExpression then
    let remainingExpression := substr_from remainingExpression 1 in
    if includes "*" remainingExpression then
      '(initial, any, final) ← _unescapeSubstring remainingExpression;
      Ok (new_SubstringFilter attribute initial any final)
    else
      value ← _unescapeHexValues remainingExpression;
      Ok (new_EqualityFilter attribute value)
  else if startsWith ">" remainingExpression
          && bool_decide (charAt remainingExpression 1 = Some "="%char) then
    value ← _unescapeHexValues (substr_from remainingExpression 2);
    Ok (new_GreaterThanEqualsFilter attribute value)
  else if startsWith "<" remainingExpression
          && bool_decide (charAt remainingExpression 1 = Some "="%char) then
    value ← _unescapeHexValues (substr_from remainingExpression 2);
    Ok (new_LessThanEqualsFilter attribute value)
  else if startsWith "~" remainingExpression
          && bool_decide (charAt remainingExpression 1 = Some "="%char) then
    value ← _unescapeHexValues (substr_from remainingExpression 2);
    Ok (new_ApproximateFilter attribute value)
  else if startsWith ":" remainingExpression then
    _parseExtensibleFilterFromString attribute remainingExpression
  else Throw (Error ("Invalid expression: " +:+ filterString)).

(** What [_parseString] returns: [{ end, filter }]. *)
Record ParseResult : Type := { end_ : nat; filter : TextFilter }.

(** [_parseString], and the [do ... while] loop of its cases [&] and [|]
    as [_parseString_children].  The recursion follows the cursor, so it is
    given fuel; [None] means the fuel ran out. *)
Fixpoint _parseString (fuel : nat) (filterString : string) (start : nat)
    (fullString : string) : option (Result ParseResult) :=
  match fuel with
  | O => None
  | S fuel =>
      let cursor := start in
      if negb (bool_decide (charAt filterString cursor = Some "("%char)) then
        Some (Throw (Error ("Missing paren: " +:+ filterString
                            +:+ ". Full string: " +:+ fullString)))
      else
        let cursor := (cursor + 1)%nat in
        match charAt filterString cursor with
        | Some "&"%char =>
            match _parseString_children fuel filterString (cursor + 1)
                    fullString [] with
            | Some (Ok (children, cursor)) =>
                Some (Ok {| end_ := cursor; filter := new_AndFilter children |})
            | Some (Throw e) => Some (Throw e)
            | None => None
            end
        | Some "|"%char =>
            match _parseString_children fuel filterString (cursor + 1)
                    fullString [] with
            | Some (Ok (children, cursor)) =>
                Some (Ok {| end_ := cursor; filter := new_OrFilter children |})
            | Some (Throw e) => Some (Throw e)
            | None => None
            end
        | Some "!"%char =>
            match _parseString fuel filterString (cursor + 1) fullString with
            | Some (Ok childResult) =>
                Some (Ok {| end_ := end_ childResult + 1;
                            filter := new_NotFilter (filter childResult) |})
            | other => other
            end
        | _ =>
            match indexOf ")" filterString cursor with
            | None =>
                Some (Throw (Error ("Unbalanced parens: " +:+ filterString
                                    +:+ ". Full string: " +:+ fullString)))
            | Some end' =>
                match _parseExpressionFilterFromString
                        (substr filterString cursor (end' - cursor)) with
                | Ok filter => Some (Ok {| end_ := end'; filter := filter |})
                | Throw e => Some (Throw e)
                end
            end
        end
  end
with _parseString_children (fuel : nat) (filterString : string) (cursor : nat)
    (fullString : string) (children : list TextFilter)
  : option (Result (list TextFilter * nat)) :=
  match fuel with
  | O => None
  | S fuel =>
      match _parseString fuel filterString cursor fullString with
      | Some (Ok childResult) =>
          let children := children ++ [filter childResult] in
          let cursor := (end_ childResult + 1)%nat in
          if bool_decide (cursor < String.length filterString)%nat
             && negb (bool_decide (charAt filterString cursor = Some ")"%char))
          then _parseString_children fuel filterString cursor fullString children
          else Some (Ok (children, cursor))
      | Some (Throw e) => Some (Throw e)
      | None => None
      end
  end.

(** [parseString] *)
Definition parseString (fuel : nat) (filterString : string)
  : option (Result TextFilter) :=
  if bool_decide (filterString = ""%string) then
    Some (Throw (Error "Filter cannot be empty"))
  else
    (* Wrap input in parens if it wasn't already *)
    let filterString :=
      if negb (startsWith "(" filterString)
      then "(" +:+ filterString +:+ ")" else filterString in
    match _parseString fuel filterString 0 filterString with
    | Some (Ok parseResult) =>
        let end' := (String.length filterString - 1)%nat in
        if bool_decide (end_ parseResult < end')%nat then
          Some (Throw (Error ("Unbalanced parens in filter string: "
                              +:+ filterString)))
        else Some (Ok (filter parseResult))
    | Some (Throw e) => Some (Throw e)
    | None => None
    end.

End WithRuntime.

(** *** Filters as text, to state the properties *)

Definition hex_digit (n : N) : ascii :=
  ascii_of_N (if (n <? 10)%N then 48 + n else 87 + n).

(** The escape of a character in a value: a backslash and the two
    hexadecimal digits of its code. *)
Definition hex_escape (c : ascii) : list ascii :=
  [ "\"%char; hex_digit (N_of_ascii c / 16); hex_digit (N_of_ascii c mod 16) ].

(** The characters a value cannot hold as they are. *)
Definition must_escape (c : ascii) : bool :=
  bool_decide (c ∈ ["("; ")"; "*"; "\"]%char).

(** A value as it is written in a filter: the characters that must be
    escaped, and those that [also] chooses, are written as escapes. *)
Definition escape_value (also : ascii -> bool) (value : string) : string :=
  of_units
    (flat_map (fun c => if must_escape c || also c then hex_escape c else [c])
       (units value)).

(** The text of a filter between its parentheses, and with them. *)
Fixpoint inner (also : ascii -> bool) (f : TextFilter) : string :=
  let text f := "(" +:+ inner also f +:+ ")" in
  let value := escape_value also in
  match f with
  | new_AndFilter filters => "&" +:+ String.concat "" (map text filters)
  | new_OrFilter filters => "|" +:+ String.concat "" (map text filters)
  | new_NotFilter filter => "!" +:+ text filter
  | new_PresenceFilter attribute => attribute +:+ "=*"
  | new_SubstringFilter attribute initial any final =>
      attribute +:+ "=" +:+ value initial +:+ "*"
      +:+ String.concat "" (map (fun field => value field +:+ "*") any)
      +:+ value final
  | new_EqualityFilter attribute v => attribute +:+ "=" +:+ value v
  | new_GreaterThanEqualsFilter attribute v => attribute +:+ ">=" +:+ value v
  | new_LessThanEqualsFilter attribute v => attribute +:+ "<=" +:+ value v
  | new_ApproximateFilter attribute v => attribute +:+ "~=" +:+ value v
  | new_ExtensibleFilter matchType dnAttributes rule v =>
      matchType +:+ (if dnAttributes then ":dn" else "")
      +:+ match rule with Some rule => ":" +:+ rule | None => "" end
      +:+ ":=" +:+ value v
  end.

Definition text (also : ascii -> bool) (f : TextFilter) : string :=
  "(" +:+ inner also f +:+ ")".

(** An attribute description the parser reads as one: characters of
    [[-\w]], at least one. *)
Definition is_attribute (a : string) : Prop :=
  a <> ""%string /\ Forall (fun c => is_word c = true) (units a).

(** The filters whose text the parser reads back: [And] and [Or] have a
    child, attributes are attribute descriptions, a [Substring] has a part
    that is not empty; extensible matches are left out. *)
Fixpoint writable (f : TextFilter) : Prop :=
  let all := fix all (fs : list TextFilter) : Prop :=
               match fs with
               | [] => True
               | f :: fs => writable f /\ all fs
               end in
  match f with
  | new_AndFilter filters => filters <> [] /\ all filters
  | new_OrFilter filters => filters <> [] /\ all filters
  | new_NotFilter filter => writable filter
  | new_PresenceFilter attribute => is_attribute attribute
  | new_SubstringFilter attribute initial any final =>
      is_attribute attribute
      /\ ~ (initial = ""%string /\ any = [] /\ final = ""%string)
  | new_EqualityFilter attribute _ => is_attribute attribute
  | new_GreaterThanEqualsFilter attribute _ => is_attribute attribute
  | new_LessThanEqualsFilter attribute _ => is_attribute attribute
  | new_ApproximateFilter attribute _ => is_attribute attribute
  | new_ExtensibleFilter _ _ _ _ => False
  end.

End FilterParser.

(** ** Relative distinguished names (dist/dn/RDN.js) *)
Module RDN.

(** The own properties of the object [this.attrs], in the order they were
    created. *)
Record RDN : Type := { attrs : list (string * string) }.

(** [o[name]] for an own property. *)
Fixpoint own (o : list (string * string)) (name : string) : option string :=
  match o with
  | [] => None
  | (k, v) :: o => if decide (k = name) then Some v else own o name
  end.

Fixpoint put_own (name value : string) (o : list (string * string))
  : list (string * string) :=
  match o with
  | [] => [(name, value)]
  | (k, v) :: o =>
      if decide (k = name) then (k, value) :: o
      else (k, v) :: put_own name value o
  end.

(** [o[name] = value] for a string [value] on an object created by [{}]:
    an existing property keeps its place, a new one is added last, and the
    inherited setter [__proto__] ignores a value that is not an object. *)
Definition assign (name value : string) (o : list (string * string))
  : list (string * string) :=
  if decide (name = "__proto__"%string) then o else put_own name value o.

(** The value of a canonical decimal numeral. *)
Fixpoint digits_value (s : string) (acc : N) : option N :=
  match s with
  | EmptyString => Some acc
  | String c s =>
      let n := Ascii.N_of_ascii c in
      if ((48 <=? n) && (n <=? 57))%N
      then digits_value s (acc * 10 + (n - 48))%N
      else None
  end.

(** A property name is an array index when it is the canonical numeral of an
    integer below 2^32 - 1. *)
Definition array_index (s : string) : option N :=
  match s with
  | EmptyString => None
  | String "0"%char EmptyString => Some 0%N
  | String "0"%char _ => None
  | _ =>
      match digits_value s 0 with
      | Some n => if (n <? 4294967295)%N then Some n else None
      | None => None
      end
  end.

Definition index_le (s t : string) : Prop :=
  (default 0 (array_index s) <= default 0 (array_index t))%N.

#[export] Instance index_le_dec : RelDecision index_le.
Proof. intros s t. unfold index_le. apply _. Defined.

(** [Object.keys(o)]: array indices in ascending numeric order, then the
    other names in creation order. *)
Definition Object_keys (o : list (string * string)) : list string :=
  let names := o.*1 in
  merge_sort index_le (filter (fun s => is_Some (array_index s)) names)
  ++ filter (fun s => ¬ is_Some (array_index s)) names.

(** [keys.sort()]: ascending by code units. *)
Definition sort (keys : list string) : list string := merge_sort String.le keys.

(** [set(name, value)] *)
Definition set (name value : string) (this : RDN) : RDN :=
  {| attrs := assign name value (attrs this) |}.

(** [new RDN(attrs)] *)
Definition new (init : option (list (string * string))) : RDN :=
  match init with
  | Some o =>
      fold_left (fun this name => set name (default ""%string (own o name)) this)
        (Object_keys o) {| attrs := [] |}
  | None => {| attrs := [] |}
  end.

(** An RDN as it comes about: [new RDN()] followed by calls of [set]. *)
Definition build (sets : list (string * string)) : RDN :=
  fold_left (fun this kv => set kv.1 kv.2 this) sets (new None).

(** The loop of [equals] over [i], with [ourKeys] and [otherKeys] from
    index [i] on. *)
Fixpoint equals_loop (this other : RDN) (ourKeys otherKeys : list string)
  : bool :=
  match ourKeys with
  | [] => true
  | ours :: ourKeys =>
      match otherKeys with
      | [] => false
      | theirs :: otherKeys =>
          if negb (bool_decide (ours = theirs)) then false
          else if negb (bool_decide (own (attrs this) ours = own (attrs other) ours))
          then false
          else equals_loop this other ourKeys otherKeys
      end
  end.

(** [equals(other)] *)
Definition equals (this other : RDN) : bool :=
  let ourKeys := Object_keys (attrs this) in
  let otherKeys := Object_keys (attrs other) in
  if negb (bool_decide (length ourKeys = length otherKeys)) then false
  else equals_loop this other (sort ourKeys) (sort otherKeys).

(** *** Reading and printing *)

(** What a read [o[name]] finds on an object made by [{}]: an own property,
    a property of [Object.prototype] (a function, or the prototype object
    under [__proto__]), or nothing. *)
Inductive Lookup : Type :=
  | OwnValue (value : string)
  | Inherited (name : string)
  | Undefined.

(** The names of the properties of [Object.prototype]. *)
Definition Object_prototype_names : list string :=
  [ "constructor"; "__defineGetter__"; "__defineSetter__"; "hasOwnProperty";
    "__lookupGetter__"; "__lookupSetter__"; "isPrototypeOf";
    "propertyIsEnumerable"; "toString"; "valueOf"; "__proto__";
    "toLocaleString" ]%string.

(** [get(name)] *)
Definition get (name : string) (this : RDN) : Lookup :=
  match own (attrs this) name with
  | Some value => OwnValue value
  | None =>
      if bool_decide (name ∈ Object_prototype_names) then Inherited name
      else Undefined
  end.

(** [escaped.test(c)]: [c] is a backslash or a double quote. *)
Definition escaped (c : ascii) : bool :=
  bool_decide (c = "\"%char) || bool_decide (c = "034"%char).

(** [special.test(c)]: [c] is one of [,=+<>#;]. *)
Definition special (c : ascii) : bool :=
  bool_decide (c ∈ [","; "="; "+"; "<"; ">"; "#"; ";"]%char).

(** The loop of [_escape] over [current], with [value] from index [current]
    on. *)
Fixpoint _escape_loop (quoted : bool) (value : list ascii) (str : string)
  : string :=
  match value with
  | [] => str
  | c :: value =>
      let str := if escaped c || (negb quoted && special c)
                 then str +:+ "\" else str in
      _escape_loop quoted value (str +:+ String c EmptyString)
  end.

(** [_escape(value)] *)
Definition _escape (value : string) : string :=
  let len := String.length value in
  let quoted :=
    if bool_decide (0 < len)%nat then
      JsString.startsWith " " value
      || bool_decide (JsString.charAt value (len - 1) = Some " "%char)
    else false in
  let str := _escape_loop quoted (JsString.units value) "" in
  if quoted then String "034" EmptyString +:+ str +:+ String "034" EmptyString
  else str.

(** [toString()].  A key that [Object.keys] lists is an own property, so the
    read of its value finds one. *)
Definition toString (this : RDN) : string :=
  fold_left
    (fun str key =>
       let str := if bool_decide (String.length str = 0%nat) then str
                  else str +:+ "+" in
       str +:+ key +:+ "=" +:+ _escape (default ""%string (own (attrs this) key)))
    (Object_keys (attrs this)) ""%string.

(** A value [_escape] has nothing to do for: no character that it escapes
    and no space at either end. *)
Definition plain_value (value : string) : Prop :=
  Forall (fun c => escaped c = false /\ special c = false) (JsString.units value)
  /\ head (JsString.units value) <> Some " "%char
  /\ last (JsString.units value) <> Some " "%char.

End RDN.

(** ** Result codes *)

(** Modelled from the spec: the enum [MessageResponseStatus]
    (src/MessageResponseStatus.ts is not among the sources).  Zero is success;
    [sizeLimitExceeded] has the number RFC 4511 gives it. *)
Module MessageResponseStatus.
Definition Success : Z := 0.
Definition SizeLimitExceeded : Z := 4.
End MessageResponseStatus.

(** ** The client (src/Client.ts) *)
Module Client.
Import Filters.

Definition MAX_MESSAGE_ID : Z := 2 ^ 31 - 1.

(** A socket object: [sock_ref] is its identity ([===]), [id] the property
    [_connect] and [startTLS] attach to it. *)
Record Socket : Type := { sock_ref : nat; id : option string }.

(** The [value] of a [PagedResultsControl]: [{ size, cookie? }]. *)
Record PagedValue : Type := { page_size : Z; cookie : option Buffer }.

(** Controls, as far as the client looks at them: whether one is a
    [PagedResultsControl], and then its [value]. *)
Inductive Control : Type :=
  | OtherControl (type : string) (critical : bool)
  | PagedResultsControl (value : option PagedValue).

Definition instanceof_PagedResultsControl (c : Control) : bool :=
  match c with PagedResultsControl _ => true | OtherControl _ _ => false end.

Record SearchEntry : Type :=
  { objectName : string; entry_attributes : list (string * list Buffer) }.

Record SearchReference : Type := { uris : list string }.

(** [searchEntry.toObject(attributes, explicitBufferAttributes)]: the method
    is not among the sources, so its result is kept as the call. *)
Inductive Entry : Type :=
  | toObject (searchEntry : SearchEntry) (attributes : option (list string))
      (explicitBufferAttributes : option (list string)).

Record SearchResult : Type :=
  { searchEntries : list Entry; searchReferences : list string }.

(** The fields of a [SearchRequest].  [controls] are the caller's; the
    [PagedResultsControl] that [search] appends is kept apart, see
    [_sendSearch]. *)
Record SearchRequest : Type := {
  req_messageId : Z;
  baseDN : string;
  scope : option string;
  filter : Filter;
  attributes : option (list string);
  explicitBufferAttributes : option (list string);
  returnAttributeValues : option bool;
  sizeLimit : Z;
  timeLimit : option Z;
  controls : list Control
}.

(** Modelled from the spec: the constructor of [SearchRequest]
    (src/messages/SearchRequest.ts is not among the sources).  It keeps the
    options it is given; a size limit that is not given is 0, no limit. *)
Definition new_SearchRequest (messageId : Z) (baseDN : string)
    (scope : option string) (filter : Filter)
    (attributes explicitBufferAttributes : option (list string))
    (returnAttributeValues : option bool) (sizeLimit timeLimit : option Z)
    (controls : list Control) : SearchRequest :=
  {| req_messageId := messageId; baseDN := baseDN; scope := scope;
     filter := filter; attributes := attributes;
     explicitBufferAttributes := explicitBufferAttributes;
     returnAttributeValues := returnAttributeValues;
     sizeLimit := default 0 sizeLimit; timeLimit := timeLimit;
     controls := controls |}.

Definition with_messageId (messageId : Z) (r : SearchRequest) : SearchRequest :=
  {| req_messageId := messageId; baseDN := baseDN r; scope := scope r;
     filter := filter r; attributes := attributes r;
     explicitBufferAttributes := explicitBufferAttributes r;
     returnAttributeValues := returnAttributeValues r;
     sizeLimit := sizeLimit r; timeLimit := timeLimit r;
     controls := controls r |}.

Record SearchResponse : Type := {
  res_messageId : Z;
  status : Z;
  errorMessage : string;
  res_controls : option (list Control);
  res_searchEntries : list SearchEntry;
  res_searchReferences : list SearchReference
}.

(** Messages.  A request the claims do not look into is an [OtherRequest]
    with the name of its class, a response likewise. *)
Inductive Message : Type :=
  | UnbindRequest (messageId : Z)
  | AbandonRequest (messageId : Z)
  | SearchRequestMessage (request : SearchRequest) (sentControls : list Control)
  | OtherRequest (className : string) (messageId : Z)
  | SearchEntryMessage (messageId : Z) (entry : SearchEntry)
  | SearchReferenceMessage (messageId : Z) (reference : SearchReference)
  | SearchResponseMessage (response : SearchResponse)
  | OtherResponse (className : string) (messageId : Z) (status : Z)
      (errorMessage : string).

Definition messageId_of (m : Message) : Z :=
  match m with
  | UnbindRequest i | AbandonRequest i | OtherRequest _ i
  | SearchEntryMessage i _ | SearchReferenceMessage i _
  | OtherResponse _ i _ _ => i
  | SearchRequestMessage r _ => req_messageId r
  | SearchResponseMessage r => res_messageId r
  end.

(** [message.constructor.name] *)
Definition constructor_name (m : Message) : string :=
  match m with
  | UnbindRequest _ => "UnbindRequest"
  | AbandonRequest _ => "AbandonRequest"
  | SearchRequestMessage _ _ => "SearchRequest"
  | OtherRequest n _ => n
  | SearchEntryMessage _ _ => "SearchEntry"
  | SearchReferenceMessage _ _ => "SearchReference"
  | SearchResponseMessage _ => "SearchResponse"
  | OtherResponse n _ _ _ => n
  end.

Definition instanceof_UnbindRequest (m : Message) : bool :=
  match m with UnbindRequest _ => true | _ => false end.

(** An entry of the pending request table.  [resolve] and [reject] are those
    of the promise [_send] returned for the entry; calling them is recorded
    in [effects] under the entry's key. *)
Record MessageDetails : Type := {
  message : Message;
  md_searchEntries : option (list SearchEntry);
  md_searchReferences : option (list SearchReference);
  timeoutTimer : option Z;
  md_socket : Socket
}.

(** What the client does to the world, in order. *)
Inductive Effect : Type :=
  | Written (socket : nat) (message : Message)  (* socket.write(message.write(), ..) *)
  | Ended (socket : nat)                         (* socket.end() *)
  | Destroyed (socket : nat)                     (* socket.destroy() *)
  | Resolve (key : Z) (value : option Message)   (* messageDetails.resolve(value) *)
  | Reject (key : Z) (e : Exn).                  (* messageDetails.reject(e) *)

(** The client object.  The keys of [messageDetailsByMessageId] are
    [messageId.toString()], kept as the numbers. *)
Record Client : Type := {
  timeout : Z;                      (* clientOptions.timeout *)
  messageId : Z;
  connected : bool;
  socket : option Socket;
  messageDetailsByMessageId : gmap Z MessageDetails;
  effects : list Effect
}.

(** [new Client(options)], as far as the fields above go. *)
Definition new (timeout : option Z) : Client :=
  {| timeout := default 0 timeout; messageId := 1; connected := false;
     socket := None; messageDetailsByMessageId := ∅; effects := [] |}.

Definition set_messageId (i : Z) (c : Client) : Client :=
  {| timeout := timeout c; messageId := i; connected := connected c;
     socket := socket c;
     messageDetailsByMessageId := messageDetailsByMessageId c;
     effects := effects c |}.

Definition set_connection (b : bool) (s : option Socket) (c : Client) : Client :=
  {| timeout := timeout c; messageId := messageId c; connected := b;
     socket := s;
     messageDetailsByMessageId := messageDetailsByMessageId c;
     effects := effects c |}.

Definition set_table (t : gmap Z MessageDetails) (c : Client) : Client :=
  {| timeout := timeout c; messageId := messageId c; connected := connected c;
     socket := socket c; messageDetailsByMessageId := t;
     effects := effects c |}.

Definition log (e : Effect) (c : Client) : Client :=
  {| timeout := timeout c; messageId := messageId c; connected := connected c;
     socket := socket c;
     messageDetailsByMessageId := messageDetailsByMessageId c;
     effects := effects c ++ [e] |}.

(** How an [async] call stands when the modelled events are over.
    [Pending key]: it awaits the promise of the pending entry [key]. *)
Inductive Completion (A : Type) : Type :=
  | Resolved (a : A)
  | Rejected (e : Exn)
  | Pending (key : Z).
Arguments Resolved {A} a.
Arguments Rejected {A} e.
Arguments Pending {A} key.

(** [_nextMessageId] *)
Definition _nextMessageId (c : Client) : Z * Client :=
  let messageId := messageId c + 1 in
  let messageId := if MAX_MESSAGE_ID <=? messageId then 1 else messageId in
  (messageId, set_messageId messageId c).

(** [socket === this.socket] *)
Definition is_this_socket (s : Socket) (c : Client) : bool :=
  match socket c with
  | Some t => bool_decide (sock_ref s = sock_ref t)
  | None => false
  end.

(** [_endSocket] *)
Definition _endSocket (s : Socket) (c : Client) : Client :=
  let c := if is_this_socket s c then set_connection false (socket c) c else c in
  log (Ended (sock_ref s)) c.

(** [_send], up to its [return sendPromise]: the promise is the one of the
    entry it stores.  The encoders ([message.write()]) are not among the
    sources: the call is taken to return, and what is written is recorded
    as the message.  (Where [message.write()] throws, as for a filter that
    cannot be encoded, [_send] throws before it stores or writes
    anything; that path is not part of the embedding.) *)
Definition _send (message : Message) (c : Client) : Result Client :=
  match connected c, socket c with
  | true, Some s =>
      let details :=
        {| message := message; md_searchEntries := None;
           md_searchReferences := None;
           timeoutTimer := if timeout c =? 0 then None else Some (timeout c);
           md_socket := s |} in
      let c := set_table (<[messageId_of message := details]>
                            (messageDetailsByMessageId c)) c in
      Ok (log (Written (sock_ref s) message) c)
  | _, _ => Throw (Error "Socket connection not established")
  end.

(** The callback [_send] gives to [socket.write]. *)
Definition _send_written (message : Message) (c : Client) : Client :=
  match message with
  | AbandonRequest i =>
      log (Resolve i None)
        (set_table (delete i (messageDetailsByMessageId c)) c)
  | UnbindRequest _ =>
      match socket c with Some s => _endSocket s c | None => c end
  | _ => c
  end.

(** [_handleSendResponse]; also returns what it resolved the entry's promise
    with, if it did. *)
Definition _handleSendResponse (message : Message) (c : Client)
  : Client * option Message :=
  let key := messageId_of message in
  match messageDetailsByMessageId c !! key with
  | Some messageDetails =>
      match message with
      | SearchEntryMessage _ e =>
          let details :=
            {| message := Client.message messageDetails;
               md_searchEntries :=
                 Some (default [] (md_searchEntries messageDetails) ++ [e]);
               md_searchReferences := md_searchReferences messageDetails;
               timeoutTimer := timeoutTimer messageDetails;
               md_socket := md_socket messageDetails |} in
          (set_table (<[key := details]> (messageDetailsByMessageId c)) c, None)
      | SearchReferenceMessage _ r =>
          let details :=
            {| message := Client.message messageDetails;
               md_searchEntries := md_searchEntries messageDetails;
               md_searchReferences :=
                 Some (default [] (md_searchReferences messageDetails) ++ [r]);
               timeoutTimer := timeoutTimer messageDetails;
               md_socket := md_socket messageDetails |} in
          (set_table (<[key := details]> (messageDetailsByMessageId c)) c, None)
      | SearchResponseMessage r =>
          let message :=
            SearchResponseMessage
              {| res_messageId := res_messageId r; status := status r;
                 errorMessage := errorMessage r; res_controls := res_controls r;
                 res_searchEntries :=
                   res_searchEntries r
                   ++ default [] (md_searchEntries messageDetails);
                 res_searchReferences :=
                   res_searchReferences r
                   ++ default [] (md_searchReferences messageDetails) |} in
          (log (Resolve key (Some message))
             (set_table (delete key (messageDetailsByMessageId c)) c),
           Some message)
      | _ =>
          (log (Resolve key (Some message))
             (set_table (delete key (messageDetailsByMessageId c)) c),
           Some message)
      end
  | None => (c, None)
  end.

(** [Object.entries(this.messageDetailsByMessageId)]: the keys are array
    indices, so the entries come in ascending order of the key. *)
Definition entry_le (a b : Z * MessageDetails) : Prop := a.1 <= b.1.

#[export] Instance entry_le_dec : RelDecision entry_le.
Proof. intros a b. unfold entry_le. apply _. Defined.

Definition Object_entries (t : gmap Z MessageDetails)
  : list (Z * MessageDetails) :=
  merge_sort entry_le (map_to_list t).

(** The body of the loop of [socketClose] for one entry. *)
Definition socketClose_step (this : Socket) (c : Client)
    (entry : Z * MessageDetails) : Client :=
  let '(key, messageDetails) := entry in
  if bool_decide (id (md_socket messageDetails) = id this) then
    let c :=
      if instanceof_UnbindRequest (message messageDetails)
      then log (Resolve key None) c
      else log (Reject key
                  (Error ("Connection closed before message response was received. Message type: "
                          +:+ constructor_name (message messageDetails)))) c in
    set_table (delete key (messageDetailsByMessageId c)) c
  else c.

(** [socketClose], the handler of the socket's [close] event; [this] is the
    socket that closes.  (The message of the rejection ends with the
    operation's tag in hexadecimal, a constant of the message's class that
    is left out here.) *)
Definition socketClose (this : Socket) (c : Client) : Client :=
  let c := if is_this_socket this c then set_connection false None c else c in
  fold_left (socketClose_step this)
    (Object_entries (messageDetailsByMessageId c)) c.

(** [unbind] *)
Definition unbind (c : Client) : Completion unit * Client :=
  if negb (connected c) || negb (bool_decide (is_Some (socket c))) then
    (Resolved tt, c)
  else
    let '(messageId, c1) := _nextMessageId c in
    match _send (UnbindRequest messageId) c1 with
    | Ok c2 => (Pending messageId, c2)
    | Throw e => (Rejected e, c1)
    end.

(** *** Searching *)

(** What the server sends for one [SearchRequest]: entries and references
    in some order, then the [SearchResponse] that ends the operation. *)
Inductive PageItem : Type :=
  | EntryItem (entry : SearchEntry)
  | ReferenceItem (reference : SearchReference).

Record Page : Type := {
  items : list PageItem;
  page_status : Z;
  page_errorMessage : string;
  page_controls : option (list Control)
}.

(** The messages of a page as the message parser emits them, under the
    message id of the request they answer. *)
Definition page_messages (messageId : Z) (p : Page) : list Message :=
  map (fun i => match i with
                | EntryItem e => SearchEntryMessage messageId e
                | ReferenceItem r => SearchReferenceMessage messageId r
                end) (items p)
  ++ [SearchResponseMessage
        {| res_messageId := messageId; status := page_status p;
           errorMessage := page_errorMessage p;
           res_controls := page_controls p;
           res_searchEntries := []; res_searchReferences := [] |}].

(** [await] of the promise of entry [key] while [incoming] is handled:
    what the promise is resolved with, if it is. *)
Fixpoint await (key : Z) (incoming : list Message) (c : Client)
  : Client * option Message :=
  match incoming with
  | [] => (c, None)
  | m :: incoming =>
      let '(c, resolved) := _handleSendResponse m c in
      match resolved with
      | Some r => if messageId_of m =? key then (c, Some r)
                  else await key incoming c
      | None => await key incoming c
      end
  end.

(** The first [PagedResultsControl] among the controls of a response. *)
Fixpoint pagedResultsFromResponse (controls : list Control)
  : option (option PagedValue) :=
  match controls with
  | [] => None
  | control :: controls =>
      match control with
      | PagedResultsControl value => Some value
      | OtherControl _ _ => pagedResultsFromResponse controls
      end
  end.

(** The cookie that makes [_sendSearch] go on: the response has a
    [PagedResultsControl] with a value whose cookie is not empty. *)
Definition continuing_cookie (controls : option (list Control)) : option Buffer :=
  match pagedResultsFromResponse (default [] controls) with
  | Some (Some value) =>
      match cookie value with
      | Some b => if bool_decide (length (buf_data b) = 0%nat) then None else Some b
      | None => None
      end
  | _ => None
  end.

(** The controls a [SearchRequest] is written with: [search] appends the
    [PagedResultsControl] object to the request's controls and hands the
    same object to [_sendSearch], which changes its value between pages.
    The object is kept once, as the argument [pagedResultsControl] (its
    [value], when there is one). *)
Definition sent_controls (r : SearchRequest)
    (pagedResultsControl : option (option PagedValue)) : list Control :=
  controls r ++ match pagedResultsControl with
                | Some value => [PagedResultsControl value]
                | None => []
                end.

Definition push_entries (r : SearchRequest) (es : list SearchEntry)
    (result : SearchResult) : SearchResult :=
  {| searchEntries :=
       searchEntries result
       ++ map (fun e => toObject e (attributes r) (explicitBufferAttributes r)) es;
     searchReferences := searchReferences result |}.

Definition push_references (rs : list SearchReference) (result : SearchResult)
  : SearchResult :=
  {| searchEntries := searchEntries result;
     searchReferences := searchReferences result ++ concat (map uris rs) |}.

(** The state [_sendSearch] leaves: how the call stands, the result object
    it fills, the [PagedResultsControl] object, the client. *)
Record SearchRun : Type := {
  completion : Completion unit;
  result : SearchResult;
  pagedControl : option (option PagedValue);
  client : Client
}.

(** [_sendSearch].  [pages] is what the server answers to the requests of
    this call, one page per request; when none is left the call stays
    pending on the request it wrote last. *)
Fixpoint _sendSearch (pages : list Page) (searchRequest : SearchRequest)
    (searchResult : SearchResult) (paged : bool) (pageSize : Z)
    (pagedResultsControl : option (option PagedValue)) (c : Client)
  : SearchRun :=
  let '(messageId, c) := _nextMessageId c in
  let searchRequest := with_messageId messageId searchRequest in
  match _send (SearchRequestMessage searchRequest
                 (sent_controls searchRequest pagedResultsControl)) c with
  | Throw e =>
      {| completion := Rejected e; result := searchResult;
         pagedControl := pagedResultsControl; client := c |}
  | Ok c =>
      match pages with
      | [] =>
          {| completion := Pending messageId; result := searchResult;
             pagedControl := pagedResultsControl; client := c |}
      | page :: pages =>
          match await messageId (page_messages messageId page) c with
          | (c, Some (SearchResponseMessage result)) =>
              if negb (status result =? MessageResponseStatus.Success)
                 && negb ((status result =? MessageResponseStatus.SizeLimitExceeded)
                          && negb (sizeLimit searchRequest =? 0))
              then
                {| completion := Rejected (StatusError (status result) (errorMessage result));
                   result := searchResult;
                   pagedControl := pagedResultsControl; client := c |}
              else
                let searchResult :=
                  push_references (res_searchReferences result)
                    (push_entries searchRequest (res_searchEntries result) searchResult) in
                let finished :=
                  {| completion := Resolved tt; result := searchResult;
                     pagedControl := pagedResultsControl; client := c |} in
                if paged
                   && (negb (bool_decide (length (res_searchEntries result) = 0%nat))
                       || negb (bool_decide (length (res_searchReferences result) = 0%nat)))
                then
                  match pagedResultsControl with
                  | Some value =>
                      match continuing_cookie (res_controls result) with
                      | Some cookie =>
                          let value := default {| page_size := pageSize; cookie := None |} value in
                          let value := {| page_size := page_size value; cookie := Some cookie |} in
                          _sendSearch pages searchRequest searchResult paged pageSize
                            (Some (Some value)) c
                      | None => finished
                      end
                  | None => finished
                  end
                else finished
          | (c, _) =>
              {| completion := Pending messageId; result := searchResult;
                 pagedControl := pagedResultsControl; client := c |}
          end
      end
  end.

(** The [controls] argument of the public operations: absent, one control,
    or an array. *)
Inductive ControlsArg : Type :=
  | NoControls
  | OneControl (control : Control)
  | ControlArray (controls : list Control).

(** [options.paged]: a boolean or [{ pageSize? }]. *)
Inductive PagedOption : Type :=
  | PagedBool (b : bool)
  | PagedObject (pageSize : option Z).

(** [options.filter]: a string or a [Filter]. *)
Inductive FilterOption : Type :=
  | FilterString (s : string)
  | FilterObject (f : Filter).

Record SearchOptions : Type := {
  opt_scope : option string;
  opt_returnAttributeValues : option bool;
  opt_sizeLimit : option Z;
  opt_timeLimit : option Z;
  opt_paged : option PagedOption;
  opt_filter : option FilterOption;
  opt_attributes : option (list string);
  opt_explicitBufferAttributes : option (list string)
}.

(** How the connection attempt of [_connect] ends: the socket connects; it
    reports an error; or the connect timer fires first, finding the socket
    usable (readable and writable) or not.  An attempt that never ends is
    not among the outcomes. *)
Inductive ConnectOutcome : Type :=
  | Connects (s : Socket)
  | ConnectFails (s : Socket) (e : Exn)
  | ConnectTimesOut (s : Socket) (usable : bool).

(** [_connect] with [_onConnect]: the client afterwards, and the error the
    promise was rejected with, if it was. *)
Definition _connect (outcome : ConnectOutcome) (c : Client)
  : Client * option Exn :=
  if connected c then (c, None)
  else
    match outcome with
    | Connects s => (set_connection true (Some s) c, None)
    | ConnectFails s e => (set_connection (connected c) (Some s) c, Some e)
    | ConnectTimesOut s usable =>
        (if usable then set_connection (connected c) (Some s) c
         else log (Destroyed (sock_ref s)) (set_connection false None c),
         Some (Error "Connection timeout"))
    end.

(** JavaScript truthiness of an optional number. *)
Definition truthy (n : option Z) : bool :=
  match n with Some n => negb (n =? 0) | None => false end.

Section Search.

(** [FilterParser.parseString], the parser of RFC 4515 text: it builds
    filter classes that are not among the sources, and [search] only passes
    its result on, so it is taken as given. *)
Variable parseString : string -> Result Filter.

(** [search].  [outcome] is how a connection attempt would end and [pages]
    what the server answers. *)
Definition search (baseDN : string) (options : SearchOptions)
    (controls : ControlsArg) (outcome : ConnectOutcome) (pages : list Page)
    (c : Client) : Completion SearchResult * Client :=
  match (if connected c then (c, None) else _connect outcome c) with
  | (c, Some e) => (Rejected e, c)
  | (c, None) =>
      let controls :=
        match controls with
        | NoControls => []
        | OneControl control => [control]
        | ControlArray controls => controls
        end in
      if existsb instanceof_PagedResultsControl controls then
        (Rejected (Error "Should not specify PagedResultsControl"), c)
      else
        let pageSize :=
          match opt_paged options with
          | Some (PagedObject pageSize) =>
              if truthy pageSize then default 100 pageSize
              else if truthy (opt_sizeLimit options)
                      && (1 <? default 0 (opt_sizeLimit options))
              then default 0 (opt_sizeLimit options) - 1 else 100
          | _ =>
              if truthy (opt_sizeLimit options)
                 && (1 <? default 0 (opt_sizeLimit options))
              then default 0 (opt_sizeLimit options) - 1 else 100
          end in
        let shouldPage :=
          match opt_paged options with
          | Some (PagedBool b) => b
          | Some (PagedObject _) => true
          | None => false
          end in
        let pagedResultsControl :=
          if shouldPage
          then Some (Some {| page_size := pageSize; cookie := None |})
          else None in
        let filter :=
          match opt_filter options with
          | Some (FilterString s) =>
              if bool_decide (s = ""%string)
              then Ok (PresenceFilter "objectclass")
              else parseString s
          | Some (FilterObject f) => Ok f
          | None => Ok (PresenceFilter "objectclass")
          end in
        match filter with
        | Throw e => (Rejected e, c)
        | Ok filter =>
            let searchRequest :=
              new_SearchRequest (-1) baseDN (opt_scope options) filter
                (opt_attributes options) (opt_explicitBufferAttributes options)
                (opt_returnAttributeValues options) (opt_sizeLimit options)
                (opt_timeLimit options) controls in
            let searchResult := {| searchEntries := []; searchReferences := [] |} in
            let run := _sendSearch pages searchRequest searchResult shouldPage
                         pageSize pagedResultsControl c in
            match completion run with
            | Resolved _ => (Resolved (result run), client run)
            | Rejected e => (Rejected e, client run)
            | Pending key => (Pending key, client run)
            end
        end
  end.

End Search.

(** *** Observations used to state the properties *)

(** The messages written to sockets so far, oldest first. *)
Definition written (c : Client) : list Message :=
  omap (fun e => match e with Written _ m => Some m | _ => None end) (effects c).

(** [n] calls of [_nextMessageId] in a row: the ids returned, in order. *)
Fixpoint allocate (n : nat) (c : Client) : list Z * Client :=
  match n with
  | O => ([], c)
  | S n =>
      let '(i, c) := _nextMessageId c in
      let '(l, c) := allocate n c in
      (i :: l, c)
  end.

(** The [controls] argument holds a [PagedResultsControl]. *)
Definition has_PagedResultsControl (controls : ControlsArg) : Prop :=
  match controls with
  | NoControls => False
  | OneControl control => instanceof_PagedResultsControl control = true
  | ControlArray controls =>
      exists control, control ∈ controls
                      /\ instanceof_PagedResultsControl control = true
  end.

(** The entries and the references of a page, in the order they arrive. *)
Definition page_entries (p : Page) : list SearchEntry :=
  omap (fun i => match i with EntryItem e => Some e | ReferenceItem _ => None end)
    (items p).

Definition page_references (p : Page) : list SearchReference :=
  omap (fun i => match i with ReferenceItem r => Some r | EntryItem _ => None end)
    (items p).

(** The [SearchResponse] that answers the request [messageId] with page [p],
    with the entries and references of the page attached. *)
Definition response_of (messageId : Z) (p : Page) : SearchResponse :=
  {| res_messageId := messageId; status := page_status p;
     errorMessage := page_errorMessage p; res_controls := page_controls p;
     res_searchEntries := page_entries p;
     res_searchReferences := page_references p |}.

(** The client after it wrote [request] to socket [s] under a fresh id and
    received page [p] for it. *)
Definition answered (p : Page) (request : Message) (s : Socket) (c : Client)
  : Client :=
  {| timeout := timeout c; messageId := messageId_of request;
     connected := connected c; socket := socket c;
     messageDetailsByMessageId :=
       delete (messageId_of request) (messageDetailsByMessageId c);
     effects :=
       effects c
       ++ [Written (sock_ref s) request;
           Resolve (messageId_of request)
             (Some (SearchResponseMessage (response_of (messageId_of request) p)))] |}.

(** The status check of [_sendSearch]: the response is not turned into an
    exception. *)
Definition accepted (r : SearchRequest) (status : Z) : bool :=
  (status =? MessageResponseStatus.Success)
  || ((status =? MessageResponseStatus.SizeLimitExceeded)
      && negb (sizeLimit r =? 0)).

Definition has_items (p : Page) : bool :=
  negb (bool_decide (length (page_entries p) = 0%nat))
  || negb (bool_decide (length (page_references p) = 0%nat)).

(** Whether [_sendSearch] asks for one more page after page [p], and with
    which cookie. *)
Definition goes_on (r : SearchRequest) (paged : bool)
    (pagedResultsControl : option (option PagedValue)) (p : Page)
  : option Buffer :=
  if accepted r (page_status p) && paged && has_items p
     && bool_decide (is_Some pagedResultsControl)
  then continuing_cookie (page_controls p)
  else None.

(** The value of the request's [PagedResultsControl] for the next page. *)
Definition next_value (pageSize : Z)
    (pagedResultsControl : option (option PagedValue)) (cookie : Buffer)
  : PagedValue :=
  {| page_size :=
       page_size (default {| page_size := pageSize; cookie := None |}
                    (mjoin pagedResultsControl));
     cookie := Some cookie |}.

(** The request [_sendSearch] writes first. *)
Definition first_request (r : SearchRequest)
    (pagedResultsControl : option (option PagedValue)) (c : Client) : Message :=
  SearchRequestMessage (with_messageId (_nextMessageId c).1 r)
    (sent_controls r pagedResultsControl).

(** A connected client and a paged search, for examples. *)
Definition example_socket : Socket := {| sock_ref := 0; id := Some "4f8c" |}.

Definition example_client : Client :=
  set_connection true (Some example_socket) (new None).

Definition example_request : SearchRequest :=
  {| req_messageId := -1; baseDN := "dc=example,dc=com"; scope := None;
     filter := PresenceFilter "objectclass"; attributes := None;
     explicitBufferAttributes := None; returnAttributeValues := None;
     sizeLimit := 10; timeLimit := None; controls := [] |}.

Definition example_cookie : Buffer :=
  {| buf_ref := 7; buf_data := ["a"%byte; "b"%byte; "c"%byte] |}.

Definition example_entry : SearchEntry :=
  {| objectName := "cn=a,dc=example,dc=com"; entry_attributes := [] |}.

(** A page with one entry whose response carries a cookie. *)
Definition example_page (status : Z) : Page :=
  {| items := [EntryItem example_entry]; page_status := status;
     page_errorMessage := "";
     page_controls :=
       Some [PagedResultsControl
               (Some {| page_size := 0; cookie := Some example_cookie |})] |}.


(** A page with one entry whose response carries an empty cookie. *)
Definition last_page : Page :=
  {| items := [EntryItem example_entry];
     page_status := MessageResponseStatus.Success; page_errorMessage := "";
     page_controls :=
       Some [PagedResultsControl
               (Some {| page_size := 0;
                        cookie := Some {| buf_ref := 8; buf_data := [] |} |})] |}.

Definition example_options (paged : bool) (sizeLimit : option Z) : SearchOptions :=
  {| opt_scope := None; opt_returnAttributeValues := None;
     opt_sizeLimit := sizeLimit; opt_timeLimit := None;
     opt_paged := Some (PagedBool paged); opt_filter := None;
     opt_attributes := None; opt_explicitBufferAttributes := None |}.

(** The controls a written message went out with. *)
Definition controls_of (m : Message) : list Control :=
  match m with SearchRequestMessage _ cs => cs | _ => [] end.

(** What [socketClose] calls for one pending entry. *)
Definition settle_on_close (this : Socket) (entry : Z * MessageDetails)
  : list Effect :=
  if bool_decide (id (md_socket entry.2) = id this) then
    [if instanceof_UnbindRequest (message entry.2)
     then Resolve entry.1 None
     else Reject entry.1
            (Error ("Connection closed before message response was received. Message type: "
                    +:+ constructor_name (message entry.2)))]
  else [].

(** *** The other handlers *)

(** The body of the loop of [socketError] for one entry. *)
Definition socketError_step (err : string) (c : Client)
    (entry : Z * MessageDetails) : Client :=
  let '(key, messageDetails) := entry in
  let c :=
    if instanceof_UnbindRequest (message messageDetails)
    then log (Resolve key None) c
    else log (Reject key
                (Error ("Socket error. Message type: "
                        +:+ constructor_name (message messageDetails)
                        +:+ String "010" err))) c in
  set_table (delete key (messageDetailsByMessageId c)) c.

(** [socketError], the handler of the socket's [error] event; [err] is the
    text [err.message || err.stack || 'Unknown'].  (As in [socketClose], the
    operation's tag in hexadecimal is left out of the message.) *)
Definition socketError (err : string) (c : Client) : Client :=
  let c := fold_left (socketError_step err)
             (Object_entries (messageDetailsByMessageId c)) c in
  match socket c with
  | Some s => log (Destroyed (sock_ref s)) c
  | None => c
  end.

(** The callback of the timer that [_send] starts for a message when
    [clientOptions.timeout] is set; nothing clears the timer.  [key] is the
    id under which [_send] stored the message: it names the promise whose
    [messageReject] the callback holds.  [message] is the message object as
    it is when the timer fires: the callback reads [message.messageId] then,
    and [_sendSearch] gives the same [SearchRequest] object a new id for
    every page. *)
Definition _send_timeout (key : Z) (message : Message) (c : Client) : Client :=
  match messageDetailsByMessageId c !! messageId_of message with
  | Some messageDetails =>
      log (Reject key
             (Error (constructor_name message +:+ ": Operation timed out")))
        (_endSocket (md_socket messageDetails) c)
  | None => c
  end.

(** *** The names of [modifyDN] *)

(** [newDN.search(/[^\\],/)]: the first index at which a character other
    than a backslash is followed by a comma; [None] is -1. *)
Fixpoint search_comma (newDN : list ascii) : option nat :=
  match newDN with
  | [] => None
  | c :: rest =>
      match rest with
      | d :: _ =>
          if negb (bool_decide (c = "\"%char)) && bool_decide (d = ","%char)
          then Some 0%nat else S <$> search_comma rest
      | [] => None
      end
  end.

(** The part of [modifyDN] that finds [newRdn] and [newSuperior] in a
    [newDN] given as a string. *)
Definition modifyDN_names (newDN : string) : string * option string :=
  match search_comma (JsString.units newDN) with
  | Some parseIndex =>
      (JsString.substr newDN 0 (parseIndex + 1),
       Some (JsString.substr_from newDN (parseIndex + 2)))
  | None => (newDN, None)
  end.

(** *** More observations *)

(** What [socketError] calls for one pending entry. *)
Definition settle_on_error (err : string) (entry : Z * MessageDetails) : Effect :=
  if instanceof_UnbindRequest (message entry.2)
  then Resolve entry.1 None
  else Reject entry.1
         (Error ("Socket error. Message type: "
                 +:+ constructor_name (message entry.2) +:+ String "010" err)).

(** The client after [_send] has stored and written [message]. *)
Definition sent (message : Message) (c : Client) : Client :=
  match _send message c with
  | Ok c => c
  | Throw _ => c
  end.

(** A message that ends the request it answers: any message but a
    [SearchEntry] or a [SearchReference]. *)
Definition ends_request (m : Message) : bool :=
  match m with
  | SearchEntryMessage _ _ | SearchReferenceMessage _ _ => false
  | _ => true
  end.

(** At index [i] of [l] a character other than a backslash is followed by a
    comma. *)
Definition comma_after (l : list ascii) (i : nat) : Prop :=
  exists c, l !! i = Some c /\ c <> "\"%char /\ l !! S i = Some ","%char.

(** What a page adds to the result of a search. *)
Definition entries_of (r : SearchRequest) (p : Page) : list Entry :=
  map (fun e => toObject e (attributes r) (explicitBufferAttributes r))
    (page_entries p).

Definition references_of (p : Page) : list string :=
  concat (map uris (page_references p)).

End Client.

(** * Properties *)

Section BerFacts.
Import Ber.

Lemma byte_val_u8 z : byte_val (u8 z) = z mod 256.
Proof.
  unfold byte_val, u8.
  assert (Hl : Z.land z 255 = z mod 256) by (apply (Z.land_ones z 8); lia).
  rewrite Hl. pose proof (Z.mod_pos_bound z 256 ltac:(lia)) as Hb.
  destruct (Byte.of_N (Z.to_N (z mod 256))) as [b|] eqn:E; cbn.
  - apply Byte.to_of_N in E. rewrite E. lia.
  - apply Byte.of_N_None_iff in E. lia.
Qed.

Lemma byte_val_u8_small z : 0 <= z < 256 -> byte_val (u8 z) = z.
Proof. intros. rewrite byte_val_u8. by apply Z.mod_small. Qed.

(** A fact about every byte value, checked on all of them. *)
Lemma for_all_bytes (P : Z -> bool) :
  forallb (fun n => P (Z.of_nat n)) (seq 0 256) = true ->
  forall z, 0 <= z < 256 -> P z = true.
Proof.
  intros Hall z Hz. rewrite forallb_forall in Hall.
  specialize (Hall (Z.to_nat z)). rewrite Z2Nat.id in Hall by lia.
  apply Hall. apply in_seq. lia.
Qed.

Lemma land_128_small z : 0 <= z < 128 -> (Z.land z 128 =? 128) = false.
Proof.
  intros Hz.
  pose proof (for_all_bytes (fun z => (128 <=? z) || negb (Z.land z 128 =? 128))
                ltac:(vm_compute; reflexivity) z ltac:(lia)) as H.
  cbn beta in H. destruct (Z.leb_spec 128 z); [lia|].
  cbn in H. by apply negb_true_iff in H.
Qed.

Lemma shl8_small z : 0 <= z < 2 ^ 23 -> shl8 z = z * 256.
Proof.
  intros Hz. unfold shl8, to_int32. rewrite Z.shiftl_mul_pow2 by lia.
  change (2 ^ 8) with 256. change (2 ^ 32) with 4294967296.
  change (2 ^ 31) with 2147483648. change (2 ^ 23) with 8388608 in Hz.
  rewrite Z.mod_small by lia.
  destruct (Z.ltb_spec (z * 256) 2147483648); lia.
Qed.

Lemma holds_size r o bs : holds r o bs -> o + Z.of_nat (length bs) <= r_size r.
Proof.
  intros [Ho [rest Hr]]. unfold r_size in *.
  assert (length (drop (Z.to_nat o) (r_buf r)) = length (bs ++ rest)) as Hl by by rewrite Hr.
  rewrite length_drop, length_app in Hl. lia.
Qed.

Lemma holds_app_l r o bs1 bs2 : holds r o (bs1 ++ bs2) -> holds r o bs1.
Proof. intros [Ho [rest Hr]]. split; [done|]. exists (bs2 ++ rest). by rewrite Hr, <- app_assoc. Qed.

Lemma holds_app_r r o bs1 bs2 :
  holds r o (bs1 ++ bs2) -> holds r (o + Z.of_nat (length bs1)) bs2.
Proof.
  intros Hh. pose proof (holds_size _ _ _ Hh) as Hsz. rewrite length_app in Hsz.
  destruct Hh as [Ho [rest Hr]]. split; [lia|]. exists rest.
  replace (Z.to_nat (o + Z.of_nat (length bs1)))
    with (Z.to_nat o + length bs1)%nat by lia.
  rewrite <- drop_drop, Hr, <- app_assoc. by rewrite drop_app_length.
Qed.

Lemma holds_byte_at r o bs (k : nat) b :
  holds r o bs -> bs !! k = Some b -> byte_at r (o + Z.of_nat k) = byte_val b.
Proof.
  intros Hh Hk. pose proof (holds_size _ _ _ Hh) as Hsz.
  destruct Hh as [Ho [rest Hr]].
  pose proof (lookup_lt_Some _ _ _ Hk) as Hlt.
  unfold byte_at.
  destruct (Z.leb_spec 0 (o + Z.of_nat k)); [|lia].
  destruct (Z.ltb_spec (o + Z.of_nat k) (r_size r)); [|lia]. cbn.
  f_equal. apply nth_lookup_Some.
  replace (Z.to_nat (o + Z.of_nat k)) with (Z.to_nat o + k)%nat by lia.
  rewrite <- lookup_drop, Hr. by apply lookup_app_l_Some.
Qed.

Lemma holds_byte_at_0 r o b bs :
  holds r o (b :: bs) -> byte_at r o = byte_val b.
Proof.
  intros Hh. rewrite <- (holds_byte_at r o (b :: bs) 0 b Hh eq_refl). f_equal. lia.
Qed.

Lemma holds_byte_at' r o bs (k : nat) z b :
  holds r o bs -> bs !! k = Some b -> z = o + Z.of_nat k ->
  byte_at r z = byte_val b.
Proof. intros Hh Hk ->. by eapply holds_byte_at. Qed.

(** [readLength] reads back what [length_octets] stored. *)
Lemma readLength_octets r o len lb :
  0 <= len -> length_octets len = Ok lb -> holds r o lb ->
  readLength o r
  = Ok (Some (o + Z.of_nat (length lb),
              {| r_buf := r_buf r; r_offset := r_offset r; r_len := len |})).
Proof.
  intros Hlen Hlb Hh. pose proof (holds_size _ _ _ Hh) as Hsz.
  assert (Ho : 0 <= o) by (destruct Hh as [[? ?] _]; lia).
  unfold length_octets in Hlb. unfold readLength.
  destruct (Z.leb_spec len 127).
  { injection Hlb as <-. cbn [length] in Hsz |- *.
    destruct (Z.leb_spec (r_size r) o); [lia|].
    rewrite (holds_byte_at_0 _ _ _ _ Hh), byte_val_u8_small by lia.
    rewrite land_128_small by lia. done. }
  assert (H129 : byte_val (u8 129) = 129) by reflexivity.
  assert (H130 : byte_val (u8 130) = 130) by reflexivity.
  assert (H131 : byte_val (u8 131) = 131) by reflexivity.
  destruct (Z.leb_spec len 255).
  { injection Hlb as <-. cbn [length] in Hsz |- *.
    destruct (Z.leb_spec (r_size r) o); [lia|].
    rewrite (holds_byte_at_0 _ _ _ _ Hh), H129.
    change (Z.land 129 128 =? 128) with true. change (Z.land 129 127) with 1.
    cbn [Z.eqb Z.ltb Z.compare Pos.compare Pos.compare_cont].
    destruct (Z.ltb_spec (r_size r - (o + 1)) 1); [lia|].
    assert (read_len_bytes r (Z.to_nat 1) (o + 1) 0 = len) as ->.
    { change (Z.to_nat 1) with 1%nat. cbn [read_len_bytes].
      rewrite (holds_byte_at' r o _ 1 (o + 1) _ Hh eq_refl) by lia.
      rewrite byte_val_u8_small by lia. reflexivity. }
    do 3 f_equal. lia. }
  destruct (Z.leb_spec len 65535).
  { injection Hlb as <-. cbn [length] in Hsz |- *.
    destruct (Z.leb_spec (r_size r) o); [lia|].
    rewrite (holds_byte_at_0 _ _ _ _ Hh), H130.
    change (Z.land 130 128 =? 128) with true. change (Z.land 130 127) with 2.
    cbn [Z.eqb Z.ltb Z.compare Pos.compare Pos.compare_cont].
    destruct (Z.ltb_spec (r_size r - (o + 1)) 2); [lia|].
    assert (read_len_bytes r (Z.to_nat 2) (o + 1) 0 = len) as ->.
    { change (Z.to_nat 2) with 2%nat. cbn [read_len_bytes].
      rewrite (holds_byte_at' r o _ 1 (o + 1) _ Hh eq_refl) by lia.
      rewrite (holds_byte_at' r o _ 2 (o + 1 + 1) _ Hh eq_refl) by lia.
      rewrite !byte_val_u8, Z.shiftr_div_pow2 by lia. change (2 ^ 8) with 256.
      change (shl8 0) with 0.
      rewrite shl8_small; [|change (2 ^ 23) with 8388608];
        Z.to_euclidean_division_equations; lia. }
    do 3 f_equal. lia. }
  destruct (Z.leb_spec len 16777215); [|done].
  injection Hlb as <-. cbn [length] in Hsz |- *.
  destruct (Z.leb_spec (r_size r) o); [lia|].
  rewrite (holds_byte_at_0 _ _ _ _ Hh), H131.
  change (Z.land 131 128 =? 128) with true. change (Z.land 131 127) with 3.
  cbn [Z.eqb Z.ltb Z.compare Pos.compare Pos.compare_cont].
  destruct (Z.ltb_spec (r_size r - (o + 1)) 3); [lia|].
  assert (read_len_bytes r (Z.to_nat 3) (o + 1) 0 = len) as ->.
  { change (Z.to_nat 3) with 3%nat. cbn [read_len_bytes].
    rewrite (holds_byte_at' r o _ 1 (o + 1) _ Hh eq_refl) by lia.
    rewrite (holds_byte_at' r o _ 2 (o + 1 + 1) _ Hh eq_refl) by lia.
    rewrite (holds_byte_at' r o _ 3 (o + 1 + 1 + 1) _ Hh eq_refl) by lia.
    rewrite !byte_val_u8, !Z.shiftr_div_pow2 by lia.
    change (2 ^ 8) with 256. change (2 ^ 16) with 65536.
    change (shl8 0) with 0.
    rewrite (shl8_small (0 + _));
      [|change (2 ^ 23) with 8388608; Z.to_euclidean_division_equations; lia].
    rewrite shl8_small; [|change (2 ^ 23) with 8388608];
      Z.to_euclidean_division_equations; lia. }
  do 3 f_equal. lia.
Qed.

End BerFacts.

Section TlvFacts.
Import Ber.
Context `{Runtime}.

Lemma tlv_inv tag content bs :
  tlv tag content = Some bs ->
  exists lb, length_octets (Z.of_nat (length content)) = Ok lb
             /\ bs = [u8 tag] ++ lb ++ content /\ (1 <= length lb)%nat.
Proof.
  unfold tlv. destruct (length_octets _) as [lb|] eqn:E; [|done].
  intros [= <-]. exists lb. split; [done|]. split; [done|].
  unfold length_octets in E. repeat case_match; simplify_eq; cbn; lia.
Qed.

Lemma tlv_length tag content bs :
  tlv tag content = Some bs -> (2 + length content <= length bs)%nat.
Proof.
  intros (lb & _ & -> & Hlb)%tlv_inv. rewrite !length_app. cbn. lia.
Qed.

Lemma holds_same_buf r r' o bs : r_buf r' = r_buf r -> holds r o bs -> holds r' o bs.
Proof. unfold holds, r_size. by intros ->. Qed.

Lemma holds_content r o tag content bs :
  tlv tag content = Some bs -> holds r o bs ->
  holds r (o + Z.of_nat (length bs - length content)) content.
Proof.
  intros (lb & _ & -> & _)%tlv_inv Hh.
  rewrite app_assoc in Hh |- *. apply holds_app_r in Hh.
  rewrite length_app.
  replace (length ([u8 tag] ++ lb) + length content - length content)%nat
    with (length ([u8 tag] ++ lb)) by lia.
  eapply holds_app_l. by rewrite app_nil_r.
Qed.

(** [readSequence] on an element: its tag, and the reader at the content
    with [_len] the content's length. *)
Lemma readSequence_tlv r tag content bs :
  0 <= tag < 256 -> tlv tag content = Some bs -> holds r (r_offset r) bs ->
  readSequence r
  = Ok (Some tag,
        {| r_buf := r_buf r;
           r_offset := r_offset r + Z.of_nat (length bs - length content);
           r_len := Z.of_nat (length content) |}).
Proof.
  intros Htag (lb & Hlb & -> & Hlen)%tlv_inv Hh.
  pose proof (holds_size _ _ _ Hh) as Hsz. rewrite !length_app in Hsz. cbn in Hsz.
  unfold readSequence, peek.
  destruct (Z.ltb_spec (r_size r - r_offset r) 1); [lia|].
  rewrite (holds_byte_at_0 _ _ _ _ Hh), byte_val_u8_small by done.
  apply (holds_app_r _ _ [u8 tag]) in Hh. cbn [length] in Hh.
  change (Z.of_nat 1) with 1 in Hh.
  rewrite (readLength_octets r _ (Z.of_nat (length content)) lb);
    [| lia | done | by eapply holds_app_l].
  cbn. unfold set_offset. cbn. do 3 f_equal. rewrite !length_app. cbn. lia.
Qed.

(** [readString] on an octet string: the content decoded, and the reader
    after the element. *)
Lemma readString_tlv r content bs :
  tlv OctetString content = Some bs -> holds r (r_offset r) bs ->
  readString r
  = Ok (Some (match content with [] => ""%string | _ => utf8_decode content end),
        {| r_buf := r_buf r;
           r_offset := r_offset r + Z.of_nat (length bs);
           r_len := Z.of_nat (length content) |}).
Proof.
  intros (lb & Hlb & -> & Hlen)%tlv_inv Hh.
  pose proof (holds_size _ _ _ Hh) as Hsz. rewrite !length_app in Hsz. cbn in Hsz.
  assert (Ho : 0 <= r_offset r) by (destruct Hh as [[? ?] _]; lia).
  unfold readString, peek.
  destruct (Z.ltb_spec (r_size r - r_offset r) 1); [lia|].
  rewrite (holds_byte_at_0 _ _ _ _ Hh), byte_val_u8_small by done.
  cbn [OctetString Z.eqb Pos.eqb negb].
  pose proof (holds_app_r _ _ [u8 4] _ Hh) as Hh1. cbn [length] in Hh1.
  change (Z.of_nat 1) with 1 in Hh1.
  rewrite (readLength_octets r _ (Z.of_nat (length content)) lb);
    [| lia | done | by eapply holds_app_l].
  cbn [mbind Result_bind].
  pose proof (holds_app_r _ _ lb _ Hh1) as Hh2.
  unfold r_size at 1. cbn [r_buf r_len]. fold (r_size r).
  destruct (Z.ltb_spec (r_size r - (r_offset r + 1 + Z.of_nat (length lb)))
              (Z.of_nat (length content))); [lia|].
  unfold set_offset. cbn [r_buf r_len r_offset].
  destruct content as [| b content].
  - cbn. do 3 f_equal. rewrite !length_app. cbn. lia.
  - destruct (Z.eqb_spec (Z.of_nat (length (b :: content))) 0); [done|].
    f_equal. f_equal.
    + f_equal. f_equal. unfold slice.
      set (o := r_offset r + 1 + Z.of_nat (length lb)) in *.
      set (m := length (b :: content)) in *.
      fold (r_size r).
      destruct (Z.ltb_spec (o + Z.of_nat m) 0); [lia|].
      destruct (Z.ltb_spec o 0); [lia|].
      rewrite !Z.min_l by lia.
      destruct Hh2 as [_ [rest Hr]].
      replace (Z.to_nat (o + Z.of_nat m - o)) with m by lia.
      rewrite Hr. subst m. by rewrite take_app_length.
    + f_equal. rewrite !length_app. cbn. lia.
Qed.

End TlvFacts.

Section RoundTrip.
Import Ber Filters.
Context `{Runtime}.

(** Induction over filters, with the children of [And] and [Or]. *)
Lemma Filter_ind' (P : Filter -> Prop)
  (Hand : forall fs, Forall P fs -> P (AndFilter fs))
  (Hor : forall fs, Forall P fs -> P (OrFilter fs))
  (Hnot : forall f, P f -> P (NotFilter f))
  (Heq : forall a v, P (EqualityFilter a v))
  (Hpres : forall a, P (PresenceFilter a)) :
  forall f, P f.
Proof.
  fix IH 1. intros [fs | fs | f | a v | a].
  - apply Hand. induction fs as [| f fs IHfs]; constructor; [apply IH | exact IHfs].
  - apply Hor. induction fs as [| f fs IHfs]; constructor; [apply IH | exact IHfs].
  - apply Hnot, IH.
  - apply Heq.
  - apply Hpres.
Qed.

(** *** The writer appends the encoding *)

Lemma put_put a b w : put b (put a w) = put (a ++ b) w.
Proof. unfold put. cbn. by rewrite app_assoc. Qed.

Lemma put_nil w : put [] w = w.
Proof. destruct w. unfold put. cbn. by rewrite app_nil_r. Qed.

Lemma writeString_tlv s tag w w' :
  writeString s tag w = Ok w' ->
  exists bs, tlv tag (utf8_encode s) = Some bs /\ w' = put bs w.
Proof.
  unfold writeString, writeLength, tlv.
  destruct (length_octets _) as [lb|]; [|done]. cbn.
  intros [= <-]. eexists. split; [done|].
  unfold writeByte. rewrite !put_put. done.
Qed.

Lemma writeBuffer_tlv b tag w w' :
  writeBuffer b tag w = Ok w' ->
  buf_data b <> []
  /\ exists bs, tlv tag (buf_data b) = Some bs /\ w' = put bs w.
Proof.
  unfold writeBuffer, writeLength, tlv.
  destruct (length_octets _) as [lb|]; [|done]. cbn.
  case_bool_decide as Hb; [done|].
  intros [= <-]. split; [done|]. eexists. split; [done|].
  unfold writeByte. rewrite !put_put. done.
Qed.

(** What [startSequence] ... [endSequence] leave when [body] was written in
    between. *)
Lemma endSequence_tlv tag body w w' :
  endSequence (put body (startSequence tag w)) = Ok w' ->
  exists bs, tlv tag body = Some bs /\ w' = put bs w.
Proof.
  unfold endSequence, startSequence, writeByte, put, tlv. cbn.
  rewrite !length_app. cbn.
  replace (Z.of_nat (length (w_buf w) + 1 + 3 + length body)
           - Z.of_nat (length (w_buf w) + 1 + 3)) with (Z.of_nat (length body)) by lia.
  destruct (length_octets _) as [lb|]; [|done].
  intros [= <-]. eexists. split; [done|]. f_equal.
  assert (Hl : length (w_buf w ++ [u8 tag]) = (length (w_buf w) + 1)%nat)
    by (rewrite length_app; cbn; lia).
  rewrite <- !app_assoc.
  rewrite (app_assoc (w_buf w) [u8 tag]).
  rewrite <- Hl at 1. rewrite take_app_length.
  replace (length (w_buf w) + 1 + 3)%nat
    with (length ((w_buf w ++ [u8 tag]) ++ [u8 0; u8 0; u8 0]))
    by (rewrite !length_app; cbn; lia).
  rewrite (app_assoc _ [u8 0; u8 0; u8 0] body), drop_app_length.
  by rewrite <- !app_assoc.
Qed.

Lemma for_of_write_enc fs :
  Forall (fun f => forall w w', write f w = Ok w' ->
                     exists bs, enc f = Some bs /\ w' = put bs w) fs ->
  forall w w', for_of write fs w = Ok w' ->
    exists body, enc_all enc fs = Some body /\ w' = put body w.
Proof.
  induction 1 as [| f fs Hf _ IH]; intros w w' Hw; cbn in Hw |- *.
  - injection Hw as <-. exists []. by rewrite put_nil.
  - destruct (write f w) as [w1|] eqn:E1; [|done]. cbn in Hw.
    destruct (Hf _ _ E1) as (b & -> & ->).
    destruct (IH _ _ Hw) as (bs & -> & ->).
    eexists. split; [done|]. by rewrite put_put.
Qed.

Lemma write_enc f : forall w w',
  write f w = Ok w' -> exists bs, enc f = Some bs /\ w' = put bs w.
Proof.
  induction f as [fs IH | fs IH | f IH | a v | a] using Filter_ind';
    intros w w' Hw; cbn [write] in Hw.
  - destruct (for_of write fs (startSequence (type (AndFilter fs)) w)) as [w1|] eqn:E; [|done].
    cbn in Hw. destruct (for_of_write_enc fs IH _ _ E) as (body & Hb & ->).
    apply endSequence_tlv in Hw as (bs & Hbs & ->).
    exists bs. cbn [enc]. by rewrite Hb.
  - destruct (for_of write fs (startSequence (type (OrFilter fs)) w)) as [w1|] eqn:E; [|done].
    cbn in Hw. destruct (for_of_write_enc fs IH _ _ E) as (body & Hb & ->).
    apply endSequence_tlv in Hw as (bs & Hbs & ->).
    exists bs. cbn [enc]. by rewrite Hb.
  - destruct (write f (startSequence (type (NotFilter f)) w)) as [w1|] eqn:E; [|done].
    cbn in Hw. destruct (IH _ _ E) as (body & Hb & ->).
    apply endSequence_tlv in Hw as (bs & Hbs & ->).
    exists bs. cbn [enc]. by rewrite Hb.
  - destruct (EqualityFilter_writeFilter a v (startSequence (type (EqualityFilter a v)) w))
      as [w1|] eqn:E; [|done].
    cbn in Hw. unfold EqualityFilter_writeFilter in E.
    destruct (writeString a OctetString _) as [w2|] eqn:E2; [|done]. cbn in E.
    apply writeString_tlv in E2 as (x & Hx & ->).
    assert (exists y, match v with
                      | StringValue s => tlv OctetString (utf8_encode s)
                      | BufferValue b =>
                          if bool_decide (buf_data b = []) then None
                          else tlv OctetString (buf_data b)
                      | NullValue => None
                      end = Some y /\ w1 = put (x ++ y) (startSequence (type (EqualityFilter a v)) w))
      as (y & Hy & ->).
    { destruct v as [s | b |]; [| |done].
      - apply writeString_tlv in E as (y & Hy & ->). exists y. by rewrite put_put.
      - apply writeBuffer_tlv in E as (Hb & y & Hy & ->). exists y.
        by rewrite bool_decide_false, put_put. }
    apply endSequence_tlv in Hw as (bs & Hbs & ->).
    exists bs. cbn [enc]. by rewrite Hx, Hy.
  - done.
Qed.

(** *** The size and the tag of an encoding *)

Lemma enc_length f bs : enc f = Some bs -> (2 <= length bs)%nat.
Proof.
  destruct f; cbn [enc]; intros Hf;
    repeat case_match; try done; apply tlv_length in Hf; lia.
Qed.

Lemma type_range f : 0 <= type f < 256.
Proof. destruct f; cbn; unfold SearchFilter.and, SearchFilter.or, SearchFilter.not, SearchFilter.equalityMatch, SearchFilter.present; lia. Qed.

End RoundTrip.

Section RoundTripExamples.
Import Ber Filters.
#[local] Existing Instance ascii_runtime.

(** C1 as stated fails: [parseFilter] puts the attribute in lower case, so
    a filter on [CN] comes back as a filter on [cn]. *)
Lemma C1_counterexample :
  exists bytes,
    encodeBinary (EqualityFilter "CN" (StringValue "x")) = Ok bytes
    /\ parseBinary (length bytes) bytes
       = Some (Ok (EqualityFilter "cn" (StringValue "x")))
    /\ EqualityFilter "cn" (StringValue "x") <> EqualityFilter "CN" (StringValue "x").
Proof.
  eexists. split; [vm_compute; reflexivity|]. split; [vm_compute; reflexivity|].
  discriminate.
Qed.

(** Two more ways a filter does not come back as it was: a Buffer value is
    read as a string, and the value of [objectclass] is put in lower
    case. *)
Example buffer_value_comes_back_as_string :
  exists bytes,
    encodeBinary
      (EqualityFilter "cn" (BufferValue {| buf_ref := 1; buf_data := ["x"%byte] |}))
    = Ok bytes
    /\ parseBinary (length bytes) bytes
       = Some (Ok (EqualityFilter "cn" (StringValue "x"))).
Proof. eexists. split; [vm_compute; reflexivity | vm_compute; reflexivity]. Qed.

Example objectclass_value_is_lowered :
  exists bytes,
    encodeBinary (EqualityFilter "objectclass" (StringValue "Person")) = Ok bytes
    /\ parseBinary (length bytes) bytes
       = Some (Ok (EqualityFilter "objectclass" (StringValue "person"))).
Proof. eexists. split; [vm_compute; reflexivity | vm_compute; reflexivity]. Qed.

End RoundTripExamples.

Section MatchFacts.
Import Filters.
Context `{Runtime}.
Variable Entry : Type.
Variable getObjectValue : Entry -> string -> bool -> option Value.

(** C2: what the code does with empty child lists.  An [AndFilter] with no
    child matches every entry; an [OrFilter] with no child matches every
    entry as well, where RFC 4526, which the code cites, makes it match
    none. *)
Theorem C2_empty_and_or (objectToCheck : Entry) (strictAttributeCase : bool) :
  matches Entry getObjectValue (AndFilter []) objectToCheck strictAttributeCase
  = Ok true
  /\ matches Entry getObjectValue (OrFilter []) objectToCheck strictAttributeCase
     = Ok true.
Proof. split; reflexivity. Qed.

(** An [OrFilter] with children none of which matches does not match: only
    the empty list is treated differently. *)
Lemma or_loop_none_matches (fs : list Filter) (objectToCheck : Entry)
    (strictAttributeCase : bool) :
  fs <> [] ->
  Forall (fun f => matches Entry getObjectValue f objectToCheck strictAttributeCase
                   = Ok false) fs ->
  matches Entry getObjectValue (OrFilter fs) objectToCheck strictAttributeCase
  = Ok false.
Proof.
  intros Hne Hall. cbn [matches].
  rewrite bool_decide_false by (by destruct fs).
  clear Hne. induction Hall as [| f fs Hf _ IH]; [done|].
  cbn. rewrite Hf. cbn. exact IH.
Qed.

(** C7: when the filter's value and the entry's value are both Buffers,
    [matches] compares the two objects, not their bytes. *)
Theorem C7_buffers_compared_by_identity (attribute : string)
    (filterValue entryValue : Buffer) (objectToCheck : Entry)
    (strictAttributeCase : bool) :
  getObjectValue objectToCheck attribute strictAttributeCase
  = Some (BufferValue entryValue) ->
  matches Entry getObjectValue (EqualityFilter attribute (BufferValue filterValue))
    objectToCheck strictAttributeCase
  = Ok (bool_decide (buf_ref filterValue = buf_ref entryValue)).
Proof.
  intros Hv. cbn [matches]. unfold EqualityFilter_matches. rewrite Hv. done.
Qed.

(** The other cases of [EqualityFilter.matches]: the entry's value is a
    string. *)
Lemma EqualityFilter_matches_string (attribute : string) (value : Value)
    (s : string) (objectToCheck : Entry) (strictAttributeCase : bool) :
  value <> NullValue ->
  getObjectValue objectToCheck attribute strictAttributeCase
  = Some (StringValue s) ->
  let stringValue :=
    match value with
    | BufferValue b => utf8_decode (buf_data b)
    | StringValue t => t
    | NullValue => ""%string
    end in
  matches Entry getObjectValue (EqualityFilter attribute value)
    objectToCheck strictAttributeCase
  = Ok (if strictAttributeCase then bool_decide (stringValue = s)
        else bool_decide (toLowerCase stringValue = toLowerCase s)).
Proof.
  intros Hnn Hv stringValue. cbn [matches]. unfold EqualityFilter_matches.
  rewrite Hv. unfold EqualityFilter_compare.
  destruct value as [t | b |]; [| |done]; cbn; destruct strictAttributeCase; cbn; try done.
  all: f_equal; apply bool_decide_ext; split; congruence.
Qed.

(** The entry has no value for the attribute. *)
Lemma EqualityFilter_matches_absent (attribute : string) (value : Value)
    (objectToCheck : Entry) (strictAttributeCase : bool) :
  getObjectValue objectToCheck attribute strictAttributeCase = None ->
  matches Entry getObjectValue (EqualityFilter attribute value)
    objectToCheck strictAttributeCase
  = Ok false.
Proof.
  intros Hv. cbn [matches]. unfold EqualityFilter_matches. by rewrite Hv.
Qed.

(** A string in the filter against a Buffer in the entry: no match when
    case matters, a TypeError when it does not. *)
Lemma EqualityFilter_matches_string_against_buffer (attribute t : string)
    (entryValue : Buffer) (objectToCheck : Entry) (strictAttributeCase : bool) :
  getObjectValue objectToCheck attribute strictAttributeCase
  = Some (BufferValue entryValue) ->
  matches Entry getObjectValue (EqualityFilter attribute (StringValue t))
    objectToCheck strictAttributeCase
  = if strictAttributeCase then Ok false
    else Throw (TypeError "toLowerCase is not a function").
Proof.
  intros Hv. cbn [matches]. unfold EqualityFilter_matches. rewrite Hv.
  by destruct strictAttributeCase.
Qed.

End MatchFacts.

Section MatchExamples.
Import Filters.
#[local] Existing Instance ascii_runtime.

(** Two Buffers with the same bytes, as [Buffer.from('a')] returns them on
    two calls. *)
Lemma C7_buffers_compared_by_identity_witness :
  buf_data {| buf_ref := 1; buf_data := ["a"%byte] |}
  = buf_data {| buf_ref := 2; buf_data := ["a"%byte] |}
  /\ matches (list (string * Value))
       (fun entry key _ => snd <$> find (fun kv => bool_decide (kv.1 = key)) entry)
       (EqualityFilter "cn" (BufferValue {| buf_ref := 1; buf_data := ["a"%byte] |}))
       [("cn"%string, BufferValue {| buf_ref := 2; buf_data := ["a"%byte] |})]
       true
     = Ok false.
Proof.
  split; [reflexivity|].
  apply (C7_buffers_compared_by_identity (list (string * Value))
           (fun entry key _ => snd <$> find (fun kv => bool_decide (kv.1 = key)) entry)
           "cn" {| buf_ref := 1; buf_data := ["a"%byte] |}
           {| buf_ref := 2; buf_data := ["a"%byte] |}).
  reflexivity.
Defined.

End MatchExamples.

Section RDNFacts.
Import RDN.

Lemma own_None (o : list (string * string)) k : own o k = None <-> k ∉ o.*1.
Proof.
  induction o as [| [k' v] o IH]; cbn.
  - split; [intros _; apply not_elem_of_nil | done].
  - rewrite not_elem_of_cons. case_decide as Hk.
    + subst. split; [done | intros [? _]; done].
    + rewrite IH. split; [intros ?; split; [congruence | done] | intros [_ ?]; done].
Qed.

Lemma own_is_Some (o : list (string * string)) k : is_Some (own o k) <-> k ∈ o.*1.
Proof.
  rewrite <- not_eq_None_Some, own_None.
  destruct (decide (k ∈ o.*1)); tauto.
Qed.

Lemma put_own_keys name value o :
  (put_own name value o).*1 = if decide (name ∈ o.*1) then o.*1 else o.*1 ++ [name].
Proof.
  induction o as [| [k v] o IH]; cbn [put_own].
  - by rewrite decide_False by apply not_elem_of_nil.
  - destruct (decide (k = name)) as [-> | Hk]; cbn.
    + by rewrite decide_True by apply list_elem_of_here.
    + rewrite IH. destruct (decide (name ∈ o.*1)) as [Hin | Hin].
      * by rewrite decide_True by (by apply list_elem_of_further).
      * rewrite decide_False; [done |].
        rewrite not_elem_of_cons. split; [congruence | done].
Qed.

Lemma put_own_NoDup name value o : NoDup o.*1 -> NoDup (put_own name value o).*1.
Proof.
  intros Hnd. rewrite put_own_keys. case_decide as Hin; [done |].
  apply NoDup_app. split; [done |]. split; [| apply NoDup_singleton].
  intros x Hx Hx'. apply list_elem_of_singleton in Hx'. by subst.
Qed.

Lemma build_NoDup sets : NoDup (attrs (build sets)).*1.
Proof.
  unfold build. generalize (new None) (NoDup_nil_2 (A:=string) : NoDup (attrs (new None)).*1).
  induction sets as [| [k v] sets IH]; intros r Hr; cbn [fold_left]; [done |].
  apply IH. unfold set, assign. cbn. case_decide; [done | by apply put_own_NoDup].
Qed.

Lemma Object_keys_Permutation o : Object_keys o ≡ₚ o.*1.
Proof.
  unfold Object_keys. rewrite merge_sort_Permutation.
  apply (filter_app_complement (fun s => is_Some (array_index s))).
Qed.

Lemma sort_Permutation keys : sort keys ≡ₚ keys.
Proof. apply merge_sort_Permutation. Qed.

Lemma sort_sorted keys : StronglySorted String.le (sort keys).
Proof. apply StronglySorted_merge_sort; apply _. Qed.

(** The loop compares the two key lists position by position and the
    values under our keys. *)
Lemma equals_loop_true this other : forall ourKeys otherKeys,
  length ourKeys = length otherKeys ->
  equals_loop this other ourKeys otherKeys = true
  <-> ourKeys = otherKeys
      /\ Forall (fun k => own (attrs this) k = own (attrs other) k) ourKeys.
Proof.
  induction ourKeys as [| k ks IH]; intros [| k' ks'] Hlen; try done.
  cbn [equals_loop]. injection Hlen as Hlen. specialize (IH ks' Hlen).
  case_bool_decide as Hk; cbn [negb].
  - subst k'. case_bool_decide as Hv; cbn [negb].
    + rewrite IH, Forall_cons. split.
      * intros [-> ?]. done.
      * intros [[= ->] [_ ?]]. done.
    + split; [done |]. intros [_ Hall]. by apply Forall_cons in Hall as [? _].
  - split; [done |]. intros [? _]. congruence.
Qed.

(** What [equals] decides: the two RDNs have the same own properties, names
    and values compared as they are. *)
Lemma equals_spec (this other : RDN) :
  NoDup (attrs this).*1 -> NoDup (attrs other).*1 ->
  equals this other = true
  <-> forall name, own (attrs this) name = own (attrs other) name.
Proof.
  intros Hnd1 Hnd2. unfold equals.
  pose proof (Object_keys_Permutation (attrs this)) as Hp1.
  pose proof (Object_keys_Permutation (attrs other)) as Hp2.
  split.
  - case_bool_decide as Hlen; cbn [negb]; [| done].
    rewrite equals_loop_true
      by (by rewrite (Permutation_length (sort_Permutation _)),
                     (Permutation_length (sort_Permutation _))).
    intros [Hkeys Hall] name.
    assert (Hsame : forall k, k ∈ (attrs this).*1 <-> k ∈ (attrs other).*1).
    { intros k. rewrite <- Hp1, <- Hp2.
      rewrite <- (sort_Permutation (Object_keys (attrs this))),
              <- (sort_Permutation (Object_keys (attrs other))).
      by rewrite Hkeys. }
    destruct (decide (name ∈ (attrs this).*1)) as [Hin | Hin].
    + rewrite Forall_forall in Hall. apply Hall.
      by rewrite sort_Permutation, Hp1.
    + assert (name ∉ (attrs other).*1) as Hin' by (by rewrite <- Hsame).
      apply own_None in Hin, Hin'. congruence.
  - intros Hown.
    assert (Hsame : forall k, k ∈ (attrs this).*1 <-> k ∈ (attrs other).*1).
    { intros k. by rewrite <- !own_is_Some, Hown. }
    assert (Hperm : (attrs this).*1 ≡ₚ (attrs other).*1)
      by (by apply NoDup_Permutation).
    rewrite bool_decide_true by (by rewrite Hp1, Hp2, Hperm).
    cbn [negb]. apply equals_loop_true.
    + by rewrite (Permutation_length (sort_Permutation _)),
                 (Permutation_length (sort_Permutation _)), Hp1, Hp2, Hperm.
    + split.
      * apply (StronglySorted_unique String.le); [apply sort_sorted.. |].
        by rewrite !sort_Permutation, Hp1, Hp2.
      * apply Forall_forall. auto.
Qed.

(** Every RDN is one that [build] makes: [new RDN(attrs)] sets the
    properties of [attrs] one by one, and [set] adds one more. *)
Lemma set_build name value sets :
  set name value (build sets) = build (sets ++ [(name, value)]).
Proof. unfold build. by rewrite fold_left_app. Qed.

Lemma new_build o :
  new (Some o)
  = build (map (fun name => (name, default ""%string (own o name))) (Object_keys o)).
Proof.
  unfold new, build. cbn [new]. generalize {| attrs := [] |}.
  induction (Object_keys o) as [| k ks IH]; intros r; [done |].
  cbn [fold_left map]. apply IH.
Qed.

(** C8 (as amended): [equals] returns true exactly when the two RDNs hold
    the same name-value pairs, whatever the order the names were set in;
    names and values are both compared as they are, with their case. *)
Theorem C8_equals_same_pairs (ours theirs : list (string * string)) :
  equals (build ours) (build theirs) = true
  <-> forall name,
        own (attrs (build ours)) name = own (attrs (build theirs)) name.
Proof. apply equals_spec; apply build_NoDup. Qed.

(** Setting the same pairs in another order gives an equal RDN. *)
Example equals_ignores_order :
  equals (build [("cn", "Jim"); ("ou", "People")]%string)
         (build [("ou", "People"); ("cn", "Jim")]%string) = true.
Proof. vm_compute. reflexivity. Qed.

(** C8 as stated fails: two names that differ only in their case are
    different names for [equals]. *)
Lemma C8_counterexample :
  ascii_toLowerCase "CN" = ascii_toLowerCase "cn"
  /\ equals (build [("CN", "Jim")]%string) (build [("cn", "Jim")]%string) = false.
Proof. split; vm_compute; reflexivity. Qed.

End RDNFacts.

Section MessageIds.
Import Client.

Lemma MAX_MESSAGE_ID_eq : MAX_MESSAGE_ID = 2147483647.
Proof. reflexivity. Qed.

Lemma nextMessageId_spec c :
  1 <= messageId c < MAX_MESSAGE_ID ->
  (_nextMessageId c).1 = messageId c mod (MAX_MESSAGE_ID - 1) + 1
  /\ messageId (_nextMessageId c).2 = (_nextMessageId c).1
  /\ 1 <= (_nextMessageId c).1 < MAX_MESSAGE_ID.
Proof.
  rewrite MAX_MESSAGE_ID_eq. intros Hc. unfold _nextMessageId. cbn.
  rewrite MAX_MESSAGE_ID_eq.
  destruct (Z.leb_spec 2147483647 (messageId c + 1)) as [Hw | Hw]; cbn.
  - assert (messageId c = 2147483646) as -> by lia. repeat split; first [lia | reflexivity].
  - rewrite Z.mod_small by lia. lia.
Qed.

Lemma allocate_lookup n : forall c k,
  1 <= messageId c < MAX_MESSAGE_ID -> (k < n)%nat ->
  (allocate n c).1 !! k
  = Some ((messageId c + Z.of_nat k) mod (MAX_MESSAGE_ID - 1) + 1).
Proof.
  induction n as [| n IH]; intros c k Hc Hk; [lia |].
  cbn [allocate].
  destruct (nextMessageId_spec c Hc) as (H1 & H2 & H3).
  destruct (_nextMessageId c) as [i c1] eqn:E. cbn in H1, H2, H3.
  specialize (IH c1).
  destruct (allocate n c1) as [l c2] eqn:E2. cbn in IH |- *.
  destruct k as [| k]; cbn.
  - rewrite Z.add_0_r. congruence.
  - rewrite IH by lia. f_equal. rewrite H2, H1.
    rewrite MAX_MESSAGE_ID_eq in *.
    replace (messageId c + Z.of_nat (S k)) with (messageId c + 1 + Z.of_nat k) by lia.
    f_equal.
    rewrite <- (Z.add_mod_idemp_l (messageId c mod 2147483646 + 1)) by lia.
    rewrite <- (Z.add_mod_idemp_l (messageId c + 1)) by lia.
    f_equal. f_equal.
    rewrite Z.add_mod_idemp_l by lia. reflexivity.
Qed.

Lemma allocate_length n : forall c, length (allocate n c).1 = n.
Proof.
  induction n as [| n IH]; intros c; [done |].
  cbn [allocate]. destruct (_nextMessageId c) as [i c1].
  specialize (IH c1). destruct (allocate n c1) as [l c2]. cbn in *. by f_equal.
Qed.

(** C5: message ids come from a counter that is incremented before use.
    The first id of a new client is 2.  The ids returned by any run of
    allocations are strictly increasing, hence pairwise distinct, as long as
    the counter stays below the wrap point [2^31 - 1]; the allocation that
    would reach the wrap point returns 1 and leaves the counter at 1, and
    even across it the first [2^31 - 2] ids are pairwise distinct. *)
Theorem C5_message_ids (timeout : option Z) (n : nat) :
  let ids := (allocate n (Client.new timeout)).1 in
  (_nextMessageId (Client.new timeout)).1 = 2
  /\ (forall i j a b, ids !! i = Some a -> ids !! j = Some b -> (i < j)%nat ->
        Z.of_nat j < MAX_MESSAGE_ID - 2 -> a < b)
  /\ (forall i j a b, ids !! i = Some a -> ids !! j = Some b -> (i < j)%nat ->
        Z.of_nat j < MAX_MESSAGE_ID - 1 -> a <> b)
  /\ (forall j a, ids !! j = Some a -> Z.of_nat j = MAX_MESSAGE_ID - 2 -> a = 1)
  /\ (forall c, MAX_MESSAGE_ID <= messageId c + 1 ->
        (_nextMessageId c).1 = 1 /\ messageId (_nextMessageId c).2 = 1).
Proof.
  intros ids.
  assert (Hlen : forall j a, ids !! j = Some a ->
                   a = (1 + Z.of_nat j) mod (MAX_MESSAGE_ID - 1) + 1).
  { intros j a Hj.
    assert (j < n)%nat as Hjn.
    { apply lookup_lt_Some in Hj. unfold ids in Hj.
      by rewrite allocate_length in Hj. }
    unfold ids in Hj.
    rewrite (allocate_lookup n (Client.new timeout) j) in Hj; [|cbn; rewrite MAX_MESSAGE_ID_eq; lia|done].
    cbn [messageId Client.new] in Hj. congruence. }
  rewrite MAX_MESSAGE_ID_eq in *.
  split; [reflexivity|].
  split; [|split; [|split]].
  - intros i j a b Hi Hj Hij Hb.
    apply Hlen in Hi, Hj. subst a b.
    rewrite !Z.mod_small by lia. lia.
  - intros i j a b Hi Hj Hij Hb.
    apply Hlen in Hi, Hj. subst a b.
    destruct (decide (Z.of_nat j = 2147483645)) as [Hw|Hw].
    + rewrite Hw. rewrite (Z.mod_small (1 + Z.of_nat i)) by lia.
      change ((1 + 2147483645) mod (2147483647 - 1)) with 0. lia.
    + rewrite !Z.mod_small by lia. lia.
  - intros j a Hj Hw. apply Hlen in Hj. subst a. rewrite Hw. reflexivity.
  - intros c Hc. unfold _nextMessageId. cbn. rewrite MAX_MESSAGE_ID_eq.
    destruct (Z.leb_spec 2147483647 (messageId c + 1)); [done | lia].
Qed.

End MessageIds.

Section UnbindFacts.
Import Client.

(** C10: [unbind] on a client that is not connected, or has no socket,
    resolves at once and leaves the client as it was: the [connected] flag,
    the message id counter, the pending request table, and nothing is
    written. *)
Theorem C10_unbind_not_connected (c : Client) :
  connected c = false \/ socket c = None ->
  unbind c = (Resolved tt, c).
Proof.
  intros [H | H]; unfold unbind; rewrite H; [done|].
  by rewrite orb_true_r.
Qed.

Lemma C10_unbind_not_connected_witness :
  (connected (Client.new None) = false \/ socket (Client.new None) = None)
  /\ unbind (Client.new None) = (Resolved tt, Client.new None).
Proof.
  split; [left; reflexivity|].
  apply (C10_unbind_not_connected (Client.new None)). left; reflexivity.
Defined.

End UnbindFacts.

Section ClientFacts.
Import Client.

Lemma written_log e c :
  written (log e c)
  = written c ++ match e with Written _ m => [m] | _ => [] end.
Proof.
  unfold written, log. cbn. rewrite omap_app. f_equal. by destruct e.
Qed.

Lemma existsb_instanceof (l : list Control) :
  (exists control, control ∈ l /\ instanceof_PagedResultsControl control = true) ->
  existsb instanceof_PagedResultsControl l = true.
Proof.
  intros (x & Hx & Hp). apply existsb_exists. exists x. split; [|done].
  by apply list_elem_of_In.
Qed.

(** C9: a call of [search] whose [controls] hold a [PagedResultsControl]
    is rejected before any request is made: the message id counter, the
    pending request table and what has been written to sockets are as
    before.  With a connection at hand (the client is connected, or the
    connection attempt succeeds) the error is the one [search] throws for
    the control; otherwise it is the error of the connection attempt. *)
Theorem C9_search_rejects_paged_control
    (parseString : string -> Result Filters.Filter) (baseDN : string)
    (options : SearchOptions) (controls : ControlsArg)
    (outcome : ConnectOutcome) (pages : list Page) (c : Client) :
  has_PagedResultsControl controls ->
  exists e c',
    search parseString baseDN options controls outcome pages c = (Rejected e, c')
    /\ messageId c' = messageId c
    /\ messageDetailsByMessageId c' = messageDetailsByMessageId c
    /\ written c' = written c
    /\ (connected c = true \/ (exists s, outcome = Connects s) ->
        e = Error "Should not specify PagedResultsControl").
Proof.
  intros Hp.
  assert (Hex : existsb instanceof_PagedResultsControl
                  match controls with
                  | NoControls => []
                  | OneControl control => [control]
                  | ControlArray controls => controls
                  end = true).
  { destruct controls as [| x | l]; cbn in Hp |- *.
    - done.
    - by rewrite Hp.
    - by apply existsb_instanceof. }
  unfold search, _connect.
  destruct (connected c) eqn:Hc.
  - rewrite Hex. eauto 10.
  - destruct outcome as [s | s e | s [|]]; cbn -[existsb]; rewrite ?Hex;
      (eexists _, _; split; [done|]; repeat split; try done;
       try (intros [? | [s' ?]]; congruence)).
  by rewrite written_log, app_nil_r.
Qed.

Lemma C9_search_rejects_paged_control_witness :
  exists e c',
    search (fun _ => Throw (Error "unused")) "dc=example"
      {| opt_scope := None; opt_returnAttributeValues := None;
         opt_sizeLimit := None; opt_timeLimit := None;
         opt_paged := Some (PagedBool true); opt_filter := None;
         opt_attributes := None; opt_explicitBufferAttributes := None |}
      (ControlArray [OtherControl "1.2.3" false; PagedResultsControl None])
      (Connects {| sock_ref := 0; id := Some "a" |}) [] (Client.new None)
    = (Rejected e, c')
    /\ messageId c' = messageId (Client.new None)
    /\ messageDetailsByMessageId c' = messageDetailsByMessageId (Client.new None)
    /\ written c' = written (Client.new None)
    /\ (connected (Client.new None) = true
        \/ (exists s, Connects {| sock_ref := 0; id := Some "a" |} = Connects s) ->
        e = Error "Should not specify PagedResultsControl").
Proof.
  apply C9_search_rejects_paged_control.
  cbn. exists (PagedResultsControl None). split; [|reflexivity].
  apply list_elem_of_In. right. left. reflexivity.
Defined.

(** *** The [close] handler *)

Lemma socketClose_step_table this c entry :
  messageDetailsByMessageId (socketClose_step this c entry)
  = if bool_decide (id (md_socket entry.2) = id this)
    then delete entry.1 (messageDetailsByMessageId c)
    else messageDetailsByMessageId c.
Proof.
  destruct entry as [k md]. unfold socketClose_step. cbn.
  case_bool_decide; [|done].
  by destruct (instanceof_UnbindRequest (message md)).
Qed.

Lemma socketClose_step_effects this c entry :
  effects (socketClose_step this c entry)
  = effects c ++ settle_on_close this entry.
Proof.
  destruct entry as [k md]. unfold socketClose_step, settle_on_close. cbn.
  case_bool_decide; [|by rewrite app_nil_r].
  by destruct (instanceof_UnbindRequest (message md)).
Qed.

Lemma socketClose_loop_removes this entries : forall c key md,
  (key, md) ∈ entries -> id (md_socket md) = id this ->
  messageDetailsByMessageId (fold_left (socketClose_step this) entries c) !! key
  = None.
Proof.
  induction entries as [| e entries IH]; intros c key md Hin Hid.
  - by apply elem_of_nil in Hin.
  - cbn [fold_left]. apply elem_of_cons in Hin as [Heq | Hin].
    + subst e. clear IH.
      assert (messageDetailsByMessageId (socketClose_step this c (key, md)) !! key = None) as H0.
      { rewrite socketClose_step_table. cbn. rewrite bool_decide_true by done.
        apply lookup_delete_eq. }
      revert H0. generalize (socketClose_step this c (key, md)).
      induction entries as [| e entries IH]; intros c' H0; [done|].
      cbn [fold_left]. apply IH. rewrite socketClose_step_table.
      case_bool_decide; [|done].
      destruct (decide (e.1 = key)) as [->|]; [apply lookup_delete_eq|].
      by rewrite lookup_delete_ne.
    + by eapply IH.
Qed.

Lemma socketClose_loop_keeps this entries : forall c key,
  (forall md, (key, md) ∈ entries -> id (md_socket md) <> id this) ->
  messageDetailsByMessageId (fold_left (socketClose_step this) entries c) !! key
  = messageDetailsByMessageId c !! key.
Proof.
  induction entries as [| e entries IH]; intros c key Hall; [done|].
  cbn [fold_left]. rewrite IH.
  - rewrite socketClose_step_table. case_bool_decide as Hid; [|done].
    destruct e as [k md]. cbn in *.
    destruct (decide (k = key)) as [->|]; [|by rewrite lookup_delete_ne].
    exfalso. eapply Hall; [|done]. by left.
  - intros md Hin. apply Hall. by right.
Qed.

Lemma socketClose_loop_effects this entries : forall c,
  effects (fold_left (socketClose_step this) entries c)
  = effects c ++ concat (map (settle_on_close this) entries).
Proof.
  induction entries as [| e entries IH]; intros c; cbn [fold_left map concat].
  - by rewrite app_nil_r.
  - by rewrite IH, socketClose_step_effects, app_assoc.
Qed.

Lemma elem_of_concat_map {A B : Type} (f : A -> list B) (l : list A) a b :
  a ∈ l -> b ∈ f a -> b ∈ concat (map f l).
Proof.
  induction l as [| x l IH]; intros Ha Hb.
  - by apply elem_of_nil in Ha.
  - cbn. apply elem_of_app. apply elem_of_cons in Ha as [<- | Ha]; auto.
Qed.

Lemma elem_of_Object_entries (t : gmap Z MessageDetails) key md :
  (key, md) ∈ Object_entries t <-> t !! key = Some md.
Proof.
  unfold Object_entries. rewrite merge_sort_Permutation.
  apply elem_of_map_to_list.
Qed.

(** C6: when the [close] event of a socket fires, the handler calls
    [resolve] for every pending entry of that socket's id that holds an
    [UnbindRequest] and [reject] for every other one, and removes them;
    afterwards no entry of the table has the id of the closed socket, and
    the entries of other sockets are untouched. *)
Theorem C6_socket_close (this : Socket) (c : Client) :
  let c' := socketClose this c in
  effects c'
  = effects c
    ++ concat (map (settle_on_close this)
                 (Object_entries (messageDetailsByMessageId c)))
  /\ (forall key md,
        messageDetailsByMessageId c !! key = Some md ->
        id (md_socket md) = id this ->
        messageDetailsByMessageId c' !! key = None
        /\ (if instanceof_UnbindRequest (message md)
            then Resolve key None
            else Reject key
                   (Error ("Connection closed before message response was received. Message type: "
                           +:+ constructor_name (message md))))
           ∈ drop (length (effects c)) (effects c'))
  /\ (forall key md,
        messageDetailsByMessageId c' !! key = Some md ->
        id (md_socket md) <> id this
        /\ messageDetailsByMessageId c !! key = Some md).
Proof.
  intros c'. subst c'. unfold socketClose.
  set (c0 := if is_this_socket this c then set_connection false None c else c).
  assert (Ht : messageDetailsByMessageId c0 = messageDetailsByMessageId c)
    by (subst c0; by destruct (is_this_socket this c)).
  assert (He : effects c0 = effects c)
    by (subst c0; by destruct (is_this_socket this c)).
  rewrite Ht.
  assert (Heff := socketClose_loop_effects this
                    (Object_entries (messageDetailsByMessageId c)) c0).
  rewrite He in Heff.
  split; [done|]. split.
  - intros key md Hk Hid. split.
    + eapply socketClose_loop_removes; [|done]. by apply elem_of_Object_entries.
    + rewrite Heff, drop_app_length.
      apply (elem_of_concat_map _ _ (key, md)).
      * by apply elem_of_Object_entries.
      * unfold settle_on_close. cbn. rewrite bool_decide_true by done.
        apply list_elem_of_singleton. done.
  - intros key md Hk.
    destruct (messageDetailsByMessageId c !! key) as [md0|] eqn:Hk0.
    + destruct (decide (id (md_socket md0) = id this)) as [Hid|Hid].
      * rewrite (socketClose_loop_removes this _ c0 key md0) in Hk; [done| |done].
        by apply elem_of_Object_entries.
      * rewrite socketClose_loop_keeps, Ht, Hk0 in Hk.
        -- by simplify_eq.
        -- intros md' Hin. apply elem_of_Object_entries in Hin.
           rewrite Hk0 in Hin. by simplify_eq.
    + rewrite socketClose_loop_keeps, Ht, Hk0 in Hk; [done|].
      intros md' Hin. apply elem_of_Object_entries in Hin.
      rewrite Hk0 in Hin. done.
Qed.

End ClientFacts.

Section SearchFacts.
Import Client.

(** Handling the messages of a page resolves the promise of the request with
    the page's [SearchResponse], entries and references attached. *)
Lemma await_items key (p : Page) its : forall c md,
  messageDetailsByMessageId c !! key = Some md ->
  await key
    (map (fun i => match i with
                   | EntryItem e => SearchEntryMessage key e
                   | ReferenceItem r => SearchReferenceMessage key r
                   end) its
     ++ [SearchResponseMessage
           {| res_messageId := key; status := page_status p;
              errorMessage := page_errorMessage p;
              res_controls := page_controls p;
              res_searchEntries := []; res_searchReferences := [] |}]) c
  = let r := {| res_messageId := key; status := page_status p;
                errorMessage := page_errorMessage p;
                res_controls := page_controls p;
                res_searchEntries :=
                  default [] (md_searchEntries md)
                  ++ omap (fun i => match i with EntryItem e => Some e | _ => None end) its;
                res_searchReferences :=
                  default [] (md_searchReferences md)
                  ++ omap (fun i => match i with ReferenceItem r => Some r | _ => None end) its |} in
    (log (Resolve key (Some (SearchResponseMessage r)))
       (set_table (delete key (messageDetailsByMessageId c)) c),
     Some (SearchResponseMessage r)).
Proof.
  induction its as [| i its IH]; intros c md Hmd.
  - cbn [map app await]. unfold _handleSendResponse.
    cbn [messageId_of res_messageId]. rewrite Hmd.
    cbn [messageId_of res_messageId omap].
    rewrite Z.eqb_refl, !app_nil_r. done.
  - destruct i as [e | r]; cbn [map app await]; unfold _handleSendResponse at 1;
      cbn [messageId_of]; rewrite Hmd; cbn [omap].
    + erewrite IH; [|cbn; apply lookup_insert_eq]. cbn.
      unfold set_table, log. cbn. rewrite delete_insert_eq.
      by rewrite <- !app_assoc.
    + erewrite IH; [|cbn; apply lookup_insert_eq]. cbn.
      unfold set_table, log. cbn. rewrite delete_insert_eq.
      by rewrite <- !app_assoc.
Qed.

Lemma send_then_await (p : Page) (request : Message) s c c1 :
  connected c = true -> socket c = Some s ->
  messageId c = messageId_of request ->
  _send request c = Ok c1 ->
  await (messageId_of request) (page_messages (messageId_of request) p) c1
  = (answered p request s c,
     Some (SearchResponseMessage (response_of (messageId_of request) p))).
Proof.
  intros Hc Hs Hi. unfold _send. rewrite Hc, Hs. intros [= <-].
  unfold page_messages. erewrite await_items; [|cbn; apply lookup_insert_eq].
  cbn. unfold response_of, page_entries, page_references, answered, log, set_table.
  cbn. rewrite delete_insert_eq, Hc, Hs, Hi, <- app_assoc. done.
Qed.

(** One turn of [_sendSearch]. *)
Lemma _sendSearch_step pages (p : Page) r acc paged pageSize ctrl s c :
  connected c = true -> socket c = Some s ->
  let request := first_request r ctrl c in
  let c1 := answered p request s c in
  let acc' := push_references (page_references p)
                (push_entries r (page_entries p) acc) in
  _sendSearch (p :: pages) r acc paged pageSize ctrl c
  = if negb (accepted r (page_status p)) then
      {| completion := Rejected (StatusError (page_status p) (page_errorMessage p));
         result := acc; pagedControl := ctrl; client := c1 |}
    else
      match goes_on r paged ctrl p with
      | Some cookie =>
          _sendSearch pages (with_messageId (_nextMessageId c).1 r) acc' paged
            pageSize (Some (Some (next_value pageSize ctrl cookie))) c1
      | None =>
          {| completion := Resolved tt; result := acc';
             pagedControl := ctrl; client := c1 |}
      end.
Proof.
  intros Hc Hs request c1 acc'.
  cbn [_sendSearch].
  destruct (_nextMessageId c) as [i c0] eqn:Hn.
  assert (Hc0 : connected c0 = true /\ socket c0 = Some s /\ c0 = set_messageId i c).
  { unfold _nextMessageId in Hn. injection Hn as <- <-. done. }
  destruct Hc0 as (Hc0 & Hs0 & ->).
  assert (Hreq : request = SearchRequestMessage (with_messageId i r)
                             (sent_controls (with_messageId i r) ctrl)).
  { subst request. unfold first_request. by rewrite Hn. }
  rewrite <- Hreq.
  destruct (_send request (set_messageId i c)) as [c2 | e] eqn:Hsend;
    [| unfold _send in Hsend; by rewrite Hc0, Hs0 in Hsend].
  assert (Hid : messageId_of request = i) by (by rewrite Hreq).
  assert (Hc1 : answered p request s (set_messageId i c) = c1).
  { subst c1. unfold answered, set_messageId. done. }
  pose proof (send_then_await p request s _ _ Hc0 Hs0 (eq_sym Hid) Hsend) as Haw.
  rewrite Hid, Hc1 in Haw. rewrite Haw. clear Haw.
  cbn [response_of status errorMessage res_searchEntries res_searchReferences res_controls].
  unfold accepted, goes_on, accepted, has_items.
  change (sizeLimit (with_messageId i r)) with (sizeLimit r).
  destruct (page_status p =? MessageResponseStatus.Success) eqn:E1;
    destruct (page_status p =? MessageResponseStatus.SizeLimitExceeded) eqn:E2;
    destruct (sizeLimit r =? 0) eqn:E3; cbn [negb andb orb]; try done.
  all: destruct paged; cbn [negb andb orb]; try done.
  all: destruct (negb (bool_decide (length (page_entries p) = 0%nat))
                 || negb (bool_decide (length (page_references p) = 0%nat))) eqn:E4;
       cbn [negb andb orb]; try done.
  all: destruct ctrl as [value|]; cbn; try done.
  all: destruct (continuing_cookie (page_controls p)) as [cookie|]; try done.
Qed.

Lemma written_answered p request s c :
  written (answered p request s c) = written c ++ [request].
Proof. unfold written, answered. cbn. by rewrite omap_app. Qed.


(** A connected client writes the request before anything else happens. *)
Lemma _sendSearch_written pages : forall r acc paged pageSize ctrl s c,
  connected c = true -> socket c = Some s ->
  exists more,
    written (client (_sendSearch pages r acc paged pageSize ctrl c))
    = written c ++ first_request r ctrl c :: more.
Proof.
  induction pages as [| p pages IH]; intros r acc paged pageSize ctrl s c Hc Hs.
  - exists []. cbn [_sendSearch]. unfold first_request.
    destruct (_nextMessageId c) as [i c0] eqn:Hn.
    assert (c0 = set_messageId i c) as -> by (unfold _nextMessageId in Hn; by simplify_eq).
    unfold _send. cbn [connected socket set_messageId]. rewrite Hc, Hs.
    cbn -[log written]. rewrite written_log. done.
  - rewrite (_sendSearch_step pages p r acc paged pageSize ctrl s c Hc Hs).
    destruct (negb (accepted r (page_status p))).
    { exists []. cbn. apply written_answered. }
    destruct (goes_on r paged ctrl p) as [cookie|].
    2:{ exists []. cbn. apply written_answered. }
    edestruct (IH (with_messageId (_nextMessageId c).1 r)
                 (push_references (page_references p) (push_entries r (page_entries p) acc))
                 paged pageSize (Some (Some (next_value pageSize ctrl cookie))) s
                 (answered p (first_request r ctrl c) s c)) as [more Hmore]; [done..|].
    rewrite Hmore, written_answered, <- app_assoc. cbn. eauto.
Qed.

(** With a size limit in the request, no status [sizeLimitExceeded] of any
    page becomes an exception. *)
Lemma _sendSearch_never_size_limit pages : forall r acc paged pageSize ctrl c msg,
  sizeLimit r <> 0 ->
  completion (_sendSearch pages r acc paged pageSize ctrl c)
  <> Rejected (StatusError MessageResponseStatus.SizeLimitExceeded msg).
Proof.
  induction pages as [| p pages IH]; intros r acc paged pageSize ctrl c msg Hsl.
  - cbn [_sendSearch]. destruct (_nextMessageId c) as [i c0].
    unfold _send. destruct (connected c0), (socket c0); cbn; intros [=].
  - destruct (connected c) eqn:Hc; [destruct (socket c) as [s|] eqn:Hs|].
    + rewrite (_sendSearch_step pages p r acc paged pageSize ctrl s c Hc Hs).
      destruct (negb (accepted r (page_status p))) eqn:Hacc.
      * cbn. intros [= Hst _]. unfold accepted in Hacc. rewrite Hst in Hacc.
        apply Z.eqb_neq in Hsl. rewrite Hsl in Hacc. done.
      * destruct (goes_on r paged ctrl p); [by apply IH | done].
    + cbn [_sendSearch]. destruct (_nextMessageId c) as [i c0] eqn:Hn.
      assert (c0 = set_messageId i c) as -> by (unfold _nextMessageId in Hn; by simplify_eq).
      unfold _send. cbn [connected socket set_messageId]. by rewrite Hc, Hs.
    + cbn [_sendSearch]. destruct (_nextMessageId c) as [i c0] eqn:Hn.
      assert (c0 = set_messageId i c) as -> by (unfold _nextMessageId in Hn; by simplify_eq).
      unfold _send. cbn [connected socket set_messageId]. by rewrite Hc.
Qed.




(** C4: with a size limit in the request, a response with status
    [sizeLimitExceeded] is handled as a success: its entries and references
    are added to the result, and the call resolves or, when paging goes on,
    asks for the next page; no page's [sizeLimitExceeded] is ever turned into
    an exception.  A response with any other status than success is rejected
    with what the status-code mapper makes of it. *)
Theorem C4_size_limit_exceeded (pages : list Page) (p : Page)
    (r : SearchRequest) (acc : SearchResult) (paged : bool) (pageSize : Z)
    (ctrl : option (option PagedValue)) (s : Socket) (c : Client) :
  connected c = true -> socket c = Some s ->
  let request := first_request r ctrl c in
  let c1 := answered p request s c in
  let run := _sendSearch (p :: pages) r acc paged pageSize ctrl c in
  let acc' := push_references (page_references p)
                (push_entries r (page_entries p) acc) in
  (sizeLimit r <> 0 ->
   page_status p = MessageResponseStatus.SizeLimitExceeded ->
   match goes_on r paged ctrl p with
   | None => completion run = Resolved tt /\ result run = acc'
   | Some cookie =>
       run = _sendSearch pages (with_messageId (messageId_of request) r) acc'
               paged pageSize (Some (Some (next_value pageSize ctrl cookie))) c1
   end)
  /\ (sizeLimit r <> 0 ->
      forall msg, completion run
                  <> Rejected (StatusError MessageResponseStatus.SizeLimitExceeded msg))
  /\ (page_status p <> MessageResponseStatus.Success ->
      page_status p <> MessageResponseStatus.SizeLimitExceeded ->
      completion run
      = Rejected (StatusError (page_status p) (page_errorMessage p))
      /\ result run = acc).
Proof.
  intros Hc Hs request c1 run acc'.
  assert (Hrun := _sendSearch_step pages p r acc paged pageSize ctrl s c Hc Hs).
  fold request c1 run acc' in Hrun.
  split; [|split].
  - intros Hsl Hst.
    assert (accepted r (page_status p) = true) as Hacc.
    { unfold accepted. rewrite Hst. apply Z.eqb_neq in Hsl. by rewrite Hsl. }
    rewrite Hacc in Hrun. cbn [negb] in Hrun.
    destruct (goes_on r paged ctrl p); [done | by rewrite Hrun].
  - intros Hsl msg. by apply _sendSearch_never_size_limit.
  - intros H0 H4.
    assert (accepted r (page_status p) = false) as Hacc.
    { unfold accepted. apply Z.eqb_neq in H0, H4. by rewrite H0, H4. }
    rewrite Hacc in Hrun. cbn [negb] in Hrun. by rewrite Hrun.
Qed.

Lemma C4_size_limit_exceeded_witness :
  completion (_sendSearch [example_page 4] example_request
                {| searchEntries := []; searchReferences := [] |}
                false 100 None example_client) = Resolved tt
  /\ result (_sendSearch [example_page 4] example_request
                {| searchEntries := []; searchReferences := [] |}
                false 100 None example_client)
     = {| searchEntries := [toObject example_entry None None];
          searchReferences := [] |}.
Proof.
  pose proof (C4_size_limit_exceeded [] (example_page 4) example_request
                {| searchEntries := []; searchReferences := [] |} false 100 None
                example_socket example_client eq_refl eq_refl) as H.
  cbv zeta in H. destruct H as [H _].
  specialize (H ltac:(discriminate) eq_refl).
  change (goes_on example_request false None (example_page 4)) with (@None Buffer) in H.
  exact H.
Defined.

(** A paged search over two pages: two requests under the ids 2 and 3, the
    second with the cookie of the first response, and the entries of both
    pages in the result. *)
Example paged_search_two_pages :
  let run := search (fun _ => Throw (Error "not called")) "dc=example,dc=com"
               (example_options true None) NoControls (Connects example_socket)
               [example_page 0; last_page] (Client.new None) in
  run.1 = Resolved {| searchEntries := [toObject example_entry None None;
                                        toObject example_entry None None];
                      searchReferences := [] |}
  /\ map messageId_of (written run.2) = [2; 3]
  /\ map controls_of (written run.2)
     = [[PagedResultsControl (Some {| page_size := 100; cookie := None |})];
        [PagedResultsControl (Some {| page_size := 100;
                                      cookie := Some example_cookie |})]]
  /\ messageDetailsByMessageId run.2 = ∅.
Proof. vm_compute. repeat split; reflexivity. Qed.

(** A search with a size limit that the server cuts short resolves with
    what was received. *)
Example search_with_size_limit :
  (search (fun _ => Throw (Error "not called")) "dc=example,dc=com"
     (example_options false (Some 1)) NoControls (Connects example_socket)
     [example_page MessageResponseStatus.SizeLimitExceeded] (Client.new None)).1
  = Resolved {| searchEntries := [toObject example_entry None None];
                searchReferences := [] |}.
Proof. vm_compute. reflexivity. Qed.

(** Without a size limit the same response is an error. *)
Example search_without_size_limit :
  (search (fun _ => Throw (Error "not called")) "dc=example,dc=com"
     (example_options false None) NoControls (Connects example_socket)
     [example_page MessageResponseStatus.SizeLimitExceeded] (Client.new None)).1
  = Rejected (StatusError MessageResponseStatus.SizeLimitExceeded "").
Proof. vm_compute. reflexivity. Qed.

(** [unbind] on a connected client writes an [UnbindRequest] under the next
    id and waits for the socket to close; the [close] handler then resolves
    it and empties the table. *)
Example unbind_then_close :
  let run := unbind example_client in
  run.1 = Pending 2
  /\ written run.2 = [UnbindRequest 2]
  /\ effects (socketClose example_socket (_send_written (UnbindRequest 2) run.2))
     = [Written 0 (UnbindRequest 2); Ended 0; Resolve 2 None]
  /\ messageDetailsByMessageId
       (socketClose example_socket (_send_written (UnbindRequest 2) run.2)) = ∅.
Proof. vm_compute. repeat split; reflexivity. Qed.

End SearchFacts.

Section JsStringFacts.
Import JsString.

Lemma of_units_units s : of_units (units s) = s.
Proof. apply string_of_list_ascii_of_string. Qed.

Lemma units_of_units l : units (of_units l) = l.
Proof. apply list_ascii_of_string_of_list_ascii. Qed.

Lemma units_inj s t : units s = units t -> s = t.
Proof. intros E. by rewrite <- (of_units_units s), <- (of_units_units t), E. Qed.

Lemma units_app s t : units (s +:+ t) = units s ++ units t.
Proof.
  unfold units. induction s as [| c s IH]; [done |].
  change (String c s +:+ t) with (String c (s +:+ t)).
  cbn [list_ascii_of_string app]. by rewrite IH.
Qed.

Lemma of_units_app l k : of_units (l ++ k) = of_units l +:+ of_units k.
Proof. apply units_inj. by rewrite units_app, !units_of_units. Qed.

Lemma length_units s : String.length s = length (units s).
Proof.
  unfold units. induction s as [| c s IH]; [done |].
  cbn [String.length list_ascii_of_string length]. by rewrite IH.
Qed.

Lemma string_app_assoc (s t u : string) : (s +:+ t) +:+ u = s +:+ t +:+ u.
Proof. apply units_inj. by rewrite !units_app, app_assoc. Qed.

Lemma string_app_nil_r (s : string) : s +:+ "" = s.
Proof. apply units_inj. by rewrite units_app, app_nil_r. Qed.

End JsStringFacts.

Section RDNPrinting.
Import RDN JsString.

Lemma own_put_own name value o other :
  own (put_own name value o) other
  = if decide (other = name) then Some value else own o other.
Proof.
  induction o as [| [k v] o IH]; cbn.
  - destruct (decide (name = other)), (decide (other = name)); congruence.
  - destruct (decide (k = name)) as [-> | Hk]; cbn.
    + destruct (decide (name = other)), (decide (other = name)); congruence.
    + destruct (decide (k = other)) as [-> | Hko].
      * by rewrite decide_False.
      * apply IH.
Qed.

(** X1: [get] after [set] finds the value that was set, and
    [set] leaves the other names as they were; the name [__proto__] is the
    exception, [set] does nothing for it. *)
Theorem RDN_get_after_set (name value other : string) (this : RDN) :
  get other (set name value this)
  = if decide (name = "__proto__"%string) then get other this
    else if decide (other = name) then OwnValue value
    else get other this.
Proof.
  unfold get, set, assign. cbn [attrs].
  destruct (decide (name = "__proto__"%string)); [done |].
  rewrite own_put_own. by destruct (decide (other = name)).
Qed.

Lemma escape_loop_str quoted value : forall str,
  _escape_loop quoted value str = str +:+ _escape_loop quoted value "".
Proof.
  induction value as [| c value IH]; intros str; cbn [_escape_loop].
  - by rewrite string_app_nil_r.
  - set (e := escaped c || negb quoted && special c).
    rewrite (IH ((if e then str +:+ "\" else str) +:+ String c "")).
    rewrite (IH ((if e then "" +:+ "\" else "") +:+ String c "")).
    rewrite <- !string_app_assoc. f_equal.
    destruct e; [done |]. by rewrite string_app_nil_r.
Qed.

Lemma escape_loop_cons quoted c value :
  _escape_loop quoted (c :: value) ""
  = if escaped c || (negb quoted && special c)
    then String "\" (String c (_escape_loop quoted value ""))
    else String c (_escape_loop quoted value "").
Proof.
  cbn [_escape_loop]. rewrite escape_loop_str.
  by destruct (escaped c || negb quoted && special c).
Qed.

Lemma escape_loop_inj quoted : forall v w,
  _escape_loop quoted v "" = _escape_loop quoted w "" -> v = w.
Proof.
  induction v as [| c v IH]; intros [| d w]; rewrite ?escape_loop_cons.
  - done.
  - cbn [_escape_loop]. by destruct (escaped d || negb quoted && special d).
  - cbn [_escape_loop]. by destruct (escaped c || negb quoted && special c).
  - destruct (escaped c || negb quoted && special c) eqn:Ec,
             (escaped d || negb quoted && special d) eqn:Ed; intros [=]; subst.
    + f_equal. by apply IH.
    + by rewrite orb_true_l in Ed.
    + by rewrite orb_true_l in Ec.
    + f_equal. by apply IH.
Qed.

Lemma escape_loop_length quoted v :
  (length v <= String.length (_escape_loop quoted v ""))%nat.
Proof.
  induction v as [| c v IH]; [done |]. rewrite escape_loop_cons.
  destruct (escaped c || negb quoted && special c); cbn; lia.
Qed.

(** The flag [quoted] of [_escape]. *)
Lemma quoted_spec value :
  (if bool_decide (0 < String.length value)%nat then
     startsWith " " value
     || bool_decide (charAt value (String.length value - 1) = Some " "%char)
   else false) = false
  <-> head (units value) <> Some " "%char /\ last (units value) <> Some " "%char.
Proof.
  unfold startsWith, charAt. rewrite length_units, last_lookup, <- head_lookup.
  replace (length (units value) - 1)%nat with (pred (length (units value))) by lia.
  case_bool_decide as Hlen.
  - rewrite orb_false_iff, !bool_decide_eq_false. done.
  - destruct (units value); [| cbn in Hlen; lia]. done.
Qed.

Lemma escape_inj (v w : string) : _escape v = _escape w -> v = w.
Proof.
  unfold _escape.
  set (qv := if bool_decide (0 < String.length v)%nat then _ else false).
  set (qw := if bool_decide (0 < String.length w)%nat then _ else false).
  intros E. apply units_inj.
  destruct qv, qw.
  - apply (escape_loop_inj true).
    change (String "034" "" +:+ ?s) with (String "034" s) in E.
    injection E as E. apply (f_equal units) in E.
    rewrite !units_app in E. apply app_inj_tail in E as [E _].
    by apply units_inj.
  - exfalso. change (String "034" "" +:+ ?s) with (String "034" s) in E.
    destruct (units w) as [| d l]; [done |].
    rewrite escape_loop_cons in E.
    destruct (escaped d || negb false && special d) eqn:Ed; [done |].
    injection E as <- _. done.
  - exfalso. change (String "034" "" +:+ ?s) with (String "034" s) in E.
    destruct (units v) as [| d l]; [done |].
    rewrite escape_loop_cons in E.
    destruct (escaped d || negb false && special d) eqn:Ed; [done |].
    injection E as -> _. done.
  - by apply (escape_loop_inj false).
Qed.

(** X2: [_escape] is injective: two values that differ are
    not printed alike. *)
Theorem RDN_escape_injective (v w : string) : v <> w -> _escape v <> _escape w.
Proof. intros Hne E. by apply Hne, escape_inj. Qed.

(** X3: [_escape] gives a value back unchanged exactly when
    the value holds no backslash, no double quote and none of [,=+<>#;], and no
    space at either end. *)
Theorem RDN_escape_unchanged (value : string) :
  _escape value = value <-> plain_value value.
Proof.
  unfold _escape, plain_value.
  pose proof (quoted_spec value) as Hq.
  destruct (if bool_decide (0 < String.length value)%nat then _ else false).
  - split.
    + intros E. apply (f_equal String.length) in E.
      change (String "034" "" +:+ ?s) with (String "034" s) in E.
      cbn [String.length] in E. rewrite !length_units, units_app in E.
      rewrite length_app, <- length_units in E.
      pose proof (escape_loop_length true (units value)). cbn in E. lia.
    + intros (_ & H1 & H2). by destruct Hq as [_ Hq]; specialize (Hq (conj H1 H2)).
  - split.
    + intros E. split; [| by apply Hq].
      rewrite <- (of_units_units value) in E at 2.
      revert E. generalize (units value). clear.
      induction l as [| c l IH]; intros E; [constructor |].
      rewrite escape_loop_cons in E.
      destruct (escaped c || negb false && special c) eqn:Ec.
      * exfalso. unfold of_units in E. cbn [string_of_list_ascii] in E.
        fold (of_units l) in E. injection E as _ E.
        apply (f_equal String.length) in E. cbn [String.length] in E.
        pose proof (escape_loop_length false l).
        rewrite (length_units (of_units l)), units_of_units in E. lia.
      * unfold of_units in E. cbn [string_of_list_ascii] in E.
        fold (of_units l) in E. injection E as E. constructor; [| by apply IH].
        by apply orb_false_iff in Ec as [? ?].
    + intros (Hall & _). rewrite <- (of_units_units value) at 2. clear Hq.
      induction Hall as [| c l [H1 H2] _ IH]; [done |].
      rewrite escape_loop_cons, H1, H2. cbn [orb andb negb].
      unfold of_units. cbn [string_of_list_ascii]. by rewrite IH.
Qed.

Lemma concat_plus_cons (s x : string) (l : list string) :
  String.concat "+" ((s +:+ "+" +:+ x) :: l) = s +:+ "+" +:+ String.concat "+" (x :: l).
Proof.
  destruct l as [| y l]; [done |].
  cbn [String.concat]. by rewrite !string_app_assoc.
Qed.

(** X4: [toString] prints one [name=value] for each own
    property, the value escaped by [_escape], in the order of [Object.keys],
    with a [+] between two of them and none at either end. *)
Theorem RDN_toString_join (this : RDN) :
  toString this
  = join "+"
      (map (fun key => key +:+ "=" +:+ _escape (default ""%string (own (attrs this) key)))
         (Object_keys (attrs this))).
Proof.
  unfold toString, join.
  set (comp := fun key : string => key +:+ "=" +:+ _escape (default ""%string (own (attrs this) key))).
  assert (Hcomp : forall k, String.length (comp k) <> 0%nat).
  { intros k. unfold comp. rewrite length_units, !units_app, !length_app. cbn. lia. }
  assert (Hloop : forall ks str, String.length str <> 0%nat ->
            fold_left (fun str key =>
                         (if bool_decide (String.length str = 0%nat) then str else str +:+ "+")
                         +:+ comp key) ks str
            = String.concat "+" (str :: map comp ks)).
  { induction ks as [| k ks IH]; intros str Hstr; [done |].
    cbn [fold_left map]. rewrite bool_decide_false by done.
    rewrite IH.
    - by rewrite string_app_assoc, concat_plus_cons.
    - rewrite length_units, !units_app, !length_app. cbn. lia. }
  destruct (Object_keys (attrs this)) as [| k ks]; [done |].
  cbn [fold_left map]. rewrite bool_decide_true by done.
  change ("" +:+ comp k) with (comp k). by apply Hloop.
Qed.

Lemma own_set name value this other :
  own (attrs (set name value this)) other
  = if decide (name = "__proto__"%string) then own (attrs this) other
    else if decide (other = name) then Some value else own (attrs this) other.
Proof.
  unfold set, assign. cbn [attrs].
  destruct (decide (name = "__proto__"%string)); [done | apply own_put_own].
Qed.

(** The last [set] of a name decides its value. *)
Lemma own_build sets name :
  own (attrs (build sets)) name
  = if decide (name = "__proto__"%string) then None else own (reverse sets) name.
Proof.
  induction sets as [| [k v] sets IH] using rev_ind.
  - cbn. by destruct (decide _).
  - rewrite <- set_build, own_set, IH, reverse_snoc. cbn [own].
    destruct (decide (name = "__proto__"%string)) as [-> | Hn],
             (decide (k = "__proto__"%string)) as [-> | Hk]; try done.
    + by rewrite decide_False.
    + by rewrite decide_False by done.
    + destruct (decide (name = k)) as [-> | Hnk].
      * by rewrite decide_True.
      * by rewrite decide_False by done.
Qed.

Lemma own_elem_of (o : list (string * string)) k v :
  NoDup o.*1 -> own o k = Some v <-> (k, v) ∈ o.
Proof.
  induction o as [| [k' v'] o IH]; intros Hnd.
  - cbn. split; [done | by intros ?%elem_of_nil].
  - cbn [fmap list_fmap] in Hnd. apply NoDup_cons in Hnd as [Hk' Hnd].
    cbn [own]. rewrite elem_of_cons. destruct (decide (k' = k)) as [-> | Hk].
    + split; [intros [= ->]; by left |].
      intros [[= ->] | Hin]; [done |]. exfalso. apply Hk'.
      apply list_elem_of_fmap. by exists (k, v).
    + rewrite IH by done. split; [by right |]. intros [[= -> ->] | ?]; done.
Qed.

Lemma own_Permutation (o o' : list (string * string)) k :
  NoDup o.*1 -> o ≡ₚ o' -> own o k = own o' k.
Proof.
  intros Hnd Hp.
  assert (Hnd' : NoDup o'.*1) by (by rewrite <- Hp).
  apply option_eq. intros v. rewrite !own_elem_of by done. by rewrite Hp.
Qed.

(** X5: on RDNs made by [new RDN()] and [set], [equals] is
    an equivalence relation. *)
Theorem RDN_equals_equivalence :
  (forall a, equals (build a) (build a) = true)
  /\ (forall a b, equals (build a) (build b) = equals (build b) (build a))
  /\ (forall a b c, equals (build a) (build b) = true ->
                    equals (build b) (build c) = true ->
                    equals (build a) (build c) = true).
Proof.
  assert (Hspec : forall a b,
            equals (build a) (build b) = true
            <-> forall name, own (attrs (build a)) name = own (attrs (build b)) name)
    by (intros; apply equals_spec; apply build_NoDup).
  split; [| split].
  - intros a. by apply Hspec.
  - intros a b. apply eq_true_iff_eq. rewrite !Hspec. split; intros E name; by rewrite E.
  - intros a b c Hab Hbc. rewrite Hspec in *. intros name. by rewrite Hab, Hbc.
Qed.

(** X6: an RDN made from an object is equal to the RDN made by
    setting the object's properties one by one, in whatever order. *)
Theorem RDN_new_equals_sets (o sets : list (string * string)) :
  NoDup o.*1 -> o ≡ₚ sets -> equals (new (Some o)) (build sets) = true.
Proof.
  intros Hnd Hp. rewrite new_build. apply equals_spec; [apply build_NoDup.. |].
  intros name. rewrite !own_build. destruct (decide _); [done |].
  assert (Hnd' : NoDup sets.*1) by (by rewrite <- Hp).
  set (pairs := map (fun name => (name, default ""%string (own o name))) (Object_keys o)).
  assert (Ho : o = map (fun name => (name, default ""%string (own o name))) o.*1).
  { change (map ?f o.*1) with (f <$> (fst <$> o)).
    rewrite <- list_fmap_compose. rewrite <- (list_fmap_id o) at 1.
    apply Forall_fmap_ext_1, Forall_forall. intros [k v] Hin. cbn.
    apply (own_elem_of o k v Hnd) in Hin. by rewrite Hin. }
  assert (Hpo : pairs ≡ₚ o).
  { assert (Hpm : pairs ≡ₚ map (fun name => (name, default ""%string (own o name))) o.*1)
      by apply Permutation_map, Object_keys_Permutation.
    by rewrite <- Ho in Hpm. }
  assert (Hndp : NoDup pairs.*1) by (by rewrite Hpo).
  rewrite <- (own_Permutation pairs (reverse pairs)) by (done || by rewrite reverse_Permutation).
  rewrite <- (own_Permutation sets (reverse sets)) by (done || by rewrite reverse_Permutation).
  apply own_Permutation; [done |]. by rewrite Hpo.
Qed.

End RDNPrinting.

Section RDNPrintingExamples.
Import RDN.

Lemma RDN_escape_injective_witness :
  "a,b"%string <> "a\,b"%string /\ _escape "a,b" <> _escape "a\,b".
Proof.
  split; [discriminate |]. apply (RDN_escape_injective "a,b" "a\,b"). discriminate.
Defined.

Lemma RDN_new_equals_sets_witness :
  NoDup [("cn", "Jim"); ("ou", "People")]%string.*1
  /\ [("cn", "Jim"); ("ou", "People")]%string ≡ₚ [("ou", "People"); ("cn", "Jim")]%string
  /\ equals (new (Some [("cn", "Jim"); ("ou", "People")]%string))
       (build [("ou", "People"); ("cn", "Jim")]%string) = true.
Proof.
  assert (Hnd : NoDup [("cn", "Jim"); ("ou", "People")]%string.*1)
    by compute_done.
  assert (Hp : [("cn", "Jim"); ("ou", "People")]%string
               ≡ₚ [("ou", "People"); ("cn", "Jim")]%string)
    by apply perm_swap.
  split; [exact Hnd |]. split; [exact Hp |].
  exact (RDN_new_equals_sets _ _ Hnd Hp).
Defined.

(** The printing of a compound RDN. *)
Example toString_compound :
  toString (build [("cn", "Smith, J"); ("ou", " People")]%string)
  = ("cn=Smith\, J+ou=" +:+ String "034" " People" +:+ String "034" "")%string.
Proof. vm_compute. reflexivity. Qed.

End RDNPrintingExamples.

Section MatchLaws.
Import Filters.
Context `{Runtime}.
Variable Entry : Type.
Variable getObjectValue : Entry -> string -> bool -> option Value.
Variable objectToCheck : Entry.
Variable strictAttributeCase : bool.

Lemma matches_And fs :
  matches Entry getObjectValue (AndFilter fs) objectToCheck strictAttributeCase
  = and_loop
      (fun f => matches Entry getObjectValue f objectToCheck strictAttributeCase)
      fs.
Proof. cbn [matches]. case_bool_decide; [by destruct fs | done]. Qed.

Lemma matches_Or fs :
  fs <> [] ->
  matches Entry getObjectValue (OrFilter fs) objectToCheck strictAttributeCase
  = or_loop
      (fun f => matches Entry getObjectValue f objectToCheck strictAttributeCase)
      fs.
Proof.
  intros Hne. cbn [matches]. rewrite bool_decide_false; [done | by destruct fs].
Qed.

Lemma and_loop_app m fs gs :
  and_loop m (fs ++ gs)
  = b ← and_loop m fs; if negb b then Ok false else and_loop m gs.
Proof.
  induction fs as [| f fs IH]; cbn; [done |].
  destruct (m f) as [[|] | e]; cbn; [apply IH | done | done].
Qed.

Lemma or_loop_app m fs gs :
  or_loop m (fs ++ gs)
  = b ← or_loop m fs; if (b : bool) then Ok true else or_loop m gs.
Proof.
  induction fs as [| f fs IH]; cbn; [done |].
  destruct (m f) as [[|] | e]; cbn; [done | apply IH | done].
Qed.

Lemma and_loop_all_true m fs :
  Forall (fun f => m f = Ok true) fs -> and_loop m fs = Ok true.
Proof. induction 1 as [| f fs Hf _ IH]; [done |]. cbn. by rewrite Hf. Qed.

Lemma or_loop_all_false m fs :
  Forall (fun f => m f = Ok false) fs -> or_loop m fs = Ok false.
Proof. induction 1 as [| f fs Hf _ IH]; [done |]. cbn. by rewrite Hf. Qed.

(** X7: when every child gives an answer, an [AndFilter]
    matches exactly when all its children match and an [OrFilter] with at
    least one child exactly when one of its children matches; an [OrFilter]
    with no child matches. *)
Theorem matches_and_or_of_children (fs : list Filter) (bs : list bool) :
  Forall2
    (fun f b =>
       matches Entry getObjectValue f objectToCheck strictAttributeCase = Ok b)
    fs bs ->
  matches Entry getObjectValue (AndFilter fs) objectToCheck strictAttributeCase
  = Ok (forallb id bs)
  /\ matches Entry getObjectValue (OrFilter fs) objectToCheck strictAttributeCase
     = Ok (match fs with [] => true | _ => existsb id bs end).
Proof.
  intros Hall. split.
  - rewrite matches_And. induction Hall as [| f b fs bs Hf _ IH]; [done |].
    cbn. rewrite Hf. cbn. by destruct b.
  - destruct Hall as [| f b fs bs Hf Hall]; [done |].
    rewrite matches_Or by done. cbn. rewrite Hf. cbn. destruct b; [done |]. cbn.
    induction Hall as [| f' b' fs bs Hf' _ IH]; [done |].
    cbn. rewrite Hf'. cbn. by destruct b'.
Qed.

(** X8: the children are asked in order and the first one that
    decides ends the evaluation: an [AndFilter] returns what its first child
    that does not return true returns (false, or the exception it throws),
    an [OrFilter] what its first child that does not return false returns;
    the children after it are not evaluated. *)
Theorem matches_first_child_decides (fs gs : list Filter) (f : Filter) :
  (Forall
     (fun f =>
        matches Entry getObjectValue f objectToCheck strictAttributeCase
        = Ok true) fs ->
   matches Entry getObjectValue f objectToCheck strictAttributeCase <> Ok true ->
   matches Entry getObjectValue (AndFilter (fs ++ f :: gs)) objectToCheck
     strictAttributeCase
   = matches Entry getObjectValue f objectToCheck strictAttributeCase)
  /\ (Forall
        (fun f =>
           matches Entry getObjectValue f objectToCheck strictAttributeCase
           = Ok false) fs ->
      matches Entry getObjectValue f objectToCheck strictAttributeCase
      <> Ok false ->
      matches Entry getObjectValue (OrFilter (fs ++ f :: gs)) objectToCheck
        strictAttributeCase
      = matches Entry getObjectValue f objectToCheck strictAttributeCase).
Proof.
  split; intros Hall Hf.
  - rewrite matches_And, and_loop_app, (and_loop_all_true _ _ Hall).
    cbn. by destruct (matches _ _ f _ _) as [[|] | e].
  - rewrite matches_Or by (by destruct fs).
    rewrite or_loop_app, (or_loop_all_false _ _ Hall).
    cbn. by destruct (matches _ _ f _ _) as [[|] | e].
Qed.

(** X9: an [AndFilter] of [AndFilter]s evaluates as the
    [AndFilter] of all their children, and an [OrFilter] of [OrFilter]s that
    each have a child as the [OrFilter] of all their children, exceptions
    included. *)
Theorem matches_nested_flatten (fss : list (list Filter)) :
  matches Entry getObjectValue (AndFilter (map AndFilter fss)) objectToCheck
    strictAttributeCase
  = matches Entry getObjectValue (AndFilter (concat fss)) objectToCheck
      strictAttributeCase
  /\ (Forall (fun fs => fs <> []) fss ->
      matches Entry getObjectValue (OrFilter (map OrFilter fss)) objectToCheck
        strictAttributeCase
      = matches Entry getObjectValue (OrFilter (concat fss)) objectToCheck
          strictAttributeCase).
Proof.
  split.
  - rewrite !matches_And. induction fss as [| fs fss IH]; [done |].
    cbn [map concat and_loop]. rewrite and_loop_app, matches_And, <- IH.
    by destruct (and_loop _ fs) as [[|] | e].
  - intros Hne. destruct Hne as [| fs fss Hfs Hne]; [done |].
    rewrite !matches_Or by (done || by destruct fs).
    cbn [map concat or_loop]. rewrite or_loop_app, matches_Or by done.
    destruct (or_loop _ fs) as [[|] | e]; cbn; [done | | done].
    induction Hne as [| fs' fss Hfs' _ IH]; [done |].
    cbn [map concat or_loop]. rewrite or_loop_app, matches_Or by done.
    by destruct (or_loop _ fs') as [[|] | e].
Qed.

(** X10: when the entry's value for the attribute is found under
    both settings of [strictAttributeCase], an [EqualityFilter] that matches
    with the flag set also matches without it. *)
Theorem EqualityFilter_strict_match_is_match (attribute : string)
    (value : Value) (e : Entry) :
  value <> NullValue ->
  getObjectValue e attribute false = getObjectValue e attribute true ->
  matches Entry getObjectValue (EqualityFilter attribute value) e true = Ok true ->
  matches Entry getObjectValue (EqualityFilter attribute value) e false = Ok true.
Proof.
  intros Hnn Hsame. cbn [matches]. unfold EqualityFilter_matches. rewrite Hsame.
  unfold EqualityFilter_compare.
  destruct (getObjectValue e attribute true) as [[t | b |] |], value as [s | b' |];
    cbn; try done.
  - intros [= E%bool_decide_eq_true]. subst. by rewrite bool_decide_true.
  - intros [= E%bool_decide_eq_true]. subst. by rewrite bool_decide_true.
Qed.

End MatchLaws.

Section MatchLawExamples.
Import Filters.
#[local] Existing Instance ascii_runtime.

Lemma matches_and_or_of_children_witness :
  let getObjectValue :=
    fun (entry : list (string * Value)) (key : string) (_ : bool) =>
      snd <$> find (fun kv => bool_decide (kv.1 = key)) entry in
  let entry := [("cn"%string, StringValue "jim")] in
  let fs := [EqualityFilter "cn" (StringValue "jim");
             EqualityFilter "ou" (StringValue "people")] in
  Forall2 (fun f b => matches _ getObjectValue f entry true = Ok b) fs [true; false]
  /\ matches _ getObjectValue (AndFilter fs) entry true = Ok false
  /\ matches _ getObjectValue (OrFilter fs) entry true = Ok true.
Proof.
  cbv zeta.
  assert (Hall : Forall2
            (fun f b =>
               matches (list (string * Value))
                 (fun entry key _ => snd <$> find (fun kv => bool_decide (kv.1 = key)) entry)
                 f [("cn"%string, StringValue "jim")] true = Ok b)
            [EqualityFilter "cn" (StringValue "jim");
             EqualityFilter "ou" (StringValue "people")] [true; false])
    by (repeat constructor).
  split; [exact Hall |].
  exact (matches_and_or_of_children _ _ _ true _ _ Hall).
Defined.

Lemma matches_first_child_decides_witness :
  let getObjectValue :=
    fun (entry : list (string * Value)) (key : string) (_ : bool) =>
      snd <$> find (fun kv => bool_decide (kv.1 = key)) entry in
  let entry := [("cn"%string, StringValue "jim")] in
  matches _ getObjectValue
    (AndFilter ([EqualityFilter "cn" (StringValue "jim")]
                ++ EqualityFilter "ou" (StringValue "people")
                   :: [NotFilter (PresenceFilter "cn")])) entry true
  = matches _ getObjectValue (EqualityFilter "ou" (StringValue "people")) entry true.
Proof.
  cbv zeta.
  apply (proj1 (matches_first_child_decides (list (string * Value))
                  (fun entry key _ => snd <$> find (fun kv => bool_decide (kv.1 = key)) entry)
                  [("cn"%string, StringValue "jim")] true
                  [EqualityFilter "cn" (StringValue "jim")]
                  [NotFilter (PresenceFilter "cn")]
                  (EqualityFilter "ou" (StringValue "people")))).
  - repeat constructor.
  - vm_compute. discriminate.
Defined.

Lemma EqualityFilter_strict_match_is_match_witness :
  let getObjectValue :=
    fun (entry : list (string * Value)) (key : string) (_ : bool) =>
      snd <$> find (fun kv => bool_decide (kv.1 = key)) entry in
  let entry := [("cn"%string, StringValue "Jim")] in
  StringValue "Jim" <> NullValue
  /\ getObjectValue entry "cn"%string false = getObjectValue entry "cn"%string true
  /\ matches _ getObjectValue (EqualityFilter "cn" (StringValue "Jim")) entry true
     = Ok true
  /\ matches _ getObjectValue (EqualityFilter "cn" (StringValue "Jim")) entry false
     = Ok true.
Proof.
  cbv zeta. split; [discriminate |]. split; [reflexivity |]. split; [reflexivity |].
  apply (EqualityFilter_strict_match_is_match (list (string * Value))
           (fun entry key _ => snd <$> find (fun kv => bool_decide (kv.1 = key)) entry)
           "cn" (StringValue "Jim") [("cn"%string, StringValue "Jim")]);
    [discriminate | reflexivity | reflexivity].
Defined.

End MatchLawExamples.

Section BinaryForm.
Import Ber Filters.
Context `{Runtime}.

Lemma readString_read_back r content bs :
  tlv OctetString content = Some bs -> holds r (r_offset r) bs ->
  readString r
  = Ok (Some (read_back content),
        {| r_buf := r_buf r;
           r_offset := r_offset r + Z.of_nat (length bs);
           r_len := Z.of_nat (length content) |}).
Proof. apply readString_tlv. Qed.

Lemma parse_tag_and fuel r r' :
  readSequence r = Ok (Some SearchFilter.and, r') ->
  parse (S fuel) r
  = match _parseSet_loop fuel (r_offset r' + r_len r') r' [] with
    | Some (Ok (andFilters, reader)) => Some (Ok (AndFilter andFilters, reader))
    | Some (Throw e) => Some (Throw e)
    | None => None
    end.
Proof. intros E. cbn [parse]. by rewrite E. Qed.

Lemma parse_tag_or fuel r r' :
  readSequence r = Ok (Some SearchFilter.or, r') ->
  parse (S fuel) r
  = match _parseSet_loop fuel (r_offset r' + r_len r') r' [] with
    | Some (Ok (orFilters, reader)) => Some (Ok (OrFilter orFilters, reader))
    | Some (Throw e) => Some (Throw e)
    | None => None
    end.
Proof. intros E. cbn [parse]. by rewrite E. Qed.

Lemma parse_tag_not fuel r r' :
  readSequence r = Ok (Some SearchFilter.not, r') ->
  parse (S fuel) r
  = match parse fuel r' with
    | Some (Ok (innerFilter, reader)) => Some (Ok (NotFilter innerFilter, reader))
    | other => other
    end.
Proof. intros E. cbn [parse]. by rewrite E. Qed.

Lemma parse_tag_equality fuel r r' :
  readSequence r = Ok (Some SearchFilter.equalityMatch, r') ->
  parse (S fuel) r = Some (EqualityFilter_parseFilter r').
Proof. intros E. cbn [parse]. by rewrite E. Qed.

(** [parse] reads the encoding of [f], wherever it stands in the reader's
    buffer, as [as_parsed f], and leaves the reader behind it. *)
Lemma parseSet_as_parsed fs :
  Forall (fun f => forall bs, enc f = Some bs ->
            forall r fuel, holds r (r_offset r) bs -> (length bs <= fuel)%nat ->
            exists len,
              parse fuel r
              = Some (Ok (as_parsed f,
                          {| r_buf := r_buf r;
                             r_offset := r_offset r + Z.of_nat (length bs);
                             r_len := len |}))) fs ->
  forall body, enc_all enc fs = Some body ->
  forall r acc fuel,
    holds r (r_offset r) body -> (length body < fuel)%nat ->
    exists len,
      _parseSet_loop fuel (r_offset r + Z.of_nat (length body)) r acc
      = Some (Ok (acc ++ map as_parsed fs,
                  {| r_buf := r_buf r;
                     r_offset := r_offset r + Z.of_nat (length body);
                     r_len := len |})).
Proof.
  induction 1 as [| f fs Hf _ IH]; intros body Henc r acc fuel Hh Hfuel;
    cbn [enc_all] in Henc.
  - injection Henc as <-. destruct fuel as [| fuel]; [lia|]. cbn [_parseSet_loop length map].
    rewrite Z.add_0_r, Z.ltb_irrefl, app_nil_r. exists (r_len r). by destruct r.
  - destruct (enc f) as [b|] eqn:Eb; [|done].
    destruct (enc_all enc fs) as [bs|] eqn:Ebs; [|done].
    injection Henc as <-.
    pose proof (enc_length _ _ Eb) as Hb2.
    destruct fuel as [| fuel]; [lia|]. cbn [_parseSet_loop].
    rewrite length_app in Hfuel |- *.
    destruct (Z.ltb_spec (r_offset r) (r_offset r + Z.of_nat (length b + length bs))); [|lia].
    destruct (Hf b eq_refl r fuel) as [len1 ->]; [by eapply holds_app_l | lia |].
    set (r1 := {| r_buf := r_buf r; r_offset := r_offset r + Z.of_nat (length b); r_len := len1 |}).
    destruct (IH bs eq_refl r1 (acc ++ [as_parsed f]) fuel) as [len2 Hloop].
    { apply (holds_same_buf r); [done|]. by apply holds_app_r. }
    { lia. }
    cbn [r_offset r1 r_buf] in Hloop.
    replace (r_offset r + Z.of_nat (length b + length bs))
      with (r_offset r + Z.of_nat (length b) + Z.of_nat (length bs)) by lia.
    rewrite Hloop. exists len2. cbn [map]. by rewrite <- app_assoc.
Qed.

Lemma parse_as_parsed f : forall bs, enc f = Some bs ->
  forall r fuel, holds r (r_offset r) bs -> (length bs <= fuel)%nat ->
  exists len,
    parse fuel r
    = Some (Ok (as_parsed f,
                {| r_buf := r_buf r;
                   r_offset := r_offset r + Z.of_nat (length bs);
                   r_len := len |})).
Proof.
  induction f as [fs IH | fs IH | f IH | a v | a] using Filter_ind';
    intros bs Henc r fuel Hh Hfuel; cbn [enc] in Henc.
  - destruct (enc_all enc fs) as [body|] eqn:Eb; [|done].
    pose proof (tlv_length _ _ _ Henc) as Hl.
    destruct fuel as [| fuel]; [lia|].
    rewrite (parse_tag_and _ _ _ (readSequence_tlv r _ body bs (type_range _) Henc Hh)).
    cbn [r_offset r_len].
    set (r1 := {| r_buf := r_buf r;
                  r_offset := r_offset r + Z.of_nat (length bs - length body);
                  r_len := Z.of_nat (length body) |}).
    destruct (parseSet_as_parsed fs IH body Eb r1 [] fuel) as [len Hloop].
    { apply (holds_same_buf r); [done|]. by eapply holds_content. }
    { lia. }
    cbn [r_offset r1 r_buf] in Hloop. rewrite Hloop. cbn [app as_parsed].
    exists len. do 4 f_equal. lia.
  - destruct (enc_all enc fs) as [body|] eqn:Eb; [|done].
    pose proof (tlv_length _ _ _ Henc) as Hl.
    destruct fuel as [| fuel]; [lia|].
    rewrite (parse_tag_or _ _ _ (readSequence_tlv r _ body bs (type_range _) Henc Hh)).
    cbn [r_offset r_len].
    set (r1 := {| r_buf := r_buf r;
                  r_offset := r_offset r + Z.of_nat (length bs - length body);
                  r_len := Z.of_nat (length body) |}).
    destruct (parseSet_as_parsed fs IH body Eb r1 [] fuel) as [len Hloop].
    { apply (holds_same_buf r); [done|]. by eapply holds_content. }
    { lia. }
    cbn [r_offset r1 r_buf] in Hloop. rewrite Hloop. cbn [app as_parsed].
    exists len. do 4 f_equal. lia.
  - destruct (enc f) as [body|] eqn:Eb; [|done].
    pose proof (tlv_length _ _ _ Henc) as Hl.
    destruct fuel as [| fuel]; [lia|].
    rewrite (parse_tag_not _ _ _ (readSequence_tlv r _ body bs (type_range _) Henc Hh)).
    set (r1 := {| r_buf := r_buf r;
                  r_offset := r_offset r + Z.of_nat (length bs - length body);
                  r_len := Z.of_nat (length body) |}).
    destruct (IH body eq_refl r1 fuel) as [len Hp].
    { apply (holds_same_buf r); [done|]. by eapply holds_content. }
    { lia. }
    rewrite Hp. cbn [r_offset r1 r_buf as_parsed].
    exists len. do 4 f_equal. lia.
  - destruct (tlv OctetString (utf8_encode a)) as [x|] eqn:Ex; [|done].
    set (content := match v with
                    | StringValue s => utf8_encode s
                    | BufferValue b => buf_data b
                    | NullValue => []
                    end).
    destruct (match v with
              | StringValue s => tlv OctetString (utf8_encode s)
              | BufferValue b =>
                  if bool_decide (buf_data b = []) then None
                  else tlv OctetString (buf_data b)
              | NullValue => None
              end) as [y|] eqn:Ey; [|done].
    assert (Ey' : tlv OctetString content = Some y).
    { destruct v as [s | b |]; [done | | done]. by case_bool_decide. }
    pose proof (tlv_length _ _ _ Henc) as Hl.
    destruct fuel as [| fuel]; [lia|].
    rewrite (parse_tag_equality _ _ _ (readSequence_tlv r _ (x ++ y) bs (type_range _) Henc Hh)).
    set (r1 := {| r_buf := r_buf r;
                  r_offset := r_offset r + Z.of_nat (length bs - length (x ++ y));
                  r_len := Z.of_nat (length (x ++ y)) |}).
    assert (Hh1 : holds r1 (r_offset r1) (x ++ y)).
    { apply (holds_same_buf r); [done|]. cbn [r_offset r1].
      by eapply holds_content. }
    unfold EqualityFilter_parseFilter.
    rewrite (readString_read_back r1 (utf8_encode a) x Ex (holds_app_l _ _ _ _ Hh1)).
    cbn [mbind Result_bind default from_option id].
    set (r2 := {| r_buf := r_buf r1; r_offset := r_offset r1 + Z.of_nat (length x);
                  r_len := Z.of_nat (length (utf8_encode a)) |}).
    assert (Hh2 : holds r2 (r_offset r2) y).
    { apply (holds_same_buf r1); [done|]. cbn [r_offset r2]. by apply holds_app_r. }
    rewrite (readString_read_back r2 content y Ey' Hh2).
    cbn [mbind Result_bind as_parsed]. fold content.
    eexists.
    case_bool_decide as Ho.
    + do 4 f_equal. cbn [r_offset r2 r1]. rewrite length_app in *. lia.
    + do 4 f_equal. cbn [r_offset r2 r1]. rewrite length_app in *. lia.
  - done.
Qed.

(** X11: [FilterParser.parse] reads the encoding of a filter
    of [And], [Or], [Not] and [Equality] nodes back as the same tree with,
    in every [EqualityFilter], the attribute in lower case and the value a
    string (the bytes of a Buffer decoded as UTF-8), in lower case when the
    attribute is [objectclass]; bytes that follow the encoding are left
    alone, and fuel of the length of the encoding is enough. *)
Theorem parse_of_encoding (F : Filter) (bytes rest : list byte) (fuel : nat) :
  encodeBinary F = Ok bytes ->
  (length bytes <= fuel)%nat ->
  parseBinary fuel (bytes ++ rest) = Some (Ok (as_parsed F)).
Proof.
  intros Henc Hfuel. unfold encodeBinary in Henc.
  destruct (write F newWriter) as [w|] eqn:Ew; [|done].
  cbn in Henc. injection Henc as <-.
  apply write_enc in Ew as (bs & Hbs & ->). cbn [put newWriter w_buf app] in *.
  unfold parseBinary.
  destruct (parse_as_parsed F bs Hbs (newReader (bs ++ rest)) fuel) as [len ->]; [|done|done].
  split; [cbn; unfold r_size; cbn; lia|]. exists rest. done.
Qed.

End BinaryForm.

Section WireForm.
Import Ber Filters.
Context `{Runtime}.

Lemma tlv_writeString s tag w bs :
  tlv tag (utf8_encode s) = Some bs -> writeString s tag w = Ok (put bs w).
Proof.
  unfold writeString, writeLength, tlv.
  destruct (length_octets _) as [lb|]; [|done]. cbn.
  intros [= <-]. unfold writeByte. by rewrite !put_put.
Qed.

Lemma tlv_writeBuffer b tag w bs :
  buf_data b <> [] ->
  tlv tag (buf_data b) = Some bs -> writeBuffer b tag w = Ok (put bs w).
Proof.
  intros Hb. unfold writeBuffer, writeLength, tlv.
  destruct (length_octets _) as [lb|]; [|done]. cbn.
  rewrite bool_decide_false by done.
  intros [= <-]. unfold writeByte. by rewrite !put_put.
Qed.

Lemma tlv_endSequence tag body w bs :
  tlv tag body = Some bs ->
  endSequence (put body (startSequence tag w)) = Ok (put bs w).
Proof.
  intros Ht.
  destruct (endSequence (put body (startSequence tag w))) as [w'| e] eqn:E.
  - apply endSequence_tlv in E as (bs' & Hbs' & ->). congruence.
  - exfalso. revert E. unfold endSequence, startSequence, writeByte, put, tlv in *.
    cbn. rewrite !length_app. cbn.
    replace (Z.of_nat (length (w_buf w) + 1 + 3 + length body)
             - Z.of_nat (length (w_buf w) + 1 + 3)) with (Z.of_nat (length body)) by lia.
    by destruct (length_octets _).
Qed.

Lemma enc_all_for_of fs :
  Forall (fun f => forall bs, enc f = Some bs ->
            forall w, write f w = Ok (put bs w)) fs ->
  forall body, enc_all enc fs = Some body ->
  forall w, for_of write fs w = Ok (put body w).
Proof.
  induction 1 as [| f fs Hf _ IH]; intros body Henc w; cbn in Henc |- *.
  - injection Henc as <-. by rewrite put_nil.
  - destruct (enc f) as [b|] eqn:Eb; [|done].
    destruct (enc_all enc fs) as [bs|] eqn:Ebs; [|done].
    injection Henc as <-. rewrite (Hf b eq_refl). cbn.
    rewrite (IH bs eq_refl). by rewrite put_put.
Qed.

Lemma enc_write f : forall bs, enc f = Some bs ->
  forall w, write f w = Ok (put bs w).
Proof.
  induction f as [fs IH | fs IH | f IH | a v | a] using Filter_ind';
    intros bs Henc w; cbn [enc] in Henc; cbn [write].
  - destruct (enc_all enc fs) as [body|] eqn:Eb; [|done].
    rewrite (enc_all_for_of fs IH body Eb). cbn. by apply tlv_endSequence.
  - destruct (enc_all enc fs) as [body|] eqn:Eb; [|done].
    rewrite (enc_all_for_of fs IH body Eb). cbn. by apply tlv_endSequence.
  - destruct (enc f) as [body|] eqn:Eb; [|done].
    rewrite (IH body eq_refl). cbn. by apply tlv_endSequence.
  - destruct (tlv OctetString (utf8_encode a)) as [x|] eqn:Ex; [|done].
    unfold EqualityFilter_writeFilter. rewrite (tlv_writeString _ _ _ _ Ex). cbn [mbind Result_bind].
    destruct v as [s | b |]; [| | done].
    + destruct (tlv OctetString (utf8_encode s)) as [y|] eqn:Ey; [|done].
      rewrite (tlv_writeString _ _ _ _ Ey). cbn [mbind Result_bind]. rewrite put_put.
      by apply tlv_endSequence.
    + case_bool_decide as Hb; [done|].
      destruct (tlv OctetString (buf_data b)) as [y|] eqn:Ey; [|done].
      rewrite (tlv_writeBuffer _ _ _ _ Hb Ey). cbn [mbind Result_bind]. rewrite put_put.
      by apply tlv_endSequence.
  - done.
Qed.

(** The writer and [enc] agree. *)
Lemma encodeBinary_enc f bs : encodeBinary f = Ok bs <-> enc f = Some bs.
Proof.
  unfold encodeBinary. split.
  - destruct (write f newWriter) as [w|] eqn:Ew; [|done]. cbn. intros [= <-].
    by apply write_enc in Ew as (bs & Hbs & ->).
  - intros E. by rewrite (enc_write f bs E).
Qed.

Lemma enc_all_concat fs body :
  enc_all enc fs = Some body
  <-> exists bodies, Forall2 (fun f b => enc f = Some b) fs bodies
                     /\ body = concat bodies.
Proof.
  revert body. induction fs as [| f fs IH]; intros body; cbn [enc_all].
  - split.
    + intros [= <-]. exists []. by split; [constructor |].
    + intros (bodies & Hall & ->). by inversion Hall.
  - split.
    + destruct (enc f) as [b|] eqn:Eb; [|done].
      destruct (enc_all enc fs) as [bs|] eqn:Ebs; [|done].
      intros [= <-]. destruct (proj1 (IH bs) eq_refl) as (bodies & Hall & ->).
      exists (b :: bodies). by split; [constructor |].
    + intros (bodies & Hall & ->). inversion Hall as [| ? b ? bodies' Hb Hall']; subst.
      rewrite Hb. rewrite (proj2 (IH (concat bodies'))) by eauto. done.
Qed.

(** X12: the encoding of an [AndFilter] or an [OrFilter] is the tag
    of the variant, the length in the shortest definite form and the
    encodings of the children in order, each as the child is encoded on its
    own; the filter has an encoding exactly when its children have and their
    encodings together are shorter than 2^24 bytes. *)
Theorem encoding_of_children (fs : list Filter) (bytes : list byte) :
  (encodeBinary (AndFilter fs) = Ok bytes
   <-> exists bodies, Forall2 (fun f b => encodeBinary f = Ok b) fs bodies
                      /\ tlv SearchFilter.and (concat bodies) = Some bytes)
  /\ (encodeBinary (OrFilter fs) = Ok bytes
      <-> exists bodies, Forall2 (fun f b => encodeBinary f = Ok b) fs bodies
                         /\ tlv SearchFilter.or (concat bodies) = Some bytes).
Proof.
  assert (Hall : forall bodies,
            Forall2 (fun f b => encodeBinary f = Ok b) fs bodies
            <-> Forall2 (fun f b => enc f = Some b) fs bodies).
  { intros bodies. split; intros HF; (eapply Forall2_impl; [exact HF |]);
      intros f b; apply encodeBinary_enc. }
  split; rewrite encodeBinary_enc; cbn [enc type].
  - split.
    + destruct (enc_all enc fs) as [body|] eqn:Eb; [|done].
      apply enc_all_concat in Eb as (bodies & Hb & ->).
      intros Ht. exists bodies. by rewrite Hall.
    + intros (bodies & Hb & Ht). rewrite Hall in Hb.
      by rewrite (proj2 (enc_all_concat fs (concat bodies))) by eauto.
  - split.
    + destruct (enc_all enc fs) as [body|] eqn:Eb; [|done].
      apply enc_all_concat in Eb as (bodies & Hb & ->).
      intros Ht. exists bodies. by rewrite Hall.
    + intros (bodies & Hb & Ht). rewrite Hall in Hb.
      by rewrite (proj2 (enc_all_concat fs (concat bodies))) by eauto.
Qed.

(** What [EqualityFilter.parseFilter] does after an [equalityMatch]
    element that holds only the attribute: it reads on behind the element. *)
Lemma parse_equality_reads_on (attribute x bytes rest : list byte) (fuel : nat) :
  tlv OctetString attribute = Some x ->
  tlv SearchFilter.equalityMatch x = Some bytes ->
  exists r2,
    holds r2 (r_offset r2) rest
    /\ r_size r2 - r_offset r2 = Z.of_nat (length rest)
    /\ parseBinary (S fuel) (bytes ++ rest)
       = Some (match
                 ('(v, reader) ← readString r2;
                  let attribute := toLowerCase (read_back attribute) in
                  if bool_decide (attribute = "objectclass"%string) then
                    match v with
                    | Some s =>
                        Ok (EqualityFilter attribute (StringValue (toLowerCase s)),
                            reader)
                    | None =>
                        Throw (TypeError
                                 "Cannot read properties of null (reading 'toLowerCase')")
                    end
                  else
                    Ok (EqualityFilter attribute
                          (match v with
                           | Some s => StringValue s
                           | None => NullValue
                           end), reader))
               with
               | Ok (f, _) => Ok f
               | Throw e => Throw e
               end).
Proof.
  intros Hx Hb. unfold parseBinary.
  assert (Hh : holds (newReader (bytes ++ rest)) (r_offset (newReader (bytes ++ rest)))
                 (bytes ++ rest)).
  { split; [cbn; unfold r_size; cbn; lia |]. exists []. cbn. by rewrite app_nil_r. }
  assert (Htag : 0 <= SearchFilter.equalityMatch < 256)
    by (unfold SearchFilter.equalityMatch; lia).
  rewrite (parse_tag_equality _ _ _
             (readSequence_tlv _ _ x bytes Htag Hb (holds_app_l _ _ _ _ Hh))).
  set (r1 := {| r_buf := _; r_offset := _; r_len := _ |}).
  assert (Hh1 : holds r1 (r_offset r1) x).
  { apply (holds_same_buf (newReader (bytes ++ rest))); [done |].
    eapply holds_content; [done |]. by eapply holds_app_l. }
  unfold EqualityFilter_parseFilter.
  rewrite (readString_read_back r1 attribute x Hx Hh1).
  cbn [mbind Result_bind default from_option id].
  set (r2 := {| r_buf := _; r_offset := _; r_len := _ |}).
  assert (Ho : r_offset r2 = Z.of_nat (length bytes)).
  { cbn [r_offset r2 r1 newReader]. pose proof (tlv_length _ _ _ Hb). lia. }
  exists r2. split; [| split].
  - rewrite Ho. apply (holds_same_buf (newReader (bytes ++ rest))); [done |].
    apply (holds_app_r _ 0 bytes rest Hh).
  - rewrite Ho. unfold r_size. cbn [r_buf r2 r1 newReader]. rewrite length_app. lia.
  - by destruct (readString r2 ≫= _) as [[? ?] | ?].
Qed.

(** X13: [EqualityFilter.parseFilter] does not keep within the
    element it reads.  After an [equalityMatch] element that holds only the
    attribute it looks for the value behind the element: when nothing
    follows, the value is [null] (and for the attribute [objectclass] the
    [toLowerCase] of it throws a TypeError); when a byte other than the tag
    of an octet string follows, as inside an [and] or [or] set, the element
    is refused with [Expected 0x4: got ...]; when an octet string follows,
    it is taken for the value. *)
Theorem parse_equality_without_value (attribute x bytes : list byte) (fuel : nat) :
  tlv OctetString attribute = Some x ->
  tlv SearchFilter.equalityMatch x = Some bytes ->
  let a := toLowerCase (read_back attribute) in
  parseBinary (S fuel) bytes
  = Some (if bool_decide (a = "objectclass"%string)
          then Throw (TypeError "Cannot read properties of null (reading 'toLowerCase')")
          else Ok (EqualityFilter a NullValue))
  /\ (forall b rest, byte_val b <> OctetString ->
        parseBinary (S fuel) (bytes ++ b :: rest)
        = Some (Throw (Asn1Expected OctetString (byte_val b))))
  /\ (forall content v rest, tlv OctetString content = Some v ->
        parseBinary (S fuel) (bytes ++ v ++ rest)
        = Some (Ok (EqualityFilter a
                      (StringValue (if bool_decide (a = "objectclass"%string)
                                    then toLowerCase (read_back content)
                                    else read_back content))))).
Proof.
  intros Hx Hb a. split; [| split].
  - destruct (parse_equality_reads_on attribute x bytes [] fuel Hx Hb)
      as (r2 & _ & Hsz & Hp).
    rewrite app_nil_r in Hp. rewrite Hp.
    assert (Hpeek : peek r2 = None).
    { unfold peek. cbn [length] in Hsz.
      destruct (Z.ltb_spec (r_size r2 - r_offset r2) 1); [done | lia]. }
    unfold readString. rewrite Hpeek. cbn [mbind Result_bind].
    fold a. by case_bool_decide.
  - intros b rest Hne.
    destruct (parse_equality_reads_on attribute x bytes (b :: rest) fuel Hx Hb)
      as (r2 & Hh & Hsz & Hp).
    rewrite Hp. unfold readString, peek. cbn [length] in Hsz.
    destruct (Z.ltb_spec (r_size r2 - r_offset r2) 1); [lia |].
    rewrite (holds_byte_at_0 _ _ _ _ Hh).
    apply Z.eqb_neq in Hne. by rewrite Hne.
  - intros content v rest Hv.
    destruct (parse_equality_reads_on attribute x bytes (v ++ rest) fuel Hx Hb)
      as (r2 & Hh & _ & Hp).
    rewrite Hp.
    rewrite (readString_read_back r2 content v Hv (holds_app_l _ _ _ _ Hh)).
    cbn [mbind Result_bind]. fold a. by case_bool_decide.
Qed.

End WireForm.

Section OtherTags.
Import Ber Filters.
Context `{Runtime}.

(** X14: [FilterParser.parse] throws [Invalid search filter type]
    for an element whose tag is none of the ten filter tags, and, with
    [null] for the type, for an input of fewer than two bytes. *)
Theorem parse_refuses_other_tags (tag : Z) (content bytes : list byte) (fuel : nat) :
  (0 <= tag < 256 ->
   tag ∉ [SearchFilter.and; SearchFilter.or; SearchFilter.not;
          SearchFilter.equalityMatch; SearchFilter.substrings;
          SearchFilter.greaterOrEqual; SearchFilter.lessOrEqual;
          SearchFilter.present; SearchFilter.approxMatch;
          SearchFilter.extensibleMatch] ->
   tlv tag content = Some bytes ->
   parseBinary (S fuel) bytes = Some (Throw (InvalidSearchFilterType (Some tag))))
  /\ ((length bytes < 2)%nat ->
      parseBinary (S fuel) bytes = Some (Throw (InvalidSearchFilterType None))).
Proof.
  split.
  - intros Htag Hother Hb. unfold parseBinary.
    assert (Hh : holds (newReader bytes) (r_offset (newReader bytes)) bytes).
    { split; [cbn; unfold r_size; cbn; lia |]. exists []. cbn. by rewrite app_nil_r. }
    cbn [parse]. rewrite (readSequence_tlv _ _ content bytes Htag Hb Hh).
    rewrite !not_elem_of_cons in Hother.
    destruct Hother as (H0 & H1 & H2 & H3 & H4 & H5 & H6 & H7 & H8 & H9 & _).
    apply Z.eqb_neq in H0, H1, H2, H3, H4, H5, H6, H7, H8, H9.
    by rewrite H0, H1, H2, H3, H4, H5, H6, H7, H8, H9.
  - intros Hlen. unfold parseBinary. cbn [parse].
    destruct bytes as [| b [| b' bytes]]; [| | cbn in Hlen; lia].
    + done.
    + unfold readSequence, peek, newReader, r_size. cbn. done.
Qed.

End OtherTags.

Section BinaryFormExamples.
Import Ber Filters.
#[local] Existing Instance ascii_runtime.

Lemma parse_of_encoding_witness :
  exists bytes,
    encodeBinary
      (OrFilter [EqualityFilter "CN" (StringValue "Jim");
                 NotFilter (EqualityFilter "objectClass" (StringValue "Person"))])
    = Ok bytes
    /\ (length bytes <= 40)%nat
    /\ parseBinary 40 (bytes ++ ["000"%byte])
       = Some (Ok (OrFilter [EqualityFilter "cn" (StringValue "Jim");
                             NotFilter (EqualityFilter "objectclass"
                                          (StringValue "person"))])).
Proof.
  eexists. split; [vm_compute; reflexivity |].
  split; [cbn; lia |].
  refine (parse_of_encoding
            (OrFilter [EqualityFilter "CN" (StringValue "Jim");
                       NotFilter (EqualityFilter "objectClass" (StringValue "Person"))])
            _ ["000"%byte] 40 _ _).
  - vm_compute. reflexivity.
  - cbn. lia.
Defined.

Lemma parse_equality_without_value_witness :
  tlv OctetString ["c"; "n"]%byte = Some ["004"; "002"; "c"; "n"]%byte
  /\ tlv SearchFilter.equalityMatch ["004"; "002"; "c"; "n"]%byte
     = Some ["163"; "004"; "004"; "002"; "c"; "n"]%byte
  /\ parseBinary 1 ["163"; "004"; "004"; "002"; "c"; "n"]%byte
     = Some (Ok (EqualityFilter "cn" NullValue))
  /\ parseBinary 1 ["163"; "004"; "004"; "002"; "c"; "n"; "163"; "000"]%byte
     = Some (Throw (Asn1Expected 4 163))
  /\ parseBinary 1 ["163"; "004"; "004"; "002"; "c"; "n"; "004"; "001"; "x"]%byte
     = Some (Ok (EqualityFilter "cn" (StringValue "x"))).
Proof.
  pose proof (parse_equality_without_value ["c"; "n"]%byte
                ["004"; "002"; "c"; "n"]%byte
                ["163"; "004"; "004"; "002"; "c"; "n"]%byte 0 eq_refl eq_refl)
    as H.
  cbv zeta in H. destruct H as (H1 & H2 & H3).
  split; [reflexivity |]. split; [reflexivity |]. split; [exact H1 |].
  split.
  - refine (H2 "163"%byte ["000"%byte] _). vm_compute. discriminate.
  - exact (H3 ["x"%byte] ["004"; "001"; "x"]%byte [] eq_refl).
Defined.

Lemma parse_refuses_other_tags_witness :
  parseBinary 1 ["048"; "000"]%byte
  = Some (Throw (InvalidSearchFilterType (Some 48))).
Proof.
  apply (proj1 (parse_refuses_other_tags 48 [] ["048"; "000"]%byte 0)).
  - lia.
  - compute_done.
  - reflexivity.
Defined.

End BinaryFormExamples.

Section AllVariants.
Import Ber Filters Filters.Full.
Context `{Runtime} `{Classes}.

(** Induction over filters, with the children of [And] and [Or]. *)
Lemma Full_Filter_ind (P : Filter -> Prop)
  (Hand : forall fs, Forall P fs -> P (AndFilter fs))
  (Hor : forall fs, Forall P fs -> P (OrFilter fs))
  (Hnot : forall f, P f -> P (NotFilter f))
  (Heq : forall a v, P (EqualityFilter a v))
  (Hout : forall o, P (OutsideFilter o)) :
  forall f, P f.
Proof.
  fix IH 1. intros [fs | fs | f | a v | o].
  - apply Hand. induction fs as [| f fs IHfs]; constructor; [apply IH | exact IHfs].
  - apply Hor. induction fs as [| f fs IHfs]; constructor; [apply IH | exact IHfs].
  - apply Hnot, IH.
  - apply Heq.
  - apply Hout.
Qed.

Lemma parseSet_loop_S fuel end_ r acc :
  _parseSet_loop (S fuel) end_ r acc
  = if r_offset r <? end_ then
      match parse fuel r with
      | Some (Ok (f, reader)) => _parseSet_loop fuel end_ reader (acc ++ [f])
      | Some (Throw e) => Some (Throw e)
      | None => None
      end
    else Some (Ok (acc, r)).
Proof. reflexivity. Qed.

Lemma parse_S fuel r tag r' :
  readSequence r = Ok (Some tag, r') ->
  parse (S fuel) r
  = if tag =? SearchFilter.and then
      match _parseSet_loop fuel (r_offset r' + r_len r') r' [] with
      | Some (Ok (andFilters, reader)) => Some (Ok (AndFilter andFilters, reader))
      | Some (Throw e) => Some (Throw e)
      | None => None
      end
    else if tag =? SearchFilter.approxMatch then Some (outside_parse tag r')
    else if tag =? SearchFilter.equalityMatch then
      Some (EqualityFilter_parseFilter r')
    else if tag =? SearchFilter.extensibleMatch then Some (outside_parse tag r')
    else if tag =? SearchFilter.greaterOrEqual then Some (outside_parse tag r')
    else if tag =? SearchFilter.lessOrEqual then Some (outside_parse tag r')
    else if tag =? SearchFilter.not then
      match parse fuel r' with
      | Some (Ok (innerFilter, reader)) => Some (Ok (NotFilter innerFilter, reader))
      | other => other
      end
    else if tag =? SearchFilter.or then
      match _parseSet_loop fuel (r_offset r' + r_len r') r' [] with
      | Some (Ok (orFilters, reader)) => Some (Ok (OrFilter orFilters, reader))
      | Some (Throw e) => Some (Throw e)
      | None => None
      end
    else if tag =? SearchFilter.present then Some (outside_parse tag r')
    else if tag =? SearchFilter.substrings then Some (outside_parse tag r')
    else Some (Throw (InvalidSearchFilterType (Some tag))).
Proof. intros E. cbn [parse]. by rewrite E. Qed.

(** What [write] and [parse] do with one filter: [write] appends an
    element, and [parse], with the reader on that element, returns the
    filter in its parsed form and leaves the reader behind the element. *)
Definition written_and_read (f : Filter) : Prop :=
  forall w w', write f w = Ok w' ->
  exists bs,
    w' = put bs w /\ (2 <= length bs)%nat
    /\ forall r fuel,
         holds r (r_offset r) bs -> (length bs <= fuel)%nat ->
         exists len,
           parse fuel r
           = Some (Ok (as_parsed f,
                       {| r_buf := r_buf r;
                          r_offset := r_offset r + Z.of_nat (length bs);
                          r_len := len |})).

Lemma for_of_written_and_read fs :
  Forall written_and_read fs ->
  forall w w', for_of write fs w = Ok w' ->
  exists body,
    w' = put body w
    /\ forall r acc fuel,
         holds r (r_offset r) body -> (length body < fuel)%nat ->
         exists len,
           _parseSet_loop fuel (r_offset r + Z.of_nat (length body)) r acc
           = Some (Ok (acc ++ map as_parsed fs,
                       {| r_buf := r_buf r;
                          r_offset := r_offset r + Z.of_nat (length body);
                          r_len := len |})).
Proof.
  induction 1 as [| f fs Hf _ IH]; intros w w' Hw; cbn [for_of] in Hw.
  - injection Hw as <-. exists []. split; [by rewrite put_nil |].
    intros r acc fuel _ Hfuel. destruct fuel as [| fuel]; [cbn in Hfuel; lia |].
    rewrite parseSet_loop_S. cbn [length map].
    rewrite Z.add_0_r, Z.ltb_irrefl, app_nil_r. exists (r_len r). by destruct r.
  - destruct (write f w) as [w1 |] eqn:E1; [| done]. cbn [mbind Result_bind] in Hw.
    destruct (Hf _ _ E1) as (b & -> & Hb2 & Hparse).
    destruct (IH _ _ Hw) as (bs & -> & Hloop).
    exists (b ++ bs). split; [by rewrite put_put |].
    intros r acc fuel Hh Hfuel. rewrite length_app in Hfuel |- *.
    destruct fuel as [| fuel]; [lia |]. rewrite parseSet_loop_S.
    destruct (Z.ltb_spec (r_offset r) (r_offset r + Z.of_nat (length b + length bs)));
      [| lia].
    destruct (Hparse r fuel) as [len1 ->]; [by eapply holds_app_l | lia |].
    set (r1 := {| r_buf := r_buf r; r_offset := r_offset r + Z.of_nat (length b);
                  r_len := len1 |}).
    destruct (Hloop r1 (acc ++ [as_parsed f]) fuel) as [len2 Hl].
    { apply (holds_same_buf r); [done |]. by apply holds_app_r. }
    { lia. }
    cbn [r_offset r1 r_buf] in Hl.
    replace (r_offset r + Z.of_nat (length b + length bs))
      with (r_offset r + Z.of_nat (length b) + Z.of_nat (length bs)) by lia.
    rewrite Hl. exists len2. cbn [map]. by rewrite <- app_assoc.
Qed.

Lemma outside_tag_range :
  outside_tags -> forall o, 0 <= outside_type o < 256.
Proof.
  intros Htags o. specialize (Htags o).
  repeat (apply elem_of_cons in Htags as [-> | Htags]; [done |]).
  by apply elem_of_nil in Htags.
Qed.

Lemma parse_outside fuel r r' :
  outside_tags -> forall o,
  readSequence r = Ok (Some (outside_type o), r') ->
  parse (S fuel) r = Some (outside_parse (outside_type o) r').
Proof.
  intros Htags o E. rewrite (parse_S fuel r _ _ E). specialize (Htags o).
  repeat (apply elem_of_cons in Htags as [-> | Htags]; [done |]).
  by apply elem_of_nil in Htags.
Qed.

Lemma write_parse :
  outside_tags -> outside_round_trip -> forall f, written_and_read f.
Proof.
  intros Htags Hround.
  induction f as [fs IH | fs IH | f IH | a v | o] using Full_Filter_ind;
    intros w w' Hw; cbn [write] in Hw.
  - destruct (for_of write fs _) as [w1 |] eqn:E; [| done]. cbn [mbind Result_bind] in Hw.
    destruct (for_of_written_and_read fs IH _ _ E) as (body & -> & Hloop).
    apply endSequence_tlv in Hw as (bs & Hbs & ->).
    pose proof (tlv_length _ _ _ Hbs) as Hl.
    exists bs. split; [done |]. split; [lia |].
    intros r fuel Hh Hfuel. destruct fuel as [| fuel]; [lia |].
    rewrite (parse_S fuel r _ _ (readSequence_tlv r SearchFilter.and body bs ltac:(done) Hbs Hh)).
    change (type (AndFilter fs) =? SearchFilter.and) with true. cbn iota.
    cbn [r_offset r_len].
    set (r1 := {| r_buf := r_buf r;
                  r_offset := r_offset r + Z.of_nat (length bs - length body);
                  r_len := Z.of_nat (length body) |}).
    destruct (Hloop r1 [] fuel) as [len Hl1].
    { apply (holds_same_buf r); [done |]. by eapply holds_content. }
    { lia. }
    cbn [r_offset r1 r_buf] in Hl1. rewrite Hl1. cbn [app as_parsed].
    exists len. do 4 f_equal. lia.
  - destruct (for_of write fs _) as [w1 |] eqn:E; [| done]. cbn [mbind Result_bind] in Hw.
    destruct (for_of_written_and_read fs IH _ _ E) as (body & -> & Hloop).
    apply endSequence_tlv in Hw as (bs & Hbs & ->).
    pose proof (tlv_length _ _ _ Hbs) as Hl.
    exists bs. split; [done |]. split; [lia |].
    intros r fuel Hh Hfuel. destruct fuel as [| fuel]; [lia |].
    rewrite (parse_S fuel r _ _ (readSequence_tlv r SearchFilter.or body bs ltac:(done) Hbs Hh)).
    change (type (OrFilter fs) =? SearchFilter.and) with false.
    change (type (OrFilter fs) =? SearchFilter.approxMatch) with false.
    change (type (OrFilter fs) =? SearchFilter.equalityMatch) with false.
    change (type (OrFilter fs) =? SearchFilter.extensibleMatch) with false.
    change (type (OrFilter fs) =? SearchFilter.greaterOrEqual) with false.
    change (type (OrFilter fs) =? SearchFilter.lessOrEqual) with false.
    change (type (OrFilter fs) =? SearchFilter.not) with false.
    change (type (OrFilter fs) =? SearchFilter.or) with true. cbn iota.
    cbn [r_offset r_len].
    set (r1 := {| r_buf := r_buf r;
                  r_offset := r_offset r + Z.of_nat (length bs - length body);
                  r_len := Z.of_nat (length body) |}).
    destruct (Hloop r1 [] fuel) as [len Hl1].
    { apply (holds_same_buf r); [done |]. by eapply holds_content. }
    { lia. }
    cbn [r_offset r1 r_buf] in Hl1. rewrite Hl1. cbn [app as_parsed].
    exists len. do 4 f_equal. lia.
  - destruct (write f _) as [w1 |] eqn:E; [| done]. cbn [mbind Result_bind] in Hw.
    destruct (IH _ _ E) as (body & -> & Hb2 & Hparse).
    apply endSequence_tlv in Hw as (bs & Hbs & ->).
    pose proof (tlv_length _ _ _ Hbs) as Hl.
    exists bs. split; [done |]. split; [lia |].
    intros r fuel Hh Hfuel. destruct fuel as [| fuel]; [lia |].
    rewrite (parse_S fuel r _ _ (readSequence_tlv r SearchFilter.not body bs ltac:(done) Hbs Hh)).
    change (type (NotFilter f) =? SearchFilter.and) with false.
    change (type (NotFilter f) =? SearchFilter.approxMatch) with false.
    change (type (NotFilter f) =? SearchFilter.equalityMatch) with false.
    change (type (NotFilter f) =? SearchFilter.extensibleMatch) with false.
    change (type (NotFilter f) =? SearchFilter.greaterOrEqual) with false.
    change (type (NotFilter f) =? SearchFilter.lessOrEqual) with false.
    change (type (NotFilter f) =? SearchFilter.not) with true. cbn iota.
    set (r1 := {| r_buf := r_buf r;
                  r_offset := r_offset r + Z.of_nat (length bs - length body);
                  r_len := Z.of_nat (length body) |}).
    destruct (Hparse r1 fuel) as [len Hp].
    { apply (holds_same_buf r); [done |]. by eapply holds_content. }
    { lia. }
    rewrite Hp. cbn [r_offset r1 r_buf as_parsed].
    exists len. do 4 f_equal. lia.
  - destruct (EqualityFilter_writeFilter a v _) as [w1 |] eqn:E; [| done].
    cbn [mbind Result_bind] in Hw. unfold EqualityFilter_writeFilter in E.
    destruct (writeString a OctetString _) as [w2 |] eqn:E2; [| done].
    cbn [mbind Result_bind] in E.
    apply writeString_tlv in E2 as (x & Ex & ->).
    set (content := match v with
                    | StringValue s => utf8_encode s
                    | BufferValue b => buf_data b
                    | NullValue => []
                    end).
    assert (exists y, tlv OctetString content = Some y
                      /\ w1 = put (x ++ y) (startSequence SearchFilter.equalityMatch w))
      as (y & Ey & ->).
    { destruct v as [s | b |]; [| | done].
      - apply writeString_tlv in E as (y & Hy & ->). exists y. by rewrite put_put.
      - apply writeBuffer_tlv in E as (_ & y & Hy & ->). exists y. by rewrite put_put. }
    apply endSequence_tlv in Hw as (bs & Hbs & ->).
    pose proof (tlv_length _ _ _ Hbs) as Hl.
    exists bs. split; [done |]. split; [lia |].
    intros r fuel Hh Hfuel. destruct fuel as [| fuel]; [lia |].
    rewrite (parse_S fuel r _ _ (readSequence_tlv r SearchFilter.equalityMatch (x ++ y) bs ltac:(done) Hbs Hh)).
    change (SearchFilter.equalityMatch =? SearchFilter.and) with false.
    change (SearchFilter.equalityMatch =? SearchFilter.approxMatch) with false.
    change (SearchFilter.equalityMatch =? SearchFilter.equalityMatch) with true.
    cbn iota.
    set (r1 := {| r_buf := r_buf r;
                  r_offset := r_offset r + Z.of_nat (length bs - length (x ++ y));
                  r_len := Z.of_nat (length (x ++ y)) |}).
    assert (Hh1 : holds r1 (r_offset r1) (x ++ y)).
    { apply (holds_same_buf r); [done |]. cbn [r_offset r1]. by eapply holds_content. }
    unfold EqualityFilter_parseFilter.
    rewrite (readString_read_back r1 (utf8_encode a) x Ex (holds_app_l _ _ _ _ Hh1)).
    cbn [mbind Result_bind default from_option id].
    set (r2 := {| r_buf := r_buf r1; r_offset := r_offset r1 + Z.of_nat (length x);
                  r_len := Z.of_nat (length (utf8_encode a)) |}).
    assert (Hh2 : holds r2 (r_offset r2) y).
    { apply (holds_same_buf r1); [done |]. cbn [r_offset r2]. by apply holds_app_r. }
    rewrite (readString_read_back r2 content y Ey Hh2).
    cbn [mbind Result_bind as_parsed]. fold content.
    eexists.
    case_bool_decide as Ho.
    + do 4 f_equal. cbn [r_offset r2 r1]. rewrite length_app in *. lia.
    + do 4 f_equal. cbn [r_offset r2 r1]. rewrite length_app in *. lia.
  - destruct (outside_writeFilter o _) as [w1 |] eqn:E; [| done].
    cbn [mbind Result_bind] in Hw.
    destruct (Hround _ _ _ E) as (content & -> & Hread).
    apply endSequence_tlv in Hw as (bs & Hbs & ->).
    pose proof (tlv_length _ _ _ Hbs) as Hl.
    exists bs. split; [done |]. split; [lia |].
    intros r fuel Hh Hfuel. destruct fuel as [| fuel]; [lia |].
    cbn [type] in Hbs.
    rewrite (parse_outside fuel r _ Htags o
               (readSequence_tlv r _ content bs (outside_tag_range Htags o) Hbs Hh)).
    set (r1 := {| r_buf := r_buf r;
                  r_offset := r_offset r + Z.of_nat (length bs - length content);
                  r_len := Z.of_nat (length content) |}).
    destruct (Hread r1) as [len Hp].
    { apply (holds_same_buf r); [done |]. by eapply holds_content. }
    { done. }
    unfold outside_parse. rewrite Hp. cbn [mbind Result_bind as_parsed r_buf r_offset r1].
    exists len. do 4 f_equal. lia.
Qed.

Lemma parsed_form_all fs :
  (fix all (fs : list Filter) : Prop :=
     match fs with
     | [] => True
     | f :: fs => parsed_form f /\ all fs
     end) fs <-> Forall parsed_form fs.
Proof.
  induction fs as [| f fs IH]; [by split; [constructor |] |].
  rewrite Forall_cons, IH. done.
Qed.

Lemma read_back_stable s : utf8_stable s -> read_back (utf8_encode s) = s.
Proof. unfold utf8_stable, read_back. by destruct (utf8_encode s). Qed.

Lemma as_parsed_parsed_form f : parsed_form f -> as_parsed f = f.
Proof.
  induction f as [fs IH | fs IH | f IH | a v | o] using Full_Filter_ind;
    cbn [parsed_form as_parsed]; intros Hpf.
  - apply parsed_form_all in Hpf. f_equal.
    induction IH as [| f fs Hf _ IHfs]; [done |].
    apply Forall_cons in Hpf as [Hf1 Hfs]. cbn [map]. by rewrite (Hf Hf1), (IHfs Hfs).
  - apply parsed_form_all in Hpf. f_equal.
    induction IH as [| f fs Hf _ IHfs]; [done |].
    apply Forall_cons in Hpf as [Hf1 Hfs]. cbn [map]. by rewrite (Hf Hf1), (IHfs Hfs).
  - by rewrite (IH Hpf).
  - destruct v as [s | b |]; [| done | done].
    destruct Hpf as (Hla & Hsa & Hss & Hoc).
    rewrite !read_back_stable, Hla by done.
    case_bool_decide as Ho; [| done]. by rewrite (Hoc Ho).
  - done.
Qed.

(** C1 (as amended): [FilterParser.parse] gives a filter of any of the ten
    variants back from its encoding with every [EqualityFilter] in the form
    [parseFilter] leaves it in, and nothing else changed: the attribute read
    back and put in lower case, the value read back as a string (also when
    it was a Buffer) and put in lower case when the attribute is
    [objectclass].  So a filter whose [EqualityFilter]s are in that form
    already comes back as it was.  The six classes that are not among the
    sources are taken to read back what they wrote, as the spec says of
    them; fuel of the length of the encoding is enough for the parser's
    recursion. *)
Theorem C1_binary_round_trip (F : Filter) (bytes : list byte) (fuel : nat) :
  outside_tags -> outside_round_trip ->
  encodeBinary F = Ok bytes ->
  (length bytes <= fuel)%nat ->
  parseBinary fuel bytes = Some (Ok (as_parsed F))
  /\ (parsed_form F -> parseBinary fuel bytes = Some (Ok F)).
Proof.
  intros Htags Hround Henc Hfuel.
  assert (Hp : parseBinary fuel bytes = Some (Ok (as_parsed F))).
  { unfold encodeBinary in Henc.
    destruct (write F newWriter) as [w |] eqn:Ew; [| done].
    cbn in Henc. injection Henc as <-.
    destruct (write_parse Htags Hround F _ _ Ew) as (bs & -> & _ & Hparse).
    cbn [put newWriter w_buf app] in *. unfold parseBinary.
    destruct (Hparse (newReader bs) fuel) as [len ->]; [| done | done].
    split; [cbn; unfold r_size; cbn; lia |]. exists []. cbn. by rewrite app_nil_r. }
  split; [exact Hp |]. intros Hpf. by rewrite Hp, (as_parsed_parsed_form F Hpf).
Qed.

End AllVariants.

Section AllVariantsExamples.
Import Ber Filters Filters.Full.
#[local] Existing Instance ascii_runtime.
#[local] Existing Instance example_classes.

Lemma example_classes_tags : outside_tags.
Proof.
  intros filter. cbn [outside_type example_classes].
  do 4 apply list_elem_of_further. apply list_elem_of_here.
Qed.

Lemma example_classes_round_trip : outside_round_trip.
Proof.
  intros filter writer writer' [= <-]. exists filter. split; [done |].
  intros reader Hh Hlen. exists (r_len reader).
  cbn [outside_parseFilter outside_type example_classes]. f_equal. f_equal.
  - unfold slice. rewrite Hlen.
    pose proof (holds_size _ _ _ Hh) as Hsz.
    destruct Hh as [[Ho _] [rest Hr]]. fold (r_size reader).
    destruct (Z.ltb_spec (r_offset reader + Z.of_nat (length filter)) 0); [lia |].
    destruct (Z.ltb_spec (r_offset reader) 0); [lia |].
    rewrite !Z.min_l by lia.
    replace (Z.to_nat (r_offset reader + Z.of_nat (length filter) - r_offset reader))
      with (length filter) by lia.
    rewrite Hr. by rewrite take_app_length.
  - unfold set_offset. by rewrite Hlen.
Qed.

Lemma C1_binary_round_trip_witness :
  outside_tags /\ outside_round_trip
  /\ exists bytes,
       encodeBinary
         (AndFilter [EqualityFilter "CN" (StringValue "Jim");
                     OutsideFilter ["s"; "n"]%byte;
                     NotFilter (EqualityFilter "objectclass" (StringValue "person"))])
       = Ok bytes
       /\ parseBinary (length bytes) bytes
          = Some (Ok (AndFilter
                        [EqualityFilter "cn" (StringValue "Jim");
                         OutsideFilter ["s"; "n"]%byte;
                         NotFilter (EqualityFilter "objectclass"
                                      (StringValue "person"))])).
Proof.
  split; [exact example_classes_tags |]. split; [exact example_classes_round_trip |].
  eexists. split; [vm_compute; reflexivity |].
  refine (proj1 (C1_binary_round_trip
                   (AndFilter [EqualityFilter "CN" (StringValue "Jim");
                               OutsideFilter ["s"; "n"]%byte;
                               NotFilter (EqualityFilter "objectclass"
                                            (StringValue "person"))])
                   _ _ example_classes_tags example_classes_round_trip _ _)).
  - vm_compute. reflexivity.
  - apply le_n.
Defined.

End AllVariantsExamples.

Section HandlerFacts.
Import Client.

Lemma socketError_step_table err c entry :
  messageDetailsByMessageId (socketError_step err c entry)
  = delete entry.1 (messageDetailsByMessageId c).
Proof.
  destruct entry as [k md]. unfold socketError_step. cbn.
  by destruct (instanceof_UnbindRequest (message md)).
Qed.

Lemma socketError_step_effects err c entry :
  effects (socketError_step err c entry) = effects c ++ [settle_on_error err entry].
Proof.
  destruct entry as [k md]. unfold socketError_step, settle_on_error. cbn.
  by destruct (instanceof_UnbindRequest (message md)).
Qed.

Lemma socketError_step_connection err c entry :
  connected (socketError_step err c entry) = connected c
  /\ socket (socketError_step err c entry) = socket c.
Proof.
  destruct entry as [k md]. unfold socketError_step. cbn.
  by destruct (instanceof_UnbindRequest (message md)).
Qed.

Lemma socketError_loop err entries : forall c,
  let c' := fold_left (socketError_step err) entries c in
  (forall key, messageDetailsByMessageId c' !! key
               = if decide (key ∈ entries.*1) then None
                 else messageDetailsByMessageId c !! key)
  /\ effects c' = effects c ++ map (settle_on_error err) entries
  /\ connected c' = connected c /\ socket c' = socket c.
Proof.
  induction entries as [| e entries IH]; intros c; cbn [fold_left map].
  - split; [| by rewrite app_nil_r]. intros key.
    by rewrite decide_False by apply not_elem_of_nil.
  - destruct (IH (socketError_step err c e)) as (Ht & He & Hc & Hs).
    destruct (socketError_step_connection err c e) as [Hc' Hs'].
    cbv zeta. rewrite He, Hc, Hs, socketError_step_effects, <- app_assoc.
    split; [| done]. intros key. rewrite Ht, socketError_step_table.
    cbn [fmap list_fmap]. destruct (decide (key ∈ entries.*1)) as [Hin | Hin].
    + by rewrite decide_True by (by right).
    + destruct (decide (key = e.1)) as [-> | Hne].
      * rewrite decide_True by (by left). apply lookup_delete_eq.
      * rewrite decide_False by (rewrite not_elem_of_cons; done).
        by rewrite lookup_delete_ne.
Qed.

(** X15: when the [error] event of the socket fires,
    every pending request is settled, on whichever socket it was sent: an
    [UnbindRequest] is resolved, any other request rejected, in the order
    of the message ids; the pending request table is left empty and the
    client's socket is destroyed.  The [connected] flag and the socket
    stay as they are. *)
Theorem socketError_settles_all (err : string) (c : Client) :
  let c' := socketError err c in
  messageDetailsByMessageId c' = ∅
  /\ effects c'
     = effects c
       ++ map (settle_on_error err) (Object_entries (messageDetailsByMessageId c))
       ++ match socket c with Some s => [Destroyed (sock_ref s)] | None => [] end
  /\ connected c' = connected c
  /\ socket c' = socket c.
Proof.
  unfold socketError.
  destruct (socketError_loop err (Object_entries (messageDetailsByMessageId c)) c)
    as (Ht & He & Hc & Hs).
  cbv zeta in *.
  set (c1 := fold_left _ _ c) in *.
  assert (Hempty : messageDetailsByMessageId c1 = ∅).
  { apply map_empty. intros key. rewrite Ht.
    destruct (decide _) as [Hin | Hin]; [done |].
    destruct (messageDetailsByMessageId c !! key) as [md |] eqn:Hk; [| done].
    exfalso. apply Hin. apply list_elem_of_fmap. exists (key, md).
    split; [done |]. by apply elem_of_Object_entries. }
  rewrite Hs. destruct (socket c) as [s |]; cbn.
  - by rewrite He, <- app_assoc.
  - by rewrite He, app_nil_r.
Qed.

Lemma _send_Ok message c c1 s :
  socket c = Some s -> _send message c = Ok c1 ->
  connected c = true
  /\ c1 = log (Written (sock_ref s) message)
            (set_table
               (<[messageId_of message :=
                    {| message := message; md_searchEntries := None;
                       md_searchReferences := None;
                       timeoutTimer := if timeout c =? 0 then None else Some (timeout c);
                       md_socket := s |}]> (messageDetailsByMessageId c)) c).
Proof.
  intros Hs. unfold _send. rewrite Hs. destruct (connected c); [| done].
  by intros [= <-].
Qed.

(** X16: the timer of a request acts on the entry that is
    pending under the id the message object has when the timer fires, which
    for the request of a paged search is the id of the page asked for last.
    If there is such an entry, the callback ends the socket of that entry
    (the [connected] flag is cleared when that socket is still the
    client's), calls the reject function of the promise of the send that
    started the timer, and leaves the table as it is; if there is none, it
    does nothing.  So in a paged search the timer of the first page, firing
    while the second page is awaited, ends the socket, and the reject it
    calls is that of the first page's promise, which is resolved already. *)
Theorem timeout_acts_on_current_id (key : Z) (message : Message) (c : Client) :
  (forall messageDetails,
     messageDetailsByMessageId c !! messageId_of message = Some messageDetails ->
     let c2 := _send_timeout key message c in
     effects c2
     = effects c
       ++ [Ended (sock_ref (md_socket messageDetails));
           Reject key (Error (constructor_name message +:+ ": Operation timed out"))]
     /\ connected c2
        = (if is_this_socket (md_socket messageDetails) c then false
           else connected c)
     /\ socket c2 = socket c
     /\ messageDetailsByMessageId c2 = messageDetailsByMessageId c)
  /\ (messageDetailsByMessageId c !! messageId_of message = None ->
      _send_timeout key message c = c)
  /\ (forall (p : Page) (r : SearchRequest) (acc : SearchResult) (pageSize : Z)
             (value : option PagedValue) (s : Socket) (cookie : Buffer),
        connected c = true -> socket c = Some s ->
        goes_on r true (Some value) p = Some cookie ->
        let first := (_nextMessageId c).1 in
        let run := _sendSearch [p] r acc true pageSize (Some value) c in
        exists (second : Z) (request : Message),
          completion run = Pending second
          /\ second <> first
          /\ messageId_of request = second
          /\ last (written (client run)) = Some request
          /\ let c2 := _send_timeout first request (client run) in
             connected c2 = false
             /\ effects c2
                = effects (client run)
                  ++ [Ended (sock_ref s);
                      Reject first (Error "SearchRequest: Operation timed out")]).
Proof.
  split; [| split].
  - intros md Hmd. cbv zeta. unfold _send_timeout. rewrite Hmd.
    unfold _endSocket. destruct (is_this_socket (md_socket md) c); cbn;
      by rewrite <- !app_assoc.
  - intros Hmd. unfold _send_timeout. by rewrite Hmd.
  - intros p r acc pageSize value s cookie Hc Hs Hgo first run.
    assert (Hacc : accepted r (page_status p) = true).
    { unfold goes_on in Hgo. by destruct (accepted r (page_status p)). }
    subst run. rewrite (_sendSearch_step [] p r acc true pageSize (Some value) s c Hc Hs).
    rewrite Hacc, Hgo. cbn [negb].
    set (c1 := answered p (first_request r (Some value) c) s c).
    set (r1 := with_messageId (_nextMessageId c).1 r).
    set (acc1 := push_references _ _).
    set (ctrl1 := Some (Some (next_value pageSize (Some value) cookie))).
    assert (Hc1 : connected c1 = true) by done.
    assert (Hs1 : socket c1 = Some s) by done.
    cbn [_sendSearch].
    destruct (_nextMessageId c1) as [second c0] eqn:Hn.
    assert (c0 = set_messageId second c1) as ->
      by (unfold _nextMessageId in Hn; by simplify_eq).
    assert (Hsecond : second <> first).
    { replace second with (_nextMessageId c1).1 by (by rewrite Hn).
      subst first c1. unfold answered, first_request, _nextMessageId. cbn.
      change MAX_MESSAGE_ID with 2147483647. repeat case_match; lia. }
    set (request := SearchRequestMessage (with_messageId second r1)
                      (sent_controls (with_messageId second r1) ctrl1)).
    unfold _send. cbn [connected socket set_messageId]. rewrite Hc1, Hs1.
    exists second, request. cbn [completion client].
    split; [done |]. split; [done |]. split; [done |].
    split.
    { rewrite written_log. apply last_snoc. }
    unfold _send_timeout.
    cbn [messageDetailsByMessageId log set_table messageId_of with_messageId
           req_messageId request].
    rewrite lookup_insert_eq. cbn [md_socket constructor_name request].
    unfold _endSocket, is_this_socket. cbn [socket log set_table set_messageId].
    rewrite Hs1, bool_decide_true by done. cbn. by rewrite <- !app_assoc.
Qed.

(** X17: an [AbandonRequest] is resolved as soon as it is
    written: its entry is taken out of the pending request table, and a
    message that comes in under its id afterwards is ignored. *)
Theorem abandon_is_settled_when_written (i : Z) (c c1 : Client) (s : Socket) :
  socket c = Some s -> _send (AbandonRequest i) c = Ok c1 ->
  let c2 := _send_written (AbandonRequest i) c1 in
  messageDetailsByMessageId c2 = delete i (messageDetailsByMessageId c)
  /\ effects c2
     = effects c ++ [Written (sock_ref s) (AbandonRequest i); Resolve i None]
  /\ forall response, messageId_of response = i ->
       _handleSendResponse response c2 = (c2, None).
Proof.
  intros Hs Hsend. destruct (_send_Ok _ _ _ _ Hs Hsend) as [Hc ->].
  cbn [_send_written messageId_of messageDetailsByMessageId log set_table effects].
  rewrite delete_insert_eq. split; [done |]. split; [by rewrite <- app_assoc |].
  intros response Hid. unfold _handleSendResponse.
  cbn [messageDetailsByMessageId log set_table]. by rewrite Hid, lookup_delete_eq.
Qed.

Lemma handle_ending_message response c md :
  messageDetailsByMessageId c !! messageId_of response = Some md ->
  md_searchEntries md = None -> md_searchReferences md = None ->
  ends_request response = true ->
  _handleSendResponse response c
  = (log (Resolve (messageId_of response) (Some response))
       (set_table (delete (messageId_of response) (messageDetailsByMessageId c)) c),
     Some response).
Proof.
  intros Hmd He Hr Hends. unfold _handleSendResponse. rewrite Hmd.
  destruct response as [| | | | | | r |]; try done.
  rewrite He, Hr. cbn [default from_option id]. rewrite !app_nil_r. by destruct r.
Qed.

(** X18: the message that ends a request resolves the
    promise [_send] returned for it and takes the request out of the
    pending request table, which is then as it was before the request if
    the id was not in use; a second message under the same id is ignored. *)
Theorem response_settles_request (request response : Message) (c c1 : Client)
    (s : Socket) :
  socket c = Some s -> _send request c = Ok c1 ->
  messageId_of response = messageId_of request ->
  ends_request response = true ->
  let c2 := (_handleSendResponse response c1).1 in
  (_handleSendResponse response c1).2 = Some response
  /\ effects c2
     = effects c ++ [Written (sock_ref s) request;
                     Resolve (messageId_of request) (Some response)]
  /\ messageDetailsByMessageId c2
     = delete (messageId_of request) (messageDetailsByMessageId c)
  /\ (messageDetailsByMessageId c !! messageId_of request = None ->
      messageDetailsByMessageId c2 = messageDetailsByMessageId c)
  /\ forall again, messageId_of again = messageId_of request ->
       _handleSendResponse again c2 = (c2, None).
Proof.
  intros Hs Hsend Hid Hends. destruct (_send_Ok _ _ _ _ Hs Hsend) as [Hc ->].
  cbv zeta. erewrite handle_ending_message; [| | | | done].
  2:{ cbn [messageDetailsByMessageId log set_table]. rewrite Hid. apply lookup_insert_eq. }
  2,3: done.
  cbn [fst snd effects messageDetailsByMessageId log set_table].
  rewrite Hid, delete_insert_eq, <- app_assoc.
  split; [done |]. split; [done |]. split; [done |]. split.
  - intros Hn. by apply delete_id.
  - intros again Hag. unfold _handleSendResponse.
    cbn [messageDetailsByMessageId log set_table]. by rewrite Hag, lookup_delete_eq.
Qed.

End HandlerFacts.

Section OperationFacts.
Import Client.

(** X19: on a connected client [unbind] writes an
    [UnbindRequest] under the next message id and waits; when the request
    has been written the socket is ended and the client is no longer
    connected, so that a second [unbind] does nothing; the [close] event of
    the socket then resolves the call, forgets the socket and leaves no
    entry for the request. *)
Theorem unbind_is_resolved_by_close (c : Client) (s : Socket) :
  connected c = true -> socket c = Some s ->
  let i := (_nextMessageId c).1 in
  exists c1,
    unbind c = (Pending i, c1)
    /\ written c1 = written c ++ [UnbindRequest i]
    /\ let c2 := _send_written (UnbindRequest i) c1 in
       connected c2 = false
       /\ effects c2 = effects c1 ++ [Ended (sock_ref s)]
       /\ unbind c2 = (Resolved tt, c2)
       /\ let c3 := socketClose s c2 in
          connected c3 = false
          /\ socket c3 = None
          /\ Resolve i None ∈ drop (length (effects c2)) (effects c3)
          /\ messageDetailsByMessageId c3 !! i = None.
Proof.
  intros Hc Hs i. unfold unbind. rewrite Hc, Hs.
  rewrite bool_decide_true by eauto. cbn [negb orb].
  destruct (_nextMessageId c) as [i' c0] eqn:Hn. subst i. cbn [fst].
  assert (c0 = set_messageId i' c) as -> by (unfold _nextMessageId in Hn; by simplify_eq).
  unfold _send. cbn [connected socket set_messageId]. rewrite Hc, Hs.
  eexists. split; [done |]. split; [by rewrite written_log |].
  cbn [_send_written socket log set_table set_messageId]. rewrite Hs.
  unfold _endSocket, is_this_socket. cbn [socket log set_table set_messageId].
  rewrite Hs, bool_decide_true by done.
  split; [done |]. split; [done |]. split; [done |].
  unfold socketClose, is_this_socket.
  cbn [socket log set_table set_messageId set_connection].
  rewrite bool_decide_true by done.
  cbn [messageDetailsByMessageId log set_table set_messageId set_connection].
  set (md := {| message := UnbindRequest i'; md_socket := s |}).
  set (t := <[messageId_of (UnbindRequest i') := md]> (messageDetailsByMessageId c)).
  set (c2 := set_connection false None _).
  assert (Hin : (i', md) ∈ Object_entries t).
  { apply elem_of_Object_entries. apply lookup_insert_eq. }
  pose proof (socketClose_loop_effects s (Object_entries t) c2) as He.
  assert (Hcs : forall entries c',
            connected (fold_left (socketClose_step s) entries c') = connected c'
            /\ socket (fold_left (socketClose_step s) entries c') = socket c').
  { induction entries as [| [k m] entries IH]; intros c'; [done |].
    cbn [fold_left]. destruct (IH (socketClose_step s c' (k, m))) as [-> ->].
    unfold socketClose_step. case_bool_decide; [| done].
    by destruct (instanceof_UnbindRequest (message m)). }
  destruct (Hcs (Object_entries t) c2) as [-> ->].
  split; [done |]. split; [done |]. split.
  - rewrite He. subst c2. cbn [effects set_connection log].
    rewrite drop_app_length.
    apply (elem_of_concat_map _ _ (i', md)); [done |].
    unfold settle_on_close. cbn. rewrite bool_decide_true by done.
    by apply list_elem_of_singleton.
  - by apply (socketClose_loop_removes s _ c2 i' md).
Qed.

Lemma goes_on_with_messageId i r paged ctrl p :
  goes_on (with_messageId i r) paged ctrl p = goes_on r paged ctrl p.
Proof. done. Qed.

Lemma goes_on_value r v w p :
  goes_on r true (Some v) p = goes_on r true (Some w) p.
Proof.
  unfold goes_on. by rewrite !(bool_decide_true (is_Some (Some _))) by eauto.
Qed.

(** X20: a paged search whose pages each ask for a next one,
    up to a page that is accepted and ends the paging, resolves after that
    page; the result holds the entries and the references of all these
    pages in the order they came, and one request was written for each of
    them. *)
Theorem paged_search_collects_pages (ps rest : list Page) (last : Page)
    (r : SearchRequest) (acc : SearchResult) (pageSize : Z)
    (value : option PagedValue) (s : Socket) (c : Client) :
  connected c = true -> socket c = Some s ->
  Forall (fun p => is_Some (goes_on r true (Some None) p)) ps ->
  accepted r (page_status last) = true ->
  goes_on r true (Some None) last = None ->
  let run := _sendSearch (ps ++ last :: rest) r acc true pageSize (Some value) c in
  completion run = Resolved tt
  /\ searchEntries (result run)
     = searchEntries acc ++ concat (map (entries_of r) (ps ++ [last]))
  /\ searchReferences (result run)
     = searchReferences acc ++ concat (map references_of (ps ++ [last]))
  /\ length (written (client run)) = (length (written c) + length ps + 1)%nat.
Proof.
  intros Hc Hs Hps Hacc Hlast. cbv zeta.
  revert r acc value c Hc Hs Hps Hacc Hlast.
  induction ps as [| p ps IH]; intros r acc value c Hc Hs Hps Hacc Hlast.
  - cbn [app]. rewrite (_sendSearch_step rest last r acc true pageSize (Some value) s c Hc Hs).
    rewrite Hacc, (goes_on_value r value None), Hlast.
    cbn [negb completion result client map concat searchEntries searchReferences
         push_references push_entries].
    rewrite written_answered, length_app, !app_nil_r. cbn. split; [done |].
    split; [done |]. split; [done |]. lia.
  - apply Forall_cons in Hps as [[cookie Hp] Hps].
    cbn [app]. rewrite (_sendSearch_step _ p r acc true pageSize (Some value) s c Hc Hs).
    assert (Hpacc : accepted r (page_status p) = true).
    { unfold goes_on in Hp. by destruct (accepted r (page_status p)). }
    rewrite Hpacc, (goes_on_value r value None), Hp. cbn [negb].
    set (r1 := with_messageId _ r).
    set (c1 := answered p _ s c).
    destruct (IH r1 (push_references (page_references p) (push_entries r (page_entries p) acc))
                (Some (next_value pageSize (Some value) cookie)) c1)
      as (H1 & H2 & H3 & H4); [done.. |].
    rewrite H1, H2, H3, H4. subst c1. rewrite written_answered, length_app.
    cbn [map concat searchEntries searchReferences push_references push_entries length].
    split; [done |]. split; [by rewrite <- !app_assoc |].
    split; [by rewrite <- !app_assoc |]. lia.
Qed.

(** X21: a search without paging writes one request at
    most, whatever the server answers, and no control of that request is a
    [PagedResultsControl]. *)
Theorem search_without_paging_asks_once
    (parseString : string -> Result Filters.Filter) (baseDN : string)
    (options : SearchOptions) (controls : ControlsArg)
    (outcome : ConnectOutcome) (pages : list Page) (c : Client) (s : Socket) :
  connected c = true -> socket c = Some s ->
  opt_paged options = None \/ opt_paged options = Some (PagedBool false) ->
  exists more,
    written (search parseString baseDN options controls outcome pages c).2
    = written c ++ more
    /\ (length more <= 1)%nat
    /\ Forall (fun m => Forall (fun control =>
                                  instanceof_PagedResultsControl control = false)
                          (controls_of m)) more.
Proof.
  intros Hc Hs Hp. unfold search. rewrite Hc.
  set (cs := match controls with
             | NoControls => []
             | OneControl control => [control]
             | ControlArray controls => controls
             end).
  destruct (existsb instanceof_PagedResultsControl cs) eqn:Hex.
  { exists []. rewrite app_nil_r. split; [done |]. split; [cbn; lia | constructor]. }
  assert (Hcs : Forall (fun control => instanceof_PagedResultsControl control = false) cs).
  { apply Forall_forall. intros x Hx.
    destruct (instanceof_PagedResultsControl x) eqn:E; [| done].
    assert (existsb instanceof_PagedResultsControl cs = true); [| congruence].
    apply existsb_exists. exists x. split; [by apply list_elem_of_In | done]. }
  set (shouldPage := match opt_paged options with
                     | Some (PagedBool b) => b
                     | Some (PagedObject _) => true
                     | None => false
                     end).
  assert (shouldPage = false) as Hsp by (subst shouldPage; by destruct Hp as [-> | ->]).
  rewrite Hsp. cbn iota.
  destruct (match opt_filter options with
            | Some (FilterString s0) => _
            | Some (FilterObject f) => _
            | None => _
            end) as [f | e].
  2:{ exists []. rewrite app_nil_r. split; [done |]. split; [cbn; lia | constructor]. }
  set (r := new_SearchRequest _ _ _ _ _ _ _ _ _ _).
  set (ps := match opt_paged options with Some (PagedObject pageSize) => _ | _ => _ end).
  set (run := _sendSearch pages r _ false ps None c).
  assert (Hrun : written (client run) = written c ++ [first_request r None c]).
  { subst run. destruct pages as [| p pages].
    - cbn [_sendSearch]. unfold first_request.
      destruct (_nextMessageId c) as [i c0] eqn:Hn.
      assert (c0 = set_messageId i c) as -> by (unfold _nextMessageId in Hn; by simplify_eq).
      unfold _send. cbn [connected socket set_messageId]. rewrite Hc, Hs.
      cbn -[log written]. by rewrite written_log.
    - rewrite (_sendSearch_step pages p r _ false ps None s c Hc Hs).
      destruct (negb (accepted r (page_status p))); [apply written_answered |].
      assert (goes_on r false None p = None) as ->.
      { unfold goes_on. by rewrite andb_false_r. }
      apply written_answered. }
  exists [first_request r None c].
  split; [by destruct (completion run) |]. split; [done |].
  constructor; [| constructor].
  unfold first_request, controls_of, sent_controls. cbn. by rewrite app_nil_r.
Qed.

End OperationFacts.

Section ModifyDNFacts.
Import Client JsString.
Local Close Scope Z_scope.

Lemma search_comma_spec l :
  match search_comma l with
  | Some i => comma_after l i /\ forall j, (j < i)%nat -> ~ comma_after l j
  | None => forall j, ~ comma_after l j
  end.
Proof.
  induction l as [| c l IH]; cbn [search_comma].
  - intros j (x & Hx & _). done.
  - destruct l as [| d l].
    + intros j (x & _ & _ & Hx). by destruct j.
    + destruct (negb (bool_decide (c = "\"%char)) && bool_decide (d = ","%char)) eqn:E.
      * apply andb_true_iff in E as [E1%negb_true_iff%bool_decide_eq_false E2%bool_decide_eq_true].
        subst d. split; [by exists c | intros j Hj; lia].
      * destruct (search_comma (d :: l)) as [i |]; cbn [fmap option_fmap option_map].
        -- destruct IH as [(x & Hx & Hxb & Hxc) Hmin]. split; [by exists x |].
           intros [| j] Hj (y & Hy & Hyb & Hyc).
           ++ cbn in Hy, Hyc. simplify_eq.
              rewrite bool_decide_false, bool_decide_true in E by done. done.
           ++ apply (Hmin j); [lia |]. by exists y.
        -- intros [| j] (y & Hy & Hyb & Hyc).
           ++ cbn in Hy, Hyc. simplify_eq.
              rewrite bool_decide_false, bool_decide_true in E by done. done.
           ++ apply (IH j). by exists y.
Qed.

(** X22: [modifyDN] cuts a [newDN] given as a string at the
    first comma that follows a character other than a backslash: what
    stands before the comma is the new RDN, what stands after it the new
    superior, and the two joined by a comma are [newDN]; without such a
    comma the whole string is the new RDN and there is no new superior.  A
    comma that follows a backslash is never the place, also where the
    backslash is itself escaped. *)
Theorem modifyDN_names_spec (newDN : string) :
  match modifyDN_names newDN with
  | (newRdn, Some newSuperior) =>
      newDN = newRdn +:+ "," +:+ newSuperior
      /\ (exists c, last (units newRdn) = Some c /\ c <> "\"%char)
      /\ forall i, ~ comma_after (units newRdn) i
  | (newRdn, None) =>
      newRdn = newDN /\ forall i, ~ comma_after (units newDN) i
  end.
Proof.
  unfold modifyDN_names. pose proof (search_comma_spec (units newDN)) as Hspec.
  destruct (search_comma (units newDN)) as [i |]; [| done].
  destruct Hspec as [(c & Hc & Hcb & Hcomma) Hmin].
  unfold substr, substr_from. rewrite drop_0, !units_of_units.
  assert (Hlen : (i + 1 <= length (units newDN))%nat)
    by (apply lookup_lt_Some in Hc; lia).
  split; [| split].
  - apply units_inj. rewrite !units_app, !units_of_units.
    rewrite <- (take_drop (i + 1) (units newDN)) at 1. f_equal.
    rewrite <- (take_drop 1 (drop (i + 1) (units newDN))), drop_drop.
    replace (i + 1 + 1)%nat with (i + 2)%nat by lia. f_equal.
    replace (S i) with (i + 1)%nat in Hcomma by lia.
    rewrite <- (Nat.add_0_r (i + 1)), <- lookup_drop in Hcomma.
    destruct (drop (i + 1) (units newDN)) as [| d l]; [done |].
    cbn in Hcomma. by simplify_eq.
  - exists c. split; [| done]. rewrite last_lookup, length_take, Nat.min_l by lia.
    replace (pred (i + 1)) with i by lia. rewrite lookup_take_lt by lia. done.
  - intros j (x & Hx & Hxb & Hxc).
    assert (Hj : (S j < i + 1)%nat).
    { apply lookup_lt_Some in Hxc. rewrite length_take in Hxc. lia. }
    apply (Hmin j); [lia |]. exists x.
    rewrite lookup_take_lt in Hx, Hxc by lia. done.
Qed.

End ModifyDNFacts.

Section PageSize.
Import Client.

(** X23: the first message a paged search on a connected
    client writes, if it writes one, is a [SearchRequest] under the next
    message id with the caller's controls followed by a
    [PagedResultsControl] without cookie whose size is the page size of the
    options when that is given and not zero, else the size limit minus one
    when the size limit is above one, else 100.  (Nothing is written when
    the call throws before: for a [PagedResultsControl] among the caller's
    controls, a filter text that does not parse, or a request that
    [message.write()] refuses.) *)
Theorem paged_search_page_size
    (parseString : string -> Result Filters.Filter) (baseDN : string)
    (options : SearchOptions) (controls : ControlsArg)
    (outcome : ConnectOutcome) (pages : list Page) (c : Client) (s : Socket)
    (paged : PagedOption) (first : Message) (more : list Message) :
  connected c = true -> socket c = Some s ->
  opt_paged options = Some paged -> paged <> PagedBool false ->
  written (search parseString baseDN options controls outcome pages c).2
  = written c ++ first :: more ->
  let fallback :=
    match opt_sizeLimit options with
    | Some limit => if 1 <? limit then limit - 1 else 100
    | None => 100
    end in
  let size :=
    match paged with
    | PagedObject (Some pageSize) => if pageSize =? 0 then fallback else pageSize
    | _ => fallback
    end in
  exists r,
    first
    = SearchRequestMessage r
        (match controls with
         | NoControls => []
         | OneControl control => [control]
         | ControlArray controls => controls
         end
         ++ [PagedResultsControl (Some {| page_size := size; cookie := None |})])
    /\ req_messageId r = (_nextMessageId c).1.
Proof.
  intros Hc Hs Hpaged Hne Hw fallback size.
  assert (Hnot : forall l : list Message, l = l ++ first :: more -> False).
  { intros l E. apply (f_equal length) in E. rewrite length_app in E. cbn in E. lia. }
  unfold search in Hw. rewrite Hc, Hpaged in Hw.
  set (cs := match controls with
             | NoControls => []
             | OneControl control => [control]
             | ControlArray controls => controls
             end) in *.
  destruct (existsb instanceof_PagedResultsControl cs); [by apply Hnot in Hw |].
  assert (Hsp : match paged with PagedBool b => b | PagedObject _ => true end = true)
    by (by destruct paged as [[|] | ?]).
  rewrite Hsp in Hw.
  set (pageSize := match paged with PagedObject pageSize => _ | _ => _ end) in Hw.
  assert (HpageSize : pageSize = size).
  { subst pageSize size fallback. unfold truthy.
    destruct paged as [b | [n |]], (opt_sizeLimit options) as [l |];
      cbn [default];
      repeat match goal with
             | |- context [?a =? 0] => destruct (Z.eqb_spec a 0); cbn [negb andb]
             end;
      try reflexivity; subst; reflexivity. }
  destruct (match opt_filter options with
            | Some (FilterString text) => _
            | Some (FilterObject f) => _
            | None => _
            end) as [f | e]; [| by apply Hnot in Hw].
  set (r := new_SearchRequest _ _ _ _ _ _ _ _ _ cs) in Hw.
  set (ctrl := Some (Some {| page_size := pageSize; cookie := None |})) in Hw.
  destruct (_sendSearch_written pages r {| searchEntries := []; searchReferences := [] |}
              true pageSize ctrl s c Hc Hs) as [more' Hmore].
  assert (Hw' : written (client (_sendSearch pages r
                   {| searchEntries := []; searchReferences := [] |} true pageSize ctrl c))
                = written c ++ first :: more)
    by (by destruct (completion _)).
  rewrite Hmore in Hw'. apply app_inv_head in Hw'. injection Hw' as <- _.
  exists (with_messageId (_nextMessageId c).1 r). split; [| done].
  unfold first_request, sent_controls. subst ctrl r.
  cbn [Client.controls new_SearchRequest]. by rewrite HpageSize.
Qed.

End PageSize.

Section ClientExamples.
Import Client.

Lemma timeout_acts_on_current_id_witness :
  connected example_client = true
  /\ socket example_client = Some example_socket
  /\ goes_on example_request true (Some None) (example_page 0) = Some example_cookie
  /\ exists request,
       completion (_sendSearch [example_page 0] example_request
                     {| searchEntries := []; searchReferences := [] |}
                     true 100 (Some None) example_client) = Pending 3
       /\ messageId_of request = 3
       /\ effects (_send_timeout 2 request
                     (client (_sendSearch [example_page 0] example_request
                                {| searchEntries := []; searchReferences := [] |}
                                true 100 (Some None) example_client)))
          = effects (client (_sendSearch [example_page 0] example_request
                               {| searchEntries := []; searchReferences := [] |}
                               true 100 (Some None) example_client))
            ++ [Ended 0; Reject 2 (Error "SearchRequest: Operation timed out")].
Proof.
  pose proof (proj2 (proj2 (timeout_acts_on_current_id 0 (UnbindRequest 0)
                              example_client))
                (example_page 0) example_request
                {| searchEntries := []; searchReferences := [] |} 100 None
                example_socket example_cookie eq_refl eq_refl eq_refl) as H.
  cbv zeta in H. destruct H as (second & request & H1 & _ & H3 & _ & _ & H6).
  assert (second = 3) as -> by (vm_compute in H1; congruence).
  split; [reflexivity |]. split; [reflexivity |]. split; [reflexivity |].
  exists request. split; [exact H1 |]. split; [exact H3 |]. exact H6.
Defined.

Lemma abandon_is_settled_when_written_witness :
  socket example_client = Some example_socket
  /\ _send (AbandonRequest 2) example_client = Ok (sent (AbandonRequest 2) example_client)
  /\ effects (_send_written (AbandonRequest 2) (sent (AbandonRequest 2) example_client))
     = [Written 0 (AbandonRequest 2); Resolve 2 None].
Proof.
  pose proof (abandon_is_settled_when_written 2 example_client
                (sent (AbandonRequest 2) example_client) example_socket
                eq_refl eq_refl) as H.
  cbv zeta in H. destruct H as (_ & H & _).
  split; [reflexivity |]. split; [reflexivity |]. exact H.
Defined.

Lemma response_settles_request_witness :
  socket example_client = Some example_socket
  /\ _send (OtherRequest "AddRequest" 2) example_client
     = Ok (sent (OtherRequest "AddRequest" 2) example_client)
  /\ messageId_of (OtherResponse "AddResponse" 2 0 "")
     = messageId_of (OtherRequest "AddRequest" 2)
  /\ ends_request (OtherResponse "AddResponse" 2 0 "") = true
  /\ (_handleSendResponse (OtherResponse "AddResponse" 2 0 "")
        (sent (OtherRequest "AddRequest" 2) example_client)).2
     = Some (OtherResponse "AddResponse" 2 0 "").
Proof.
  pose proof (response_settles_request (OtherRequest "AddRequest" 2)
                (OtherResponse "AddResponse" 2 0 "") example_client
                (sent (OtherRequest "AddRequest" 2) example_client) example_socket
                eq_refl eq_refl eq_refl eq_refl) as H.
  cbv zeta in H. destruct H as (H & _).
  repeat (split; [reflexivity |]). exact H.
Defined.

Lemma unbind_is_resolved_by_close_witness :
  connected example_client = true
  /\ socket example_client = Some example_socket
  /\ exists c1, unbind example_client = (Pending 2, c1).
Proof.
  pose proof (unbind_is_resolved_by_close example_client example_socket
                eq_refl eq_refl) as H.
  cbv zeta in H. destruct H as (c1 & H & _).
  split; [reflexivity |]. split; [reflexivity |]. exists c1. exact H.
Defined.

Lemma paged_search_collects_pages_witness :
  connected example_client = true
  /\ socket example_client = Some example_socket
  /\ Forall (fun p => is_Some (goes_on example_request true (Some None) p))
       [example_page 0]
  /\ accepted example_request (page_status last_page) = true
  /\ goes_on example_request true (Some None) last_page = None
  /\ completion (_sendSearch ([example_page 0] ++ last_page :: [example_page 0])
                   example_request {| searchEntries := []; searchReferences := [] |}
                   true 100 (Some None) example_client)
     = Resolved tt.
Proof.
  assert (Hps : Forall (fun p => is_Some (goes_on example_request true (Some None) p))
                  [example_page 0])
    by (constructor; [by eexists | constructor]).
  pose proof (paged_search_collects_pages [example_page 0] [example_page 0] last_page
                example_request {| searchEntries := []; searchReferences := [] |}
                100 None example_socket example_client
                eq_refl eq_refl Hps eq_refl eq_refl) as H.
  cbv zeta in H. destruct H as (H & _).
  split; [reflexivity |]. split; [reflexivity |]. split; [exact Hps |].
  split; [reflexivity |]. split; [reflexivity |]. exact H.
Defined.

Lemma search_without_paging_asks_once_witness :
  connected example_client = true
  /\ socket example_client = Some example_socket
  /\ (opt_paged (example_options false None) = None
      \/ opt_paged (example_options false None) = Some (PagedBool false))
  /\ exists more,
       written (search (fun _ => Throw (Error "not called")) "dc=example,dc=com"
                  (example_options false None) NoControls (Connects example_socket)
                  [example_page 0; example_page 0] example_client).2
       = written example_client ++ more
       /\ (length more <= 1)%nat.
Proof.
  pose proof (search_without_paging_asks_once (fun _ => Throw (Error "not called"))
                "dc=example,dc=com" (example_options false None) NoControls
                (Connects example_socket) [example_page 0; example_page 0]
                example_client example_socket eq_refl eq_refl
                (or_intror eq_refl)) as (more & H1 & H2 & _).
  split; [reflexivity |]. split; [reflexivity |]. split; [by right |].
  exists more. by split.
Defined.

Lemma paged_search_page_size_witness :
  connected example_client = true
  /\ socket example_client = Some example_socket
  /\ opt_paged (example_options true (Some 10)) = Some (PagedBool true)
  /\ PagedBool true <> PagedBool false
  /\ exists first r,
       written (search (fun _ => Throw (Error "not called")) "dc=example,dc=com"
                  (example_options true (Some 10)) NoControls
                  (Connects example_socket) [] example_client).2
       = written example_client ++ first :: []
       /\ first
          = SearchRequestMessage r
              [PagedResultsControl (Some {| page_size := 9; cookie := None |})]
       /\ req_messageId r = 2.
Proof.
  split; [reflexivity |]. split; [reflexivity |]. split; [reflexivity |].
  split; [discriminate |].
  eexists. 
  assert (Hw : written (search (fun _ => Throw (Error "not called")) "dc=example,dc=com"
                  (example_options true (Some 10)) NoControls
                  (Connects example_socket) [] example_client).2
               = written example_client
                 ++ SearchRequestMessage
                      (with_messageId 2
                         (new_SearchRequest (-1) "dc=example,dc=com" None
                            (Filters.PresenceFilter "objectclass") None None None
                            (Some 10) None []))
                      [PagedResultsControl (Some {| page_size := 9; cookie := None |})]
                    :: []) by reflexivity.
  pose proof (paged_search_page_size (fun _ => Throw (Error "not called"))
                "dc=example,dc=com" (example_options true (Some 10)) NoControls
                (Connects example_socket) [] example_client example_socket
                (PagedBool true) _ [] eq_refl eq_refl eq_refl ltac:(discriminate)
                Hw) as H.
  cbv zeta in H. destruct H as (r & H1 & H2).
  exists r. split; [exact Hw |]. split; [exact H1 |]. exact H2.
Defined.

End ClientExamples.

Section TextItems.
Import JsString FilterParser.
Context `{Runtime}.
Local Close Scope Z_scope.

Lemma hex_escape_read c :
  is_hex (hex_digit (N_of_ascii c / 16)) = true
  /\ is_hex (hex_digit (N_of_ascii c mod 16)) = true
  /\ fromCharCode_hex (hex_digit (N_of_ascii c / 16)) (hex_digit (N_of_ascii c mod 16)) = c.
Proof. destruct c as [[] [] [] [] [] [] [] []]; vm_compute; done. Qed.

Lemma hex_digit_plain n :
  (n < 16)%N ->
  hex_digit n <> "("%char /\ hex_digit n <> ")"%char /\ hex_digit n <> "*"%char
  /\ hex_digit n <> "\"%char.
Proof.
  intros Hn.
  assert (n ∈ [0;1;2;3;4;5;6;7;8;9;10;11;12;13;14;15]%N) as Hin.
  { assert (exists k, (k < 16)%nat /\ n = N.of_nat k) as (k & Hk & ->)
      by (exists (N.to_nat n); lia).
    do 16 (destruct k as [| k]; [set_solver |]). lia. }
  repeat (apply elem_of_cons in Hin as [-> | Hin]; [vm_compute; done |]).
  by apply elem_of_nil in Hin.
Qed.

(** The characters of an escaped value. *)
Lemma escape_value_units also v c :
  c ∈ units (escape_value also v) ->
  c = "\"%char \/ (c <> "("%char /\ c <> ")"%char /\ c <> "*"%char /\ c <> "\"%char).
Proof.
  unfold escape_value. rewrite units_of_units.
  intros Hc%list_elem_of_In. apply in_flat_map in Hc as (x & _ & Hc).
  apply list_elem_of_In in Hc.
  destruct (must_escape x || also x) eqn:E.
  - unfold hex_escape in Hc.
    assert (N_of_ascii x / 16 < 16)%N.
    { pose proof (N_ascii_bounded x). apply N.Div0.div_lt_upper_bound. lia. }
    assert (N_of_ascii x mod 16 < 16)%N by (apply N.mod_lt; lia).
    apply elem_of_cons in Hc as [-> | Hc]; [by left |].
    apply elem_of_cons in Hc as [-> | Hc]; [right; by apply hex_digit_plain |].
    apply list_elem_of_singleton in Hc as ->. right. by apply hex_digit_plain.
  - apply list_elem_of_singleton in Hc as ->. right.
    apply orb_false_iff in E as [E _]. unfold must_escape in E.
    apply bool_decide_eq_false in E. set_solver.
Qed.

Lemma unescape_loop_escaped also input l : forall result,
  _unescapeHexValues_loop input
    (flat_map (fun c => if must_escape c || also c then hex_escape c else [c]) l)
    result
  = Ok (result +:+ of_units l).
Proof.
  induction l as [| c l IH]; intros result; cbn [flat_map].
  - cbn. by rewrite string_app_nil_r.
  - destruct (must_escape c || also c) eqn:E.
    + unfold hex_escape. cbn [app _unescapeHexValues_loop].
      rewrite bool_decide_false by done. rewrite bool_decide_true by done.
      destruct (hex_escape_read c) as (-> & -> & ->). cbn [andb].
      rewrite IH, string_app_assoc. done.
    + cbn [app _unescapeHexValues_loop].
      apply orb_false_iff in E as [E _]. unfold must_escape in E.
      apply bool_decide_eq_false in E.
      rewrite !bool_decide_false by set_solver.
      rewrite IH, string_app_assoc. done.
Qed.

Lemma unescape_escape_value (also : ascii -> bool) (value : string) :
  _unescapeHexValues (escape_value also value) = Ok value.
Proof.
  unfold _unescapeHexValues, escape_value. rewrite units_of_units.
  rewrite unescape_loop_escaped. by rewrite of_units_units.
Qed.

Lemma units_cons c s : units (String c s) = c :: units s.
Proof. done. Qed.

Lemma substr_from_0 s : substr_from s 0 = s.
Proof. unfold substr_from. by rewrite drop_0, of_units_units. Qed.

Lemma substr_from_cons c s n : substr_from (String c s) (S n) = substr_from s n.
Proof. done. Qed.

Lemma substr_from_app s t : substr_from (s +:+ t) (String.length s) = t.
Proof.
  unfold substr_from. by rewrite units_app, length_units, drop_app_length, of_units_units.
Qed.

Lemma word_prefix_app l c rest :
  Forall (fun c => is_word c = true) l -> is_word c = false ->
  word_prefix (l ++ c :: rest) = l.
Proof.
  induction 1 as [| x l Hx _ IH]; intros Hc; cbn [app word_prefix].
  - by rewrite Hc.
  - rewrite Hx. f_equal. by apply IH.
Qed.

(** The attribute and the rest of an item. *)
Lemma attribute_read a c rest :
  is_attribute a -> is_word c = false ->
  startsWith ":" (a +:+ String c rest) = false
  /\ of_units (word_prefix (units (a +:+ String c rest))) = a
  /\ substr_from (a +:+ String c rest) (String.length a) = String c rest.
Proof.
  intros [Hne Hw] Hc. split; [| split].
  - unfold startsWith, charAt. rewrite units_app.
    destruct (units a) as [| x l] eqn:Ea.
    + exfalso. apply Hne. apply units_inj. by rewrite Ea.
    + cbn. apply bool_decide_eq_false. intros [= ->].
      by apply Forall_cons in Hw as [Hx _].
  - rewrite units_app, units_cons, word_prefix_app by done. apply of_units_units.
  - apply substr_from_app.
Qed.

Lemma escape_value_no c also v :
  c = "("%char \/ c = ")"%char \/ c = "*"%char ->
  c ∉ units (escape_value also v).
Proof.
  intros Hc Hin. apply escape_value_units in Hin.
  destruct Hc as [-> | [-> | ->]]; by destruct Hin as [? | (? & ? & ? & ?)].
Qed.

Lemma parse_ordering a v (op : ascii) :
  is_attribute a -> op = ">"%char \/ op = "<"%char \/ op = "~"%char ->
  forall also,
  _parseExpressionFilterFromString (a +:+ String op (String "=" (escape_value also v)))
  = Ok (if bool_decide (op = ">"%char) then new_GreaterThanEqualsFilter a v
        else if bool_decide (op = "<"%char) then new_LessThanEqualsFilter a v
        else new_ApproximateFilter a v).
Proof.
  intros Ha Hop also. unfold _parseExpressionFilterFromString.
  destruct (attribute_read a op (String "=" (escape_value also v)) Ha) as (-> & -> & ->).
  { by destruct Hop as [-> | [-> | ->]]. }
  rewrite bool_decide_false by (by destruct Ha).
  cbn [mbind Result_bind].
  rewrite bool_decide_false by (by destruct Hop as [-> | [-> | ->]]).
  unfold startsWith, charAt. cbn [units list_ascii_of_string lookup list_lookup].
  rewrite !substr_from_cons, !substr_from_0, unescape_escape_value.
  destruct Hop as [-> | [-> | ->]]; done.
Qed.

Lemma parse_equality a v also :
  is_attribute a ->
  _parseExpressionFilterFromString (a +:+ String "=" (escape_value also v))
  = Ok (new_EqualityFilter a v).
Proof.
  intros Ha. unfold _parseExpressionFilterFromString.
  destruct (attribute_read a "=" (escape_value also v) Ha) as (-> & -> & ->); [done |].
  rewrite bool_decide_false by (by destruct Ha).
  cbn [mbind Result_bind].
  rewrite bool_decide_false.
  2:{ intros [= E]. apply (escape_value_no "*" also v); [auto |]. rewrite E. by left. }
  unfold startsWith, charAt. cbn [units list_ascii_of_string lookup list_lookup].
  rewrite bool_decide_true by done.
  rewrite !substr_from_cons, !substr_from_0.
  unfold includes. rewrite bool_decide_false by (apply escape_value_no; auto).
  by rewrite unescape_escape_value.
Qed.

Lemma parse_presence a :
  is_attribute a ->
  _parseExpressionFilterFromString (a +:+ "=*") = Ok (new_PresenceFilter a).
Proof.
  intros Ha. unfold _parseExpressionFilterFromString.
  destruct (attribute_read a "=" "*" Ha) as (-> & -> & ->); [done |].
  rewrite bool_decide_false by (by destruct Ha).
  cbn [mbind Result_bind]. by rewrite bool_decide_true.
Qed.

Lemma units_concat_empty (ls : list string) :
  units (String.concat "" ls) = concat (map units ls).
Proof.
  induction ls as [| x ls IH]; [done |].
  destruct ls as [| y ls].
  - cbn. by rewrite app_nil_r.
  - cbn [String.concat map concat] in *. by rewrite !units_app, IH.
Qed.

Lemma split_units_none c l field :
  c ∉ l -> split_units c l field = [field ++ l].
Proof.
  revert field. induction l as [| x l IH]; intros field Hc; cbn [split_units].
  - by rewrite app_nil_r.
  - apply not_elem_of_cons in Hc as [Hx Hc].
    rewrite decide_False by done. rewrite IH by done. by rewrite <- app_assoc.
Qed.

Lemma split_units_app c l rest field :
  c ∉ l ->
  split_units c (l ++ c :: rest) field = (field ++ l) :: split_units c rest [].
Proof.
  revert field. induction l as [| x l IH]; intros field Hc; cbn [split_units app].
  - by rewrite decide_True, app_nil_r.
  - apply not_elem_of_cons in Hc as [Hx Hc].
    rewrite decide_False by done. rewrite IH by done. by rewrite <- app_assoc.
Qed.

Lemma escape_value_empty also v : escape_value also v = ""%string -> v = ""%string.
Proof.
  intros E. pose proof (unescape_escape_value also v) as Hu.
  rewrite E in Hu. cbn in Hu. by simplify_eq.
Qed.

Lemma map_result_escaped also (any : list string) :
  map_result _unescapeHexValues (map (escape_value also) any) = Ok any.
Proof.
  induction any as [| x any IH]; [done |].
  cbn [map map_result]. by rewrite unescape_escape_value, IH.
Qed.

(** The text of the fields of a substring filter, and its fields. *)
Lemma split_fields also initial any final :
  let X := escape_value also initial +:+ "*"
           +:+ String.concat "" (map (fun field => escape_value also field +:+ "*") any)
           +:+ escape_value also final in
  split "*" X
  = escape_value also initial :: map (escape_value also) any ++ [escape_value also final]
  /\ "*"%char ∈ units X
  /\ (X = "*"%string -> initial = ""%string /\ any = [] /\ final = ""%string).
Proof.
  intros X.
  assert (HX : units X
               = units (escape_value also initial)
                 ++ "*"%char :: concat (map (fun field => units (escape_value also field) ++ ["*"%char]) any)
                 ++ units (escape_value also final)).
  { subst X. rewrite !units_app, units_concat_empty, map_map.
    rewrite (map_ext (fun x => units (escape_value also x +:+ "*"))
               (fun field => units (escape_value also field) ++ ["*"%char]))
      by (intros f; by rewrite units_app).
    done. }
  assert (Hrest : map of_units
                    (split_units "*"
                       (concat (map (fun field => units (escape_value also field) ++ ["*"%char]) any)
                        ++ units (escape_value also final)) [])
                  = map (escape_value also) any ++ [escape_value also final]).
  { clear. induction any as [| x any IH]; cbn [map concat app].
    - rewrite split_units_none by (apply escape_value_no; auto).
      cbn. by rewrite of_units_units.
    - rewrite <- !app_assoc. cbn [app].
      rewrite split_units_app by (apply escape_value_no; auto).
      cbn [map app]. by rewrite of_units_units, IH. }
  split; [| split].
  - unfold split. rewrite HX, split_units_app by (apply escape_value_no; auto).
    cbn [map app]. by rewrite of_units_units, Hrest.
  - rewrite HX. apply elem_of_app. right. by left.
  - intros E. rewrite E in HX. cbn [units list_ascii_of_string] in HX.
    destruct (units (escape_value also initial)) as [| c l] eqn:Ei.
    + cbn [app] in HX. injection HX as HX. symmetry in HX.
      apply app_eq_nil in HX as [Hany Hf].
      split; [| split].
      * apply (escape_value_empty also). apply units_inj. by rewrite Ei.
      * destruct any as [| x any]; [done |]. cbn in Hany.
        apply app_eq_nil in Hany as [Hx _]. by apply app_eq_nil in Hx as [_ ?].
      * apply (escape_value_empty also). apply units_inj. by rewrite Hf.
    + cbn [app] in HX. injection HX as _ HX. by destruct l.
Qed.

Lemma parse_substring a initial any final also :
  is_attribute a ->
  ~ (initial = ""%string /\ any = [] /\ final = ""%string) ->
  _parseExpressionFilterFromString
    (a +:+ String "="
       (escape_value also initial +:+ "*"
        +:+ String.concat "" (map (fun field => escape_value also field +:+ "*") any)
        +:+ escape_value also final))
  = Ok (new_SubstringFilter a initial any final).
Proof.
  intros Ha Hne. unfold _parseExpressionFilterFromString.
  destruct (split_fields also initial any final) as (Hsplit & Hin & Hstar).
  set (X := escape_value also initial +:+ _) in *.
  destruct (attribute_read a "=" X Ha) as (-> & -> & ->); [done |].
  rewrite bool_decide_false by (by destruct Ha).
  cbn [mbind Result_bind].
  rewrite bool_decide_false by (intros [= E]; auto).
  unfold startsWith, charAt. cbn [units list_ascii_of_string lookup list_lookup].
  rewrite bool_decide_true by done.
  rewrite !substr_from_cons, !substr_from_0.
  unfold includes. rewrite bool_decide_true by done.
  unfold _unescapeSubstring. rewrite Hsplit.
  rewrite bool_decide_false
    by (cbn [length]; rewrite length_app; cbn; lia).
  cbn [head tail default from_option id].
  rewrite last_snoc, removelast_last. cbn [default from_option id].
  rewrite !unescape_escape_value. cbn [mbind Result_bind].
  by rewrite map_result_escaped.
Qed.

End TextItems.

Section TextParsing.
Import JsString FilterParser.
Context `{Runtime}.
Local Close Scope Z_scope.

(** Induction over filters, with the children of [And] and [Or]. *)
Lemma TextFilter_ind' (P : TextFilter -> Prop)
  (Hand : forall fs, Forall P fs -> P (new_AndFilter fs))
  (Hor : forall fs, Forall P fs -> P (new_OrFilter fs))
  (Hnot : forall f, P f -> P (new_NotFilter f))
  (Hitem : forall f,
     (match f with
      | new_AndFilter _ | new_OrFilter _ | new_NotFilter _ => False
      | _ => True
      end) -> P f) :
  forall f, P f.
Proof.
  fix IH 1. intros [fs | fs | f | | | | | | |].
  - apply Hand. induction fs as [| f fs IHfs]; constructor; [apply IH | exact IHfs].
  - apply Hor. induction fs as [| f fs IHfs]; constructor; [apply IH | exact IHfs].
  - apply Hnot, IH.
  - by apply Hitem.
  - by apply Hitem.
  - by apply Hitem.
  - by apply Hitem.
  - by apply Hitem.
  - by apply Hitem.
  - by apply Hitem.
Qed.

Lemma writable_all fs :
  (fix all (fs : list TextFilter) : Prop :=
     match fs with
     | [] => True
     | f :: fs => writable f /\ all fs
     end) fs <-> Forall writable fs.
Proof.
  induction fs as [| f fs IH]; [by split; [constructor |] |].
  rewrite Forall_cons, <- IH. done.
Qed.

Lemma charAt_middle pre x rest :
  charAt (pre +:+ String x rest) (String.length pre) = Some x.
Proof.
  unfold charAt. rewrite units_app, length_units, units_cons.
  by rewrite list_lookup_middle.
Qed.

Lemma charAt_end pre : charAt pre (String.length pre) = None.
Proof. unfold charAt. rewrite length_units. by apply lookup_ge_None. Qed.

Lemma length_app_string s t :
  String.length (s +:+ t) = (String.length s + String.length t)%nat.
Proof. by rewrite !length_units, units_app, length_app. Qed.

Lemma concat_empty_cons x (l : list string) :
  String.concat "" (x :: l) = x +:+ String.concat "" l.
Proof. destruct l; [by rewrite string_app_nil_r | done]. Qed.

Lemma index_in_app c l rest :
  c ∉ l -> index_in c (l ++ c :: rest) = Some (length l).
Proof.
  induction l as [| x l IH]; intros Hc; cbn [app index_in].
  - by rewrite decide_True.
  - apply not_elem_of_cons in Hc as [Hx Hc].
    rewrite decide_False by done. by rewrite IH.
Qed.

(** The cases of [_parseString]. *)
Lemma _parseString_and fuel s start full :
  charAt s start = Some "("%char -> charAt s (start + 1) = Some "&"%char ->
  _parseString (S fuel) s start full
  = match _parseString_children fuel s (start + 1 + 1) full [] with
    | Some (Ok (children, cursor)) =>
        Some (Ok {| end_ := cursor; filter := new_AndFilter children |})
    | Some (Throw e) => Some (Throw e)
    | None => None
    end.
Proof. intros H1 H2. cbn [_parseString]. by rewrite H1, H2. Qed.

Lemma _parseString_or fuel s start full :
  charAt s start = Some "("%char -> charAt s (start + 1) = Some "|"%char ->
  _parseString (S fuel) s start full
  = match _parseString_children fuel s (start + 1 + 1) full [] with
    | Some (Ok (children, cursor)) =>
        Some (Ok {| end_ := cursor; filter := new_OrFilter children |})
    | Some (Throw e) => Some (Throw e)
    | None => None
    end.
Proof. intros H1 H2. cbn [_parseString]. by rewrite H1, H2. Qed.

Lemma _parseString_not fuel s start full :
  charAt s start = Some "("%char -> charAt s (start + 1) = Some "!"%char ->
  _parseString (S fuel) s start full
  = match _parseString fuel s (start + 1 + 1) full with
    | Some (Ok childResult) =>
        Some (Ok {| end_ := end_ childResult + 1;
                    filter := new_NotFilter (filter childResult) |})
    | other => other
    end.
Proof. intros H1 H2. cbn [_parseString]. by rewrite H1, H2. Qed.

Lemma _parseString_item fuel s start full x :
  charAt s start = Some "("%char -> charAt s (start + 1) = x ->
  x <> Some "&"%char -> x <> Some "|"%char -> x <> Some "!"%char ->
  _parseString (S fuel) s start full
  = match indexOf ")" s (start + 1) with
    | None =>
        Some (Throw (Error ("Unbalanced parens: " +:+ s +:+ ". Full string: " +:+ full)))
    | Some end' =>
        match _parseExpressionFilterFromString (substr s (start + 1) (end' - (start + 1))) with
        | Ok filter => Some (Ok {| end_ := end'; filter := filter |})
        | Throw e => Some (Throw e)
        end
    end.
Proof.
  intros H1 H2 Ha Ho Hn. cbn [_parseString]. rewrite H1, H2.
  rewrite bool_decide_true by done. cbn [negb].
  destruct x as [[[] [] [] [] [] [] [] []] |]; done.
Qed.

Lemma _parseString_children_step fuel s cursor full children :
  _parseString_children (S fuel) s cursor full children
  = match _parseString fuel s cursor full with
    | Some (Ok childResult) =>
        let children := children ++ [filter childResult] in
        let cursor := (end_ childResult + 1)%nat in
        if bool_decide (cursor < String.length s)%nat
           && negb (bool_decide (charAt s cursor = Some ")"%char))
        then _parseString_children fuel s cursor full children
        else Some (Ok (children, cursor))
    | Some (Throw e) => Some (Throw e)
    | None => None
    end.
Proof. done. Qed.

Ltac string_eq :=
  apply units_inj;
  repeat (rewrite units_app || rewrite units_cons);
  change (units "") with (@nil ascii);
  repeat (rewrite <- app_assoc || rewrite <- app_comm_cons || rewrite app_nil_l
          || rewrite app_nil_r);
  reflexivity.

Lemma word_not_paren l : Forall (fun c => is_word c = true) l -> ")"%char ∉ l.
Proof.
  intros Hall Hin. rewrite Forall_forall in Hall. by specialize (Hall _ Hin).
Qed.

Lemma attribute_head a :
  is_attribute a -> exists x rest, a = String x rest /\ is_word x = true.
Proof.
  intros [Hne Hw]. destruct a as [| x rest]; [done |].
  exists x, rest. split; [done |]. by apply Forall_cons in Hw as [? _].
Qed.

(** An item: its text has no closing parenthesis, starts with a character
    of the attribute, and is read back by [_parseExpressionFilterFromString]. *)
Lemma not_elem_of_concat_map {A B : Type} (f : A -> list B) (l : list A) b :
  (forall a, b ∉ f a) -> b ∉ concat (map f l).
Proof.
  intros Hf. induction l as [| a l IH]; cbn [map concat].
  - apply not_elem_of_nil.
  - apply not_elem_of_app. auto.
Qed.

Lemma item_facts also f :
  (match f with
   | new_AndFilter _ | new_OrFilter _ | new_NotFilter _ => False
   | _ => True
   end) ->
  writable f ->
  _parseExpressionFilterFromString (inner also f) = Ok f
  /\ (")"%char ∉ units (inner also f))
  /\ exists x rest, inner also f = String x rest /\ is_word x = true.
Proof.
  intros Hitem Hw.
  assert (Hv : forall v, ")"%char ∉ units (escape_value also v))
    by (intros v; apply escape_value_no; auto).
  destruct f as [| | | a | a i any fin | a v | a v | a v | a v |]; try done;
    cbn [writable] in Hw; cbn [inner].
  - split; [by apply parse_presence |]. split.
    + rewrite units_app. apply not_elem_of_app. split; [apply word_not_paren, Hw |].
      compute_done.
    + destruct (attribute_head a Hw) as (x & rest & -> & Hx). by exists x, (rest +:+ "=*").
  - destruct Hw as [Ha Hne]. split; [by apply parse_substring |]. split.
    + rewrite !units_app, units_concat_empty, map_map.
      rewrite !not_elem_of_app. split; [apply word_not_paren, Ha |].
      split; [compute_done |]. split; [apply Hv |]. split; [compute_done |].
      split; [| apply Hv].
      apply not_elem_of_concat_map. intros field.
      rewrite units_app. apply not_elem_of_app. split; [apply Hv | compute_done].
    + destruct (attribute_head a Ha) as (x & rest & -> & Hx). by eexists x, _.
  - split; [by apply parse_equality |]. split.
    + rewrite !units_app, !not_elem_of_app. split; [apply word_not_paren, Hw |].
      split; [compute_done | apply Hv].
    + destruct (attribute_head a Hw) as (x & rest & -> & Hx). by eexists x, _.
  - split; [by apply (parse_ordering a v ">"); auto |]. split.
    + rewrite !units_app, !not_elem_of_app. split; [apply word_not_paren, Hw |].
      split; [compute_done | apply Hv].
    + destruct (attribute_head a Hw) as (x & rest & -> & Hx). by eexists x, _.
  - split; [by apply (parse_ordering a v "<"); auto |]. split.
    + rewrite !units_app, !not_elem_of_app. split; [apply word_not_paren, Hw |].
      split; [compute_done | apply Hv].
    + destruct (attribute_head a Hw) as (x & rest & -> & Hx). by eexists x, _.
  - split; [by apply (parse_ordering a v "~"); auto |]. split.
    + rewrite !units_app, !not_elem_of_app. split; [apply word_not_paren, Hw |].
      split; [compute_done | apply Hv].
    + destruct (attribute_head a Hw) as (x & rest & -> & Hx). by eexists x, _.
Qed.

Lemma text_length also f :
  String.length (text also f) = (String.length (inner also f) + 2)%nat.
Proof.
  unfold text. rewrite !length_app_string. cbn. lia.
Qed.

Lemma charAt_middle2 pre x y rest :
  charAt (pre +:+ String x (String y rest)) (String.length pre + 1) = Some y.
Proof.
  unfold charAt. rewrite units_app, length_units, !units_cons.
  rewrite lookup_app_r by lia.
  by replace (length (units pre) + 1 - length (units pre))%nat with 1%nat by lia.
Qed.

(** The test of the loop when the cursor stands behind [p]. *)
Lemma loop_condition p suf :
  bool_decide (String.length p < String.length (p +:+ suf))%nat
  && negb (bool_decide (charAt (p +:+ suf) (String.length p) = Some ")"%char))
  = match suf with
    | EmptyString => false
    | String c _ => negb (bool_decide (c = ")"%char))
    end.
Proof.
  destruct suf as [| c suf].
  - rewrite string_app_nil_r. by rewrite bool_decide_false by lia.
  - rewrite charAt_middle, length_app_string. cbn [String.length].
    rewrite bool_decide_true by lia. cbn [andb]. f_equal.
    apply bool_decide_ext. split; [by intros [= ->] | by intros ->].
Qed.

(** The loop reads the texts of children that [_parseString] reads. *)
Lemma parse_children also fs :
  Forall (fun f => forall pre suf full fuel,
            (String.length (text also f) <= fuel)%nat ->
            _parseString fuel (pre +:+ text also f +:+ suf) (String.length pre) full
            = Some (Ok {| end_ := String.length pre + String.length (text also f) - 1;
                          filter := f |})) fs ->
  fs <> [] ->
  forall pre suf full acc fuel,
    suf = ""%string \/ (exists rest, suf = String ")" rest) ->
    (String.length (String.concat "" (map (text also) fs)) < fuel)%nat ->
    _parseString_children fuel
      (pre +:+ String.concat "" (map (text also) fs) +:+ suf)
      (String.length pre) full acc
    = Some (Ok (acc ++ fs,
                (String.length pre
                 + String.length (String.concat "" (map (text also) fs)))%nat)).
Proof.
  induction 1 as [| f fs Hf Hfs IH]; intros Hne pre suf full acc fuel Hsuf Hfuel; [done |].
  cbn [map] in *. rewrite concat_empty_cons in *.
  rewrite length_app_string in Hfuel |- *.
  pose proof (text_length also f) as Hlen.
  destruct fuel as [| fuel]; [lia |].
  rewrite _parseString_children_step.
  rewrite string_app_assoc.
  rewrite Hf by lia. cbv zeta. cbn [end_ filter].
  replace (String.length pre + String.length (text also f) - 1 + 1)%nat
    with (String.length (pre +:+ text also f)) by (rewrite length_app_string; lia).
  rewrite <- string_app_assoc, loop_condition.
  destruct fs as [| g fs].
  - cbn [map String.concat]. change ("" +:+ suf) with suf.
    cbn [String.length]. rewrite Nat.add_0_r, length_app_string.
    by destruct Hsuf as [-> | [rest ->]].
  - set (scrut := String.concat "" (map (text also) (g :: fs)) +:+ suf).
    assert (exists rest, scrut = String "(" rest) as [rest Hs].
    { subst scrut. cbn [map]. rewrite concat_empty_cons. eexists. reflexivity. }
    rewrite Hs. cbn iota.
    rewrite (bool_decide_false ("("%char = ")"%char)) by done. cbn [negb].
    rewrite <- Hs. subst scrut.
    rewrite IH; [| done | done | lia].
    rewrite <- app_assoc. cbn [app]. do 3 f_equal.
    rewrite length_app_string. lia.
Qed.

Lemma parse_text also f :
  writable f ->
  forall pre suf full fuel,
    (String.length (text also f) <= fuel)%nat ->
    _parseString fuel (pre +:+ text also f +:+ suf) (String.length pre) full
    = Some (Ok {| end_ := String.length pre + String.length (text also f) - 1;
                  filter := f |}).
Proof.
  induction f as [fs IH | fs IH | f IH | f Hitem] using TextFilter_ind';
    intros Hw pre suf full fuel Hfuel; pose proof (text_length also) as Hlen.
  - cbn [writable] in Hw. destruct Hw as [Hne Hall%writable_all].
    specialize (Hlen (new_AndFilter fs)). rewrite Hlen in *.
    cbn [inner] in Hlen, Hfuel.
    change (fun f : TextFilter => "(" +:+ inner also f +:+ ")") with (text also) in *.
    rewrite length_app_string in Hfuel. cbn [String.length] in Hfuel.
    destruct fuel as [| fuel]; [lia |].
    assert (IH' : Forall (fun f => forall pre suf full fuel,
                    (String.length (text also f) <= fuel)%nat ->
                    _parseString fuel (pre +:+ text also f +:+ suf) (String.length pre) full
                    = Some (Ok {| end_ := String.length pre + String.length (text also f) - 1;
                                  filter := f |})) fs).
    { rewrite Forall_forall in IH, Hall |- *. intros f Hf. apply IH; auto. }
    unfold text. cbn [inner]. fold (text also).
    change ("(" +:+ ("&" +:+ ?X) +:+ ")") with (String "(" (String "&" (X +:+ ")"))).
    rewrite _parseString_and.
    2:{ apply charAt_middle. }
    2:{ apply charAt_middle2. }
    assert (pre +:+ String "(" (String "&" (String.concat "" (map (text also) fs) +:+ ")")) +:+ suf
            = (pre +:+ "(&") +:+ String.concat "" (map (text also) fs) +:+ String ")" suf) as ->
      by string_eq.
    replace (String.length pre + 1 + 1)%nat with (String.length (pre +:+ "(&"))
      by (rewrite length_app_string; cbn; lia).
    rewrite (parse_children also fs IH' Hne) by (eauto || lia).
    cbn [app]. do 3 f_equal. rewrite !length_app_string. cbn. lia.
  - cbn [writable] in Hw. destruct Hw as [Hne Hall%writable_all].
    specialize (Hlen (new_OrFilter fs)). rewrite Hlen in *.
    cbn [inner] in Hlen, Hfuel.
    change (fun f : TextFilter => "(" +:+ inner also f +:+ ")") with (text also) in *.
    rewrite length_app_string in Hfuel. cbn [String.length] in Hfuel.
    destruct fuel as [| fuel]; [lia |].
    assert (IH' : Forall (fun f => forall pre suf full fuel,
                    (String.length (text also f) <= fuel)%nat ->
                    _parseString fuel (pre +:+ text also f +:+ suf) (String.length pre) full
                    = Some (Ok {| end_ := String.length pre + String.length (text also f) - 1;
                                  filter := f |})) fs).
    { rewrite Forall_forall in IH, Hall |- *. intros f Hf. apply IH; auto. }
    unfold text. cbn [inner]. fold (text also).
    change ("(" +:+ ("|" +:+ ?X) +:+ ")") with (String "(" (String "|" (X +:+ ")"))).
    rewrite _parseString_or.
    2:{ apply charAt_middle. }
    2:{ apply charAt_middle2. }
    assert (pre +:+ String "(" (String "|" (String.concat "" (map (text also) fs) +:+ ")")) +:+ suf
            = (pre +:+ "(|") +:+ String.concat "" (map (text also) fs) +:+ String ")" suf) as ->
      by string_eq.
    replace (String.length pre + 1 + 1)%nat with (String.length (pre +:+ "(|"))
      by (rewrite length_app_string; cbn; lia).
    rewrite (parse_children also fs IH' Hne) by (eauto || lia).
    cbn [app]. do 3 f_equal. rewrite !length_app_string. cbn. lia.
  - cbn [writable] in Hw.
    specialize (Hlen (new_NotFilter f)). rewrite Hlen in *.
    cbn [inner] in Hlen, Hfuel.
    change ("(" +:+ inner also f +:+ ")") with (text also f) in *.
    rewrite length_app_string in Hfuel. cbn [String.length] in Hfuel.
    destruct fuel as [| fuel]; [lia |].
    unfold text at 1. cbn [inner]. fold (text also f).
    change ("(" +:+ ("!" +:+ ?X) +:+ ")") with (String "(" (String "!" (X +:+ ")"))).
    rewrite _parseString_not.
    2:{ apply charAt_middle. }
    2:{ apply charAt_middle2. }
    assert (pre +:+ String "(" (String "!" (text also f +:+ ")")) +:+ suf
            = (pre +:+ "(!") +:+ text also f +:+ String ")" suf) as ->
      by string_eq.
    replace (String.length pre + 1 + 1)%nat with (String.length (pre +:+ "(!"))
      by (rewrite length_app_string; cbn; lia).
    rewrite IH by (done || lia). cbn [end_ filter].
    do 3 f_equal. rewrite !length_app_string. cbn [String.length]. lia.
  - destruct (item_facts also f Hitem Hw) as (Hparse & Hnp & x & rest & Hx & Hxw).
    specialize (Hlen f).
    destruct fuel as [| fuel]; [lia |].
    unfold text.
    change ("(" +:+ ?X +:+ ")") with (String "(" (X +:+ ")")).
    rewrite (_parseString_item _ _ _ _ (Some x)).
    2:{ apply charAt_middle. }
    2:{ rewrite Hx. apply charAt_middle2. }
    2,3,4: intros [= ->]; done.
    assert (Hidx : indexOf ")" (pre +:+ String "(" (inner also f +:+ ")") +:+ suf)
                     (String.length pre + 1)
                   = Some (String.length pre + 1 + String.length (inner also f))%nat).
    { unfold indexOf. rewrite !units_app, units_cons, units_app, length_units.
      replace (units pre ++ ("("%char :: units (inner also f) ++ units ")") ++ units suf)
        with ((units pre ++ ["("%char]) ++ units (inner also f) ++ ")"%char :: units suf)
        by (cbn [units list_ascii_of_string];
            repeat first [rewrite <- app_assoc | progress cbn [app]]; reflexivity).
      replace (length (units pre) + 1)%nat with (length (units pre ++ ["("%char]))
        by (rewrite length_app; cbn; lia).
      rewrite drop_app_length, index_in_app by done. cbn.
      by rewrite <- length_units. }
    rewrite Hidx.
    assert (Hsub : substr (pre +:+ String "(" (inner also f +:+ ")") +:+ suf)
                     (String.length pre + 1)
                     (String.length pre + 1 + String.length (inner also f) - (String.length pre + 1))
                   = inner also f).
    { unfold substr. rewrite !units_app, units_cons, units_app, length_units.
      replace (units pre ++ ("("%char :: units (inner also f) ++ units ")") ++ units suf)
        with ((units pre ++ ["("%char]) ++ units (inner also f) ++ ")"%char :: units suf)
        by (cbn [units list_ascii_of_string];
            repeat first [rewrite <- app_assoc | progress cbn [app]]; reflexivity).
      replace (length (units pre) + 1)%nat with (length (units pre ++ ["("%char]))
        by (rewrite length_app; cbn; lia).
      rewrite drop_app_length.
      replace (length (units pre ++ ["("%char]) + String.length (inner also f)
               - length (units pre ++ ["("%char]))%nat
        with (length (units (inner also f))) by (rewrite length_units; lia).
      by rewrite take_app_length, of_units_units. }
    rewrite Hsub, Hparse. do 3 f_equal.
    cbn [String.length]. rewrite length_app_string. cbn [String.length]. lia.
Qed.

Lemma inner_head also f :
  writable f ->
  exists x rest, inner also f = String x rest /\ x <> "("%char.
Proof.
  intros Hw.
  assert (Hitem : (match f with
                   | new_AndFilter _ | new_OrFilter _ | new_NotFilter _ => False
                   | _ => True
                   end) ->
                  exists x rest, inner also f = String x rest /\ x <> "("%char).
  { intros Hi. destruct (item_facts also f Hi Hw) as (_ & _ & x & rest & Hx & Hxw).
    exists x, rest. split; [done |]. by intros ->. }
  destruct f; try (by apply Hitem); cbn [inner];
    eexists _, _; (split; [reflexivity | done]).
Qed.

Lemma parse_text_whole also f suf fuel :
  writable f -> (String.length (text also f) <= fuel)%nat ->
  _parseString fuel (text also f +:+ suf) 0 (text also f +:+ suf)
  = Some (Ok {| end_ := String.length (text also f) - 1; filter := f |}).
Proof.
  intros Hw Hfuel.
  exact (parse_text also f Hw "" suf (text also f +:+ suf) fuel Hfuel).
Qed.

(** X24: [parseString] reads the text of a filter back as
    that filter, with or without the outer parentheses: for every filter of
    [And] and [Or] nodes with at least one child, [Not] nodes, and presence,
    equality, substring, ordering and approximate items whose attributes are
    words of [[-\w]] and whose values are any strings, written with the
    characters [( ) * \] of the values escaped.  Fuel of the length of the
    text is enough. *)
Theorem parseString_reads_text (also : ascii -> bool) (f : TextFilter) (fuel : nat) :
  writable f ->
  (String.length (text also f) <= fuel)%nat ->
  parseString fuel (text also f) = Some (Ok f)
  /\ parseString fuel (inner also f) = Some (Ok f).
Proof.
  intros Hw Hfuel.
  assert (Htext : parseString fuel (text also f) = Some (Ok f)).
  { unfold parseString. rewrite bool_decide_false by done.
    assert (startsWith "(" (text also f) = true) as -> by done. cbn [negb].
    pose proof (parse_text_whole also f "" fuel Hw Hfuel) as Hp.
    rewrite string_app_nil_r in Hp. rewrite Hp. cbn [end_ filter].
    by rewrite bool_decide_false by lia. }
  split; [done |].
  destruct (inner_head also f Hw) as (x & rest & Hx & Hxne).
  unfold parseString. rewrite Hx.
  rewrite bool_decide_false by done.
  assert (startsWith "(" (String x rest) = false) as ->.
  { unfold startsWith, charAt. cbn. apply bool_decide_eq_false. by intros [= ->]. }
  cbn [negb]. rewrite <- Hx. exact Htext.
Qed.

(** X25: text after the closing parenthesis of a filter is
    refused: [parseString] throws [Unbalanced parens in filter string]. *)
Theorem parseString_rejects_trailing_text (also : ascii -> bool) (f : TextFilter)
    (extra : string) (fuel : nat) :
  writable f ->
  extra <> ""%string ->
  (String.length (text also f) <= fuel)%nat ->
  parseString fuel (text also f +:+ extra)
  = Some (Throw (Error ("Unbalanced parens in filter string: "
                        +:+ text also f +:+ extra))).
Proof.
  intros Hw Hextra Hfuel. unfold parseString.
  rewrite bool_decide_false by done.
  assert (startsWith "(" (text also f +:+ extra) = true) as -> by done. cbn [negb].
  rewrite (parse_text_whole also f extra fuel Hw Hfuel). cbn [end_ filter].
  rewrite bool_decide_true; [done |].
  rewrite length_app_string. pose proof (text_length also f).
  destruct extra; [done |]. cbn [String.length]. lia.
Qed.

(** X26: a filter whose last closing parenthesis is missing is
    not refused when it is an [And], an [Or] or a [Not]: [parseString]
    returns the filter as if the parenthesis were there. *)
Theorem parseString_accepts_missing_parenthesis (also : ascii -> bool)
    (f : TextFilter) (fuel : nat) :
  writable f ->
  (match f with
   | new_AndFilter _ | new_OrFilter _ | new_NotFilter _ => True
   | _ => False
   end) ->
  (String.length (text also f) <= fuel)%nat ->
  parseString fuel ("(" +:+ inner also f) = Some (Ok f).
Proof.
  intros Hw Hcomp Hfuel. unfold parseString.
  rewrite bool_decide_false by done.
  assert (startsWith "(" ("(" +:+ inner also f) = true) as -> by done. cbn [negb].
  rewrite text_length in Hfuel.
  destruct f as [fs | fs | g | | | | | | |]; try done; cbn [inner writable] in *.
  - destruct Hw as [Hne Hall%writable_all].
    rewrite length_app_string in Hfuel. cbn [String.length] in Hfuel.
    destruct fuel as [| fuel]; [lia |].
    change ("(" +:+ "&" +:+ ?X) with (String "(" (String "&" X)).
    rewrite _parseString_and by done.
    assert (IH : Forall (fun f => forall pre suf full fuel,
                   (String.length (text also f) <= fuel)%nat ->
                   _parseString fuel (pre +:+ text also f +:+ suf) (String.length pre) full
                   = Some (Ok {| end_ := String.length pre + String.length (text also f) - 1;
                                 filter := f |})) fs).
    { apply Forall_forall. intros f Hf. apply parse_text.
      rewrite Forall_forall in Hall. auto. }
    pose proof (parse_children also fs IH Hne "(&" "" (String "(" (String "&" (String.concat "" (map (text also) fs))))
                  [] fuel (or_introl eq_refl)) as Hp.
    rewrite string_app_nil_r in Hp.
    change ("(&" +:+ ?X) with (String "(" (String "&" X)) in Hp.
    change (fun f : TextFilter => "(" +:+ inner also f +:+ ")") with (text also) in *.
    cbn [String.length] in Hp |- *. change (0 + 1 + 1)%nat with 2%nat.
    rewrite Hp by lia.
    cbn [end_ filter app]. by rewrite bool_decide_false by lia.
  - destruct Hw as [Hne Hall%writable_all].
    rewrite length_app_string in Hfuel. cbn [String.length] in Hfuel.
    destruct fuel as [| fuel]; [lia |].
    change ("(" +:+ "|" +:+ ?X) with (String "(" (String "|" X)).
    rewrite _parseString_or by done.
    assert (IH : Forall (fun f => forall pre suf full fuel,
                   (String.length (text also f) <= fuel)%nat ->
                   _parseString fuel (pre +:+ text also f +:+ suf) (String.length pre) full
                   = Some (Ok {| end_ := String.length pre + String.length (text also f) - 1;
                                 filter := f |})) fs).
    { apply Forall_forall. intros f Hf. apply parse_text.
      rewrite Forall_forall in Hall. auto. }
    pose proof (parse_children also fs IH Hne "(|" "" (String "(" (String "|" (String.concat "" (map (text also) fs))))
                  [] fuel (or_introl eq_refl)) as Hp.
    rewrite string_app_nil_r in Hp.
    change ("(|" +:+ ?X) with (String "(" (String "|" X)) in Hp.
    change (fun f : TextFilter => "(" +:+ inner also f +:+ ")") with (text also) in *.
    cbn [String.length] in Hp |- *. change (0 + 1 + 1)%nat with 2%nat.
    rewrite Hp by lia.
    cbn [end_ filter app]. by rewrite bool_decide_false by lia.
  - change ("(" +:+ inner also g +:+ ")") with (text also g) in *.
    rewrite length_app_string in Hfuel. cbn [String.length] in Hfuel.
    destruct fuel as [| fuel]; [lia |].
    change ("(" +:+ "!" +:+ ?X) with (String "(" (String "!" X)).
    rewrite _parseString_not by done.
    pose proof (parse_text also g Hw "(!" "" (String "(" (String "!" (text also g))) fuel) as Hp.
    rewrite string_app_nil_r in Hp.
    change ("(!" +:+ ?X) with (String "(" (String "!" X)) in Hp.
    cbn [String.length] in Hp |- *. change (0 + 1 + 1)%nat with 2%nat.
    rewrite Hp by lia.
    cbn [end_ filter]. by rewrite bool_decide_false by lia.
Qed.

(** X27: an [&], [|] or [!] that is not followed by an opening
    parenthesis is refused with [Missing paren]; so are the texts [(&)] and
    [(|)] of the filters without children. *)
Theorem parseString_composite_needs_child (op : ascii) (rest : string) (fuel : nat) :
  op = "&"%char \/ op = "|"%char \/ op = "!"%char ->
  charAt rest 0 <> Some "("%char ->
  let filterString := String "(" (String op rest) in
  parseString (S (S (S fuel))) filterString
  = Some (Throw (Error ("Missing paren: " +:+ filterString
                        +:+ ". Full string: " +:+ filterString))).
Proof.
  intros Hop Hrest filterString. unfold parseString.
  rewrite bool_decide_false by done.
  assert (startsWith "(" filterString = true) as -> by done. cbn [negb].
  assert (Hchild : forall fuel,
            _parseString (S fuel) filterString 2 filterString
            = Some (Throw (Error ("Missing paren: " +:+ filterString
                                  +:+ ". Full string: " +:+ filterString)))).
  { intros fuel'. cbn [_parseString].
    assert (charAt filterString 2 = charAt rest 0) as -> by done.
    by rewrite bool_decide_false by done. }
  destruct Hop as [-> | [-> | ->]].
  - rewrite _parseString_and by done. rewrite _parseString_children_step.
    cbn [Nat.add]. by rewrite Hchild.
  - rewrite _parseString_or by done. rewrite _parseString_children_step.
    cbn [Nat.add]. by rewrite Hchild.
  - rewrite _parseString_not by done. cbn [Nat.add]. by rewrite Hchild.
Qed.

End TextParsing.

Section TextTermination.
Import JsString FilterParser.
Context `{Runtime}.
Local Close Scope Z_scope.

Lemma charAt_lt s i c : charAt s i = Some c -> (i < String.length s)%nat.
Proof. unfold charAt. rewrite length_units. apply lookup_lt_Some. Qed.

Lemma indexOf_ge c s from e : indexOf c s from = Some e -> (from <= e)%nat.
Proof.
  unfold indexOf. destruct (index_in c (drop from (units s))); [| done].
  cbn. intros [= <-]. lia.
Qed.

(** With fuel above the number of characters from [start] on,
    [_parseString] returns or throws, and what it returns ends behind
    [start]; likewise the loop over the children. *)
Lemma parse_fuel_enough (s full : string) (k : nat) :
  (forall start fuel,
     (String.length s - start <= k)%nat -> (k < fuel)%nat ->
     exists r, _parseString fuel s start full = Some r
               /\ forall pr, r = Ok pr -> (start < end_ pr)%nat)
  /\ (forall cursor children fuel,
        (String.length s - cursor <= k)%nat -> (k + 1 < fuel)%nat ->
        exists r, _parseString_children fuel s cursor full children = Some r
                  /\ forall cs c, r = Ok (cs, c) -> (cursor < c)%nat).
Proof.
  induction k as [k IH] using lt_wf_ind.
  assert (HF : forall start fuel,
            (String.length s - start <= k)%nat -> (k < fuel)%nat ->
            exists r, _parseString fuel s start full = Some r
                      /\ forall pr, r = Ok pr -> (start < end_ pr)%nat).
  { intros start fuel Hk Hfuel. destruct fuel as [| fuel]; [lia |].
    destruct (decide (charAt s start = Some "("%char)) as [Hopen | Hopen].
    2:{ cbn [_parseString]. rewrite bool_decide_false by done. cbn [negb].
        eexists. split; [done |]. done. }
    pose proof (charAt_lt _ _ _ Hopen) as Hlt.
    destruct (decide (charAt s (start + 1) = Some "&"%char)) as [Hand | Hand].
    { pose proof (charAt_lt _ _ _ Hand) as Hlt2.
      rewrite _parseString_and by done.
      destruct (IH (k - 2)%nat ltac:(lia)) as [_ HL].
      destruct (HL (start + 1 + 1)%nat [] fuel ltac:(lia) ltac:(lia)) as (r & -> & Hr).
      destruct r as [[cs c] | e]; eexists; (split; [done |]); [| done].
      intros pr [= <-]. cbn. specialize (Hr cs c eq_refl). lia. }
    destruct (decide (charAt s (start + 1) = Some "|"%char)) as [Hor | Hor].
    { pose proof (charAt_lt _ _ _ Hor) as Hlt2.
      rewrite _parseString_or by done.
      destruct (IH (k - 2)%nat ltac:(lia)) as [_ HL].
      destruct (HL (start + 1 + 1)%nat [] fuel ltac:(lia) ltac:(lia)) as (r & -> & Hr).
      destruct r as [[cs c] | e]; eexists; (split; [done |]); [| done].
      intros pr [= <-]. cbn. specialize (Hr cs c eq_refl). lia. }
    destruct (decide (charAt s (start + 1) = Some "!"%char)) as [Hnot | Hnot].
    { pose proof (charAt_lt _ _ _ Hnot) as Hlt2.
      rewrite _parseString_not by done.
      destruct (IH (k - 2)%nat ltac:(lia)) as [HF' _].
      destruct (HF' (start + 1 + 1)%nat fuel ltac:(lia) ltac:(lia)) as (r & -> & Hr).
      destruct r as [pr' | e]; eexists; (split; [done |]); [| done].
      intros pr [= <-]. cbn. specialize (Hr pr' eq_refl). lia. }
    rewrite (_parseString_item _ _ _ _ (charAt s (start + 1))) by done.
    destruct (indexOf ")" s (start + 1)) as [e |] eqn:Hidx.
    - apply indexOf_ge in Hidx.
      destruct (_parseExpressionFilterFromString _) as [f | err];
        eexists; (split; [done |]); [| done].
      intros pr [= <-]. cbn. lia.
    - eexists. split; [done |]. done. }
  split; [exact HF |].
  intros cursor children fuel Hk Hfuel. destruct fuel as [| fuel]; [lia |].
  rewrite _parseString_children_step.
  destruct (HF cursor fuel ltac:(lia) ltac:(lia)) as (r & -> & Hr).
  destruct r as [pr | e]; [| eexists; split; [done | done]].
  specialize (Hr pr eq_refl). cbv zeta.
  destruct (bool_decide (end_ pr + 1 < String.length s)%nat
            && negb (bool_decide (charAt s (end_ pr + 1) = Some ")"%char))) eqn:Hgo.
  - apply andb_true_iff in Hgo as [Hlt%bool_decide_eq_true _].
    destruct (IH (k - 2)%nat ltac:(lia)) as [_ HL].
    destruct (HL (end_ pr + 1)%nat (children ++ [filter pr]) fuel ltac:(lia) ltac:(lia))
      as (r & -> & Hr').
    eexists. split; [done |]. intros cs c ->. specialize (Hr' cs c eq_refl). lia.
  - eexists. split; [done |]. intros cs c [= <- <-]. lia.
Qed.

(** X28: [parseString] comes to an end on every input: with
    fuel above the length of the string by more than two it returns a
    filter or throws, and never runs out of fuel. *)
Theorem parseString_terminates (filterString : string) (fuel : nat) :
  (String.length filterString + 2 < fuel)%nat ->
  is_Some (parseString fuel filterString).
Proof.
  intros Hfuel. unfold parseString.
  case_bool_decide; [by eexists |].
  set (s := if negb (startsWith "(" filterString) then _ else _).
  assert (Hlen : (String.length s <= String.length filterString + 2)%nat).
  { subst s. destruct (negb _); [| lia].
    rewrite !length_app_string. cbn. lia. }
  destruct (parse_fuel_enough s s (String.length s)) as [HF _].
  destruct (HF 0%nat fuel ltac:(lia) ltac:(lia)) as (r & -> & _).
  destruct r; [| by eexists]. case_bool_decide; by eexists.
Qed.

End TextTermination.

Section TextUnescape.
Import JsString FilterParser.
Context `{Runtime}.
Local Close Scope Z_scope.

Lemma unescape_loop_accepts input : forall n rest result r,
  (length rest <= n)%nat ->
  _unescapeHexValues_loop input rest result = Ok r ->
  ("("%char ∉ rest)
  /\ (String.length r <= String.length result + length rest)%nat
  /\ ("\"%char ∉ rest -> r = result +:+ of_units rest).
Proof.
  induction n as [| n IH]; intros rest result r Hn Hr.
  - destruct rest; [| cbn in Hn; lia]. cbn in Hr. injection Hr as <-.
    split; [apply not_elem_of_nil |]. split; [cbn; lia |].
    intros _. by rewrite string_app_nil_r.
  - destruct rest as [| char rest]; cbn [_unescapeHexValues_loop] in Hr.
    { injection Hr as <-. split; [apply not_elem_of_nil |]. split; [cbn; lia |].
      intros _. by rewrite string_app_nil_r. }
    cbn [length] in Hn.
    case_bool_decide as Hopen; [done |].
    case_bool_decide as Hback.
    + destruct rest as [| h1 [| h2 rest]]; [done | done |].
      destruct (is_hex h1 && is_hex h2) eqn:Hhex; [| done].
      apply andb_true_iff in Hhex as [Hh1 Hh2]. cbn [length] in Hn.
      destruct (IH rest _ r ltac:(lia) Hr) as (H1 & H2 & _).
      rewrite length_app_string in H2. cbn [String.length length] in H2 |- *.
      split.
      * rewrite !not_elem_of_cons. split; [done |].
        split; [intros <-; by vm_compute in Hh1 |].
        split; [intros <-; by vm_compute in Hh2 | done].
      * split; [lia |]. intros Hno. exfalso. apply Hno. subst char. by left.
    + destruct (IH rest _ r ltac:(lia) Hr) as (H1 & H2 & H3).
      rewrite length_app_string in H2. cbn [String.length length] in H2 |- *.
      split; [rewrite not_elem_of_cons; done |]. split; [lia |].
      intros Hno. apply not_elem_of_cons in Hno as [_ Hno].
      rewrite (H3 Hno), string_app_assoc. done.
Qed.

(** X29: [_unescapeHexValues] gives back every value from its
    escaped form, in which the characters [( ) * \] and any others one
    likes are written as a backslash and two hexadecimal digits. *)
Theorem unescapeHexValues_of_escaped (also : ascii -> bool) (value : string) :
  _unescapeHexValues (escape_value also value) = Ok value.
Proof.
  unfold _unescapeHexValues, escape_value. rewrite units_of_units.
  rewrite unescape_loop_escaped. by rewrite of_units_units.
Qed.

(** X30: what [_unescapeHexValues] returns a value
    for holds no opening parenthesis, and the value is not longer than the
    input; an input without a backslash is returned as it is. *)
Theorem unescapeHexValues_accepts (input result : string) :
  _unescapeHexValues input = Ok result ->
  ("("%char ∉ units input)
  /\ (String.length result <= String.length input)%nat
  /\ ("\"%char ∉ units input -> result = input).
Proof.
  intros Hr. unfold _unescapeHexValues in Hr.
  destruct (unescape_loop_accepts input _ _ _ _ (le_n _) Hr) as (H1 & H2 & H3).
  split; [done |]. split; [by rewrite (length_units input) |].
  intros Hno. rewrite (H3 Hno). by rewrite of_units_units.
Qed.

End TextUnescape.

Section TextExamples.
Import JsString FilterParser.
#[local] Existing Instance ascii_runtime.
Local Close Scope Z_scope.

Lemma unescapeHexValues_accepts_witness :
  _unescapeHexValues "a\2ab" = Ok "a*b"%string
  /\ ("("%char ∉ units "a\2ab")
  /\ String.length "a*b" <= String.length "a\2ab".
Proof.
  pose proof (unescapeHexValues_accepts "a\2ab" "a*b" eq_refl) as (H1 & H2 & _).
  split; [reflexivity |]. by split.
Defined.

Lemma parseString_reads_text_witness :
  writable (new_AndFilter
              [new_EqualityFilter "cn" "J(i)m";
               new_NotFilter (new_SubstringFilter "sn" "a" ["*"%string] "")])
  /\ parseString 40 "(&(cn=J\28i\29m)(!(sn=a*\2a*)))"
     = Some (Ok (new_AndFilter
                   [new_EqualityFilter "cn" "J(i)m";
                    new_NotFilter (new_SubstringFilter "sn" "a" ["*"%string] "")])).
Proof.
  assert (Hw : writable (new_AndFilter
                 [new_EqualityFilter "cn" "J(i)m";
                  new_NotFilter (new_SubstringFilter "sn" "a" ["*"%string] "")])).
  { cbn. unfold is_attribute. repeat split; try discriminate; try (repeat constructor).
    intros (? & ? & ?). discriminate. }
  split; [exact Hw |].
  refine (proj1 (parseString_reads_text (fun _ => false)
                   (new_AndFilter
                      [new_EqualityFilter "cn" "J(i)m";
                       new_NotFilter (new_SubstringFilter "sn" "a" ["*"%string] "")])
                   40 Hw _)).
  vm_compute. lia.
Defined.

Lemma parseString_rejects_trailing_text_witness :
  writable (new_PresenceFilter "cn")
  /\ ")"%string <> ""%string
  /\ parseString 10 "(cn=*))"
     = Some (Throw (Error "Unbalanced parens in filter string: (cn=*))")).
Proof.
  assert (Hw : writable (new_PresenceFilter "cn")).
  { cbn. unfold is_attribute. split; [discriminate | repeat constructor]. }
  split; [exact Hw |]. split; [discriminate |].
  refine (parseString_rejects_trailing_text (fun _ => false)
            (new_PresenceFilter "cn") ")" 10 Hw _ _); [discriminate |].
  vm_compute. lia.
Defined.

Lemma parseString_accepts_missing_parenthesis_witness :
  writable (new_OrFilter [new_PresenceFilter "cn"; new_PresenceFilter "sn"])
  /\ parseString 20 "(|(cn=*)(sn=*)"
     = Some (Ok (new_OrFilter [new_PresenceFilter "cn"; new_PresenceFilter "sn"])).
Proof.
  assert (Hw : writable (new_OrFilter [new_PresenceFilter "cn"; new_PresenceFilter "sn"])).
  { cbn. unfold is_attribute. repeat split; try discriminate; repeat constructor. }
  split; [exact Hw |].
  refine (parseString_accepts_missing_parenthesis (fun _ => false)
            (new_OrFilter [new_PresenceFilter "cn"; new_PresenceFilter "sn"])
            20 Hw I _).
  vm_compute. lia.
Defined.

Lemma parseString_composite_needs_child_witness :
  charAt ")" 0 <> Some "("%char
  /\ parseString 3 "(&)"
     = Some (Throw (Error "Missing paren: (&). Full string: (&)")).
Proof.
  split; [discriminate |].
  refine (parseString_composite_needs_child "&" ")" 0 (or_introl eq_refl) _).
  discriminate.
Defined.

Lemma parseString_terminates_witness :
  String.length "(&(cn=a" + 2 < 10
  /\ is_Some (parseString 10 "(&(cn=a").
Proof.
  assert (Hfuel : String.length "(&(cn=a" + 2 < 10) by (cbn; lia).
  split; [exact Hfuel |]. exact (parseString_terminates "(&(cn=a" 10 Hfuel).
Defined.

End TextExamples.

